(** * Bordeaux AOC Top 20: rating adjustment, ranking and ingestion

    A shallow embedding of [server.js]: the SQLite tables as records and
    lists of rows, the prepared statements as functions on the database
    value, the Express handlers as functions from a request and a database
    to a response and a database.

    Conventions of the model.
    - JavaScript numbers and SQLite REAL values are IEEE doubles in the
      program. A finite double is the rational it denotes ([Q]), the
      non-finite ones are the extra constructors of [jsnum], and the two
      zeros are one. Comparisons are those of the rationals; sums, products
      and quotients are rounded to the nearest double, ties to even, and
      overflow to an infinity ([round64]). A rational that is not a double
      stands for the double nearest to it, as a numeric literal does.
    - The clock ([dayjs()], [datetime('now')]) is an explicit argument, in
      milliseconds since the epoch; one reading is used for all the stamps
      taken while one statement or one handler runs.
    - [db.exec] of the schema is taken to have created the three tables with
      the columns and constraints that the CREATE TABLE text declares (its
      line that starts with two slashes is read as the comment it is meant
      to be). *)

From Stdlib Require Import ZArith QArith Qminmax Qround Qpower Lqa Lia Bool List String.
From Stdlib Require Import Sorting.Sorted Sorting.Permutation Ascii.
From stdpp Require Import base option list gmap sorting.

Local Open Scope Z_scope.

(** ** JavaScript values *)

Module Js.

(** A JavaScript number: a finite value, or one of the three non-finite
    ones. *)
Inductive jsnum : Type :=
  | Fin (q : Q)
  | NaN
  | PInf
  | NInf.

(** The values a parsed JSON body, a query string or a result row can hold
    in the places the handlers look at. *)
Inductive jsval : Type :=
  | JUndefined
  | JNull
  | JBool (b : bool)
  | JNum (x : jsnum)
  | JStr (s : string).

Definition isFinite (x : jsnum) : bool :=
  match x with Fin _ => true | _ => false end.

Definition Qzerob (q : Q) : bool := Qeq_bool q 0.
Definition Qposb (q : Q) : bool := negb (Qle_bool q 0).
Definition Qnegb (q : Q) : bool := negb (Qle_bool 0 q).

(** [Math.min(a, b)] and [Math.max(a, b)] on numbers. *)
Definition Math_min (a b : jsnum) : jsnum :=
  match a, b with
  | NaN, _ | _, NaN => NaN
  | NInf, _ | _, NInf => NInf
  | PInf, y => y
  | x, PInf => x
  | Fin x, Fin y => Fin (if Qle_bool x y then x else y)
  end.

Definition Math_max (a b : jsnum) : jsnum :=
  match a, b with
  | NaN, _ | _, NaN => NaN
  | PInf, _ | _, PInf => PInf
  | NInf, y => y
  | x, NInf => x
  | Fin x, Fin y => Fin (if Qle_bool x y then y else x)
  end.

(** *** Double arithmetic *)

Definition js_neg (a : jsnum) : jsnum :=
  match a with
  | Fin x => Fin (- x)
  | NaN => NaN
  | PInf => NInf
  | NInf => PInf
  end.

(** The integer nearest to a rational, a tie going to the even one. *)
Definition round_half_even (x : Q) : Z :=
  let f := Qfloor x in
  match (x - inject_Z f ?= 1 # 2)%Q with
  | Lt => f
  | Gt => f + 1
  | Eq => if Z.even f then f else f + 1
  end.

(** The exponent [e] with [2 ^ e <= a < 2 ^ (e + 1)], for a positive [a]. *)
Definition floor_log2 (a : Q) : Z :=
  if Qle_bool 1 a then Z.log2 (Qfloor a) else - Z.log2_up (Qceiling (/ a)).

(** The exponent of the binade of a positive rational, from -1022: below
    [2 ^ -1022] are the subnormal numbers, which share the spacing
    [2 ^ -1074]. *)
Definition exponent (a : Q) : Z := Z.max (floor_log2 a) (-1022).

(** Its significand of 53 bits, rounded: the multiple of the spacing
    [2 ^ (exponent a - 52)] nearest to [a]. *)
Definition significand (a : Q) : Z :=
  round_half_even (a * 2 ^ (52 - exponent a)).

(** The binary64 value nearest to a positive rational; an infinity from
    [2 ^ 1024] on, which is where the greatest double plus half its spacing
    is rounded to. *)
Definition round_pos (a : Q) : jsnum :=
  if (1023 <? exponent a) || ((exponent a =? 1023) && (significand a =? 2 ^ 53))
  then PInf
  else Fin (Qred (inject_Z (significand a) * 2 ^ (exponent a - 52))).

(** The binary64 value nearest to a rational, ties to even. *)
Definition round64 (q : Q) : jsnum :=
  let r := Qred q in
  match Qnum r with
  | Z0 => Fin 0
  | Zpos _ => round_pos r
  | Zneg _ => js_neg (round_pos (- r))
  end.

(** The order of the numbers; NaN is not related to any. *)
Definition double_le (x y : jsnum) : Prop :=
  match x, y with
  | Fin a, Fin b => (a <= b)%Q
  | NInf, (Fin _ | PInf | NInf) => True
  | Fin _, PInf | PInf, PInf => True
  | _, _ => False
  end.

(** The double a number of the model stands for. *)
Definition to_double (a : jsnum) : jsnum :=
  match a with
  | Fin x => round64 x
  | _ => a
  end.


(** The sign of a number: [Some true] positive, [Some false] negative,
    [None] for zero and NaN. *)
Definition js_sign (a : jsnum) : option bool :=
  match a with
  | Fin x => if Qposb x then Some true else if Qnegb x then Some false else None
  | PInf => Some true
  | NInf => Some false
  | NaN => None
  end.

(** [a + b] *)
Definition js_add (a b : jsnum) : jsnum :=
  match to_double a, to_double b with
  | NaN, _ | _, NaN => NaN
  | PInf, NInf | NInf, PInf => NaN
  | PInf, _ | _, PInf => PInf
  | NInf, _ | _, NInf => NInf
  | Fin x, Fin y => round64 (x + y)
  end.

(** [a * b] *)
Definition js_mul (a b : jsnum) : jsnum :=
  match to_double a, to_double b with
  | NaN, _ | _, NaN => NaN
  | Fin x, Fin y => round64 (x * y)
  | x, y =>
      match js_sign x, js_sign y with
      | Some s, Some t => if Bool.eqb s t then PInf else NInf
      | _, _ => NaN
      end
  end.

(** [a / b] *)
Definition js_div (a b : jsnum) : jsnum :=
  match to_double a, to_double b with
  | NaN, _ | _, NaN => NaN
  | Fin x, Fin y =>
      if Qzerob y then
        match js_sign (Fin x) with
        | Some true => PInf
        | Some false => NInf
        | None => NaN
        end
      else round64 (x / y)
  | Fin _, _ => Fin 0
  | x, Fin y =>
      if Qnegb y then js_neg x else x
  | _, _ => NaN
  end.

(** Truthiness, as [||], [!], [?:] and [if] test it. *)
Definition truthy (v : jsval) : bool :=
  match v with
  | JUndefined | JNull => false
  | JBool b => b
  | JNum (Fin q) => negb (Qzerob q)
  | JNum NaN => false
  | JNum _ => true
  | JStr s => negb (String.eqb s EmptyString)
  end.

(** [a || b] *)
Definition js_or (a b : jsval) : jsval := if truthy a then a else b.

Section Coercion.

(** [Number(s)] on a string is the engine's StringToNumber; the handlers
    are correct for whatever it returns. *)
Variable StringToNumber : string -> jsnum.

(** [Number(v)] *)
Definition Number (v : jsval) : jsnum :=
  match v with
  | JUndefined => NaN
  | JNull => Fin 0
  | JBool b => if b then Fin 1 else Fin 0
  | JNum x => x
  | JStr s => StringToNumber s
  end.

(** [function sanitizeNumber(n, fallback = 0)] *)
Definition sanitizeNumber (n : jsval) (fallback : jsval) : jsval :=
  let x := Number n in
  if isFinite x then JNum x else fallback.

(** A result row as [adjustedRating] reads it. *)
Record js_row : Type := mk_js_row {
  row_adjustment_pct : jsval;
  row_vivino_rating : jsval
}.

(** [function adjustedRating(row)] *)
Definition adjustedRating (row : js_row) : jsnum :=
  let adj := sanitizeNumber (js_or (row_adjustment_pct row) (JNum (Fin 0))) (JNum (Fin 0)) in
  let base := sanitizeNumber (js_or (row_vivino_rating row) (JNum (Fin 0))) (JNum (Fin 0)) in
  let factor :=
    js_add (Fin 1)
      (js_div (Math_max (Fin (-25)) (Math_min (Fin 25) (Number adj))) (Fin 100)) in
  js_mul (Number base) factor.

End Coercion.

End Js.

(** ** The database *)

(** Milliseconds since the epoch. *)
Definition time : Type := Z.

(** A row of table [wines]. The NOT NULL columns hold a value, the others
    an optional one. *)
Record wine : Type := mk_wine {
  id : Z;
  external_id : option string;
  name : string;
  winery : option string;
  aoc : string;
  vintage : option Z;
  vivino_rating : Q;
  rating_count : option Q;
  price : option Q;
  last_source_update : option time;
  created_at : time;
  updated_at : time
}.

(** A row of table [admin_overrides], keyed by [wine_id] in the map. *)
Record override : Type := mk_override {
  adjustment_pct : Q;
  o_updated_at : time
}.

(** The three tables: [wines] in rowid order, [admin_overrides] by its
    primary key, and the row of [meta] whose key is ['last_refresh']. *)
Record database : Type := mk_database {
  wines : list wine;
  admin_overrides : gmap Z override;
  last_refresh : option time
}.

Definition empty_db : database := mk_database [] ∅ None.

(** The named parameters bound to [upsertWine]; [None] is a bound NULL. *)
Record wine_params : Type := mk_wine_params {
  p_external_id : option string;
  p_name : option string;
  p_winery : option string;
  p_aoc : option string;
  p_vintage : option Z;
  p_vivino_rating : option Q;
  p_rating_count : option Q;
  p_price : option Q;
  p_last_source_update : option time
}.

(** The rowid the next INSERT receives: one more than the largest in use. *)
Definition next_id (ws : list wine) : Z :=
  fold_right (fun w m => Z.max (id w + 1) m) 1 ws.

Definition opt_string_eqb (a b : option string) : bool :=
  match a, b with
  | Some x, Some y => String.eqb x y
  | _, _ => false
  end.

(** Does row [w] conflict with the key [e] on the UNIQUE column? NULL never
    conflicts. *)
Definition conflicts (e : option string) (w : wine) : bool :=
  opt_string_eqb (external_id w) e.

(** The values of one execution of [upsertWine], once the NOT NULL columns
    are known to be bound. *)
Record wine_values : Type := mk_wine_values {
  v_external_id : option string;
  v_name : string;
  v_winery : option string;
  v_aoc : string;
  v_vintage : option Z;
  v_vivino_rating : Q;
  v_rating_count : option Q;
  v_price : option Q;
  v_last_source_update : option time
}.

(** The NOT NULL check of columns [name], [aoc] and [vivino_rating]. *)
Definition check_not_null (p : wine_params) : option wine_values :=
  match p_name p, p_aoc p, p_vivino_rating p with
  | Some n, Some a, Some r =>
      Some (mk_wine_values (p_external_id p) n (p_winery p) a (p_vintage p) r
              (p_rating_count p) (p_price p) (p_last_source_update p))
  | _, _, _ => None
  end.

(** INSERT INTO wines (...) VALUES (...) *)
Definition inserted (now : time) (v : wine_values) (i : Z) : wine :=
  mk_wine i (v_external_id v) (v_name v) (v_winery v) (v_aoc v) (v_vintage v)
    (v_vivino_rating v) (v_rating_count v) (v_price v) (v_last_source_update v)
    now now.

(** ON CONFLICT(external_id) DO UPDATE SET ...: every column of the
    statement but the key, and [updated_at]. *)
Definition updated (now : time) (v : wine_values) (w : wine) : wine :=
  mk_wine (id w) (external_id w) (v_name v) (v_winery v) (v_aoc v) (v_vintage v)
    (v_vivino_rating v) (v_rating_count v) (v_price v) (v_last_source_update v)
    (created_at w) now.

(** The rows of [wines] after the statement: the conflicting row updated in
    place, or a new row at the end with rowid [i]. *)
Fixpoint upsert_rows (now : time) (v : wine_values) (i : Z) (ws : list wine)
  : list wine :=
  match ws with
  | [] => [inserted now v i]
  | w :: ws' =>
      if conflicts (v_external_id v) w then updated now v w :: ws'
      else w :: upsert_rows now v i ws'
  end.

(** [upsertWine.run(params)]; [None] when the statement throws. *)
Definition upsertWine (now : time) (p : wine_params) (d : database)
  : option database :=
  match check_not_null p with
  | Some v =>
      Some (mk_database (upsert_rows now v (next_id (wines d)) (wines d))
              (admin_overrides d) (last_refresh d))
  | None => None
  end.

(** [getWineById.get(id)] *)
Definition getWineById (i : Z) (d : database) : option wine :=
  List.find (fun w => id w =? i) (wines d).

(** [getWineByExternalId.get(external_id)] *)
Definition getWineByExternalId (e : string) (d : database) : option wine :=
  List.find (conflicts (Some e)) (wines d).

(** INSERT INTO admin_overrides ... ON CONFLICT(wine_id) DO UPDATE SET ...:
    the row of [wine_id] written or replaced. *)
Definition override_written (now : time) (wine_id : Z) (pct : Q) (d : database)
  : database :=
  mk_database (wines d)
    (<[wine_id := mk_override pct now]> (admin_overrides d))
    (last_refresh d).

(** [upsertOverride.run(wine_id, pct)]; [None] when the statement throws:
    [wine_id] REFERENCES wines(id), and the connection enforces foreign
    keys, so a [wine_id] that is no rowid of [wines] is refused. *)
Definition upsertOverride (now : time) (wine_id : Z) (pct : Q) (d : database)
  : option database :=
  if existsb (fun w => id w =? wine_id) (wines d)
  then Some (override_written now wine_id pct d)
  else None.

(** [setMeta.run('last_refresh', value)] *)
Definition setMeta_last_refresh (value : time) (d : database) : database :=
  mk_database (wines d) (admin_overrides d) (Some value).

(** [getMeta.get('last_refresh')] *)
Definition getMeta_last_refresh (d : database) : option time :=
  last_refresh d.

(** [db.transaction((rows) => { for (const w of rows) upsertWine.run(w); })]
    applied to [rows]: the statements in order; if one throws the
    transaction is rolled back and the exception propagates ([None]). *)
Fixpoint run_upserts (now : time) (rows : list wine_params) (d : database)
  : option database :=
  match rows with
  | [] => Some d
  | p :: rows' =>
      match upsertWine now p d with
      | Some d' => run_upserts now rows' d'
      | None => None
      end
  end.

Import Js.

(** ** The adjusted rating, as the SQL of the routes computes it *)

Definition Qgtb (x y : Q) : bool := negb (Qle_bool x y).
Definition Qltb (x y : Q) : bool := negb (Qle_bool y x).

(** CASE WHEN p > 25 THEN 25 WHEN p < -25 THEN -25 ELSE p END *)
Definition clamp_case (p : Q) : Q :=
  if Qgtb p 25 then 25%Q else if Qltb p (-25) then (-25)%Q else p.

(** (w.vivino_rating * (1 + (CASE ... END)/100.0)) AS adjusted_rating: the
    quotient, the sum and the product are REAL operations, each rounded as
    a double is. *)
Definition adjusted_rating_expr (rating pct : Q) : jsnum :=
  js_mul (Fin rating) (js_add (Fin 1) (js_div (Fin (clamp_case pct)) (Fin 100))).

(** A result row of the joined SELECT: [w.*], [adjustment_pct] and
    [adjusted_rating]. *)
Record ranked : Type := mk_ranked {
  r_wine : wine;
  r_adjustment_pct : Q;
  r_adjusted_rating : jsnum
}.

(** IFNULL(o.adjustment_pct, 0) over the LEFT JOIN. *)
Definition joined_pct (d : database) (w : wine) : Q :=
  match admin_overrides d !! id w with
  | Some o => adjustment_pct o
  | None => 0%Q
  end.

Definition joined (d : database) (w : wine) : ranked :=
  mk_ranked w (joined_pct d w) (adjusted_rating_expr (vivino_rating w) (joined_pct d w)).

(** *** The spec's words, for comparison *)

(** [clamp(pct)]: saturation into [-25, 25]. *)
Definition spec_clamp (p : Q) : Q := Qmax (-25) (Qmin 25 p).

(** [effectiveScore(baseScore, adjustmentPercent)]: the formula
    [baseScore * (1 + clamp(adjustmentPercent) / 100)], evaluated in the
    arithmetic of the program's numbers. *)
Definition spec_effectiveScore (b p : Q) : jsnum :=
  js_mul (Fin b) (js_add (Fin 1) (js_div (Fin (spec_clamp p)) (Fin 100))).

(** ** ORDER BY adjusted_rating DESC, rating_count DESC, price ASC NULLS LAST *)

(** SQLite's order on the values of a REAL expression: the infinities at
    the two ends, and below them all the NULL that a NaN becomes. *)
Definition compare_real (x y : jsnum) : comparison :=
  match x, y with
  | NaN, NaN => Eq
  | NaN, _ => Lt
  | _, NaN => Gt
  | NInf, NInf => Eq
  | NInf, _ => Lt
  | _, NInf => Gt
  | PInf, PInf => Eq
  | PInf, _ => Gt
  | _, PInf => Lt
  | Fin a, Fin b => (a ?= b)%Q
  end.

(** SQLite's order on a nullable numeric column: NULL is below every
    value. *)
Definition compare_nullable (a b : option Q) : comparison :=
  match a, b with
  | None, None => Eq
  | None, Some _ => Lt
  | Some _, None => Gt
  | Some x, Some y => (x ?= y)%Q
  end.

(** ASC NULLS LAST: NULL is above every value. *)
Definition compare_nulls_last (a b : option Q) : comparison :=
  match a, b with
  | None, None => Eq
  | None, Some _ => Gt
  | Some _, None => Lt
  | Some x, Some y => (x ?= y)%Q
  end.

Definition then_by (c : comparison) (rest : comparison) : comparison :=
  match c with Eq => rest | _ => c end.

(** The three sort terms in order; [Lt] puts [a] first. *)
Definition order_by (a b : ranked) : comparison :=
  then_by (compare_real (r_adjusted_rating b) (r_adjusted_rating a))
    (then_by (compare_nullable (rating_count (r_wine b)) (rating_count (r_wine a)))
       (compare_nulls_last (price (r_wine a)) (price (r_wine b)))).

Definition not_after (a b : ranked) : Prop := order_by a b <> Gt.

#[global] Instance not_after_dec : RelDecision not_after.
Proof.
  intros a b. unfold not_after.
  destruct (order_by a b); [left | left | right]; congruence.
Defined.

(** The sorter. A row goes before the first of the sorted rows that it may
    stand before: rows that tie on the three terms stay in the order in
    which the scan produced them. *)
Fixpoint sort_insert (r : ranked) (rows : list ranked) : list ranked :=
  match rows with
  | [] => [r]
  | x :: rows' =>
      if decide (not_after r x) then r :: rows else x :: sort_insert r rows'
  end.

Definition sort_rows (rows : list ranked) : list ranked :=
  foldr sort_insert [] rows.

(** ** GET /api/aocs *)

(** One more wine of appellation [a] in the groups, kept in ascending
    order of the (BINARY collated) name. *)
Fixpoint group_insert (a : string) (g : list (string * Z)) : list (string * Z) :=
  match g with
  | [] => [(a, 1)]
  | (b, n) :: g' =>
      match String.compare a b with
      | Eq => (b, n + 1) :: g'
      | Lt => (a, 1) :: (b, n) :: g'
      | Gt => (b, n) :: group_insert a g'
      end
  end.

(** SELECT aoc, COUNT( * ) AS n FROM wines GROUP BY aoc ORDER BY aoc *)
Definition select_aoc_groups (d : database) : list (string * Z) :=
  fold_left (fun g w => group_insert (aoc w) g) (wines d) [].

(** [res.json(rows.map(r => r.aoc))] *)
Definition get_api_aocs (d : database) : list string :=
  map fst (select_aoc_groups d).

(** ** The routes and the scheduler *)

(** An integer that a LIMIT or OFFSET term accepts: the number printed into
    the SQL text must read back as a 64-bit integer. A double of magnitude
    [2 ^ 63] or more is printed with more digits than such an integer
    holds, and is read as a REAL. Otherwise preparing or running the
    statement throws. *)
Definition sql_integer (x : jsnum) : option Z :=
  match x with
  | Fin q =>
      let r := Qred q in
      if (Zpos (Qden r) =? 1) && (- 2 ^ 63 <? Qnum r) && (Qnum r <? 2 ^ 63)
      then Some (Qnum r) else None
  | _ => None
  end.

(** LIMIT n OFFSET k over the ordered rows: a negative OFFSET is none, a
    negative LIMIT is no limit. *)
Definition limit_offset (n k : Z) (rows : list ranked) : list ranked :=
  let rest := drop (Z.to_nat k) rows in
  if n <? 0 then rest else take (Z.to_nat n) rest.

(** [adjusted_rating >= ?] with a bound number; a NaN is bound as NULL and
    the comparison is then not true. *)
Definition sql_ge (x : jsnum) (bound : jsnum) : bool :=
  match x, bound with
  | NaN, _ | _, NaN => false
  | _, _ => match compare_real x bound with Lt => false | _ => true end
  end.

(** [adjusted_rating <= ?] *)
Definition sql_le (x : jsnum) (bound : jsnum) : bool :=
  match x, bound with
  | NaN, _ | _, NaN => false
  | _, _ => match compare_real x bound with Gt => false | _ => true end
  end.

(** [req.query] of GET /api/wines: each parameter absent or a string. *)
Record wines_query : Type := mk_wines_query {
  q_aoc : option string;
  q_q : option string;
  q_minRating : option string;
  q_maxRating : option string;
  q_limit : option string;
  q_offset : option string;
  q_all : option string
}.

Definition param (o : option string) : jsval :=
  match o with Some s => JStr s | None => JUndefined end.

(** [req.body] of POST /api/admin/override; [wine_id] is an integer or
    absent. *)
Record override_body : Type := mk_override_body {
  b_wine_id : option Z;
  b_adjustment_pct : jsval
}.

(** Truthiness of [wine_id]. *)
Definition truthy_id (wine_id : option Z) : bool :=
  match wine_id with Some i => negb (i =? 0) | None => false end.

(** [v === undefined] *)
Definition is_undefined (v : jsval) : bool :=
  match v with JUndefined => true | _ => false end.

Inductive override_response : Type :=
  | Status400_required
  | Status400_not_a_number
  | Status400_out_of_range
  | Status404_not_found
  | Status200_wine (updated_row : option ranked)
  | Status500_error.

(** One element of [items] in POST /api/admin/import, after the [map] over
    the parsed file: the key is always a string (the last alternative of the
    [||] chain is a template literal), the two sanitized numbers are always
    finite numbers; a missing or null [name] or [aoc] is [None], and so is a
    price that is absent or not a number. *)
Record import_item : Type := mk_import_item {
  i_external_id : string;
  i_name : option string;
  i_winery : option string;
  i_aoc : option string;
  i_vintage : option Z;
  i_vivino_rating : Q;
  i_rating_count : Q;
  i_price : option Q;
  i_last_source_update : time
}.

Definition item_params (i : import_item) : wine_params :=
  mk_wine_params (Some (i_external_id i)) (i_name i) (i_winery i) (i_aoc i)
    (i_vintage i) (Some (i_vivino_rating i)) (Some (i_rating_count i))
    (i_price i) (Some (i_last_source_update i)).

Inductive import_response : Type :=
  | Status200_upserted (n : nat)
  | Status500_import_failed.

(** POST /api/admin/import, from [items] on. *)
Definition post_admin_import (now : time) (items : list import_item)
    (d : database) : import_response * database :=
  match run_upserts now (map item_params items) d with
  | Some d' => (Status200_upserted (length items), setMeta_last_refresh now d')
  | None => (Status500_import_failed, d)
  end.

(** One element of the array parsed from the seed file: the keys that
    [refreshVivinoData] passes on as they are ([None] is what is bound as
    NULL), and the three it sanitizes. *)
Record seed_row : Type := mk_seed_row {
  s_external_id : option string;
  s_name : option string;
  s_winery : option string;
  s_aoc : option string;
  s_vintage : option Z;
  s_vivino_rating : jsval;
  s_rating_count : jsval;
  s_price : jsval
}.

(** The file at [DATA_SEED]: not there; there, but reading it, parsing it
    or iterating it throws (invalid JSON, not an array); or parsed to the
    rows of an array. *)
Inductive seed_file : Type :=
  | No_file
  | Bad_file
  | Seed_rows (rows : list seed_row).

(** A sanitized number as a bound REAL; [null] is bound as NULL. *)
Definition bind_real (v : jsval) : option Q :=
  match v with
  | JNum (Fin q) => Some q
  | _ => None
  end.

Definition MILLISECONDS_A_DAY : Z := 86400000.

(** [a.diff(b, 'day')] of dayjs, both instants in UTC: whole days, truncated
    toward zero. *)
Definition diff_days (a b : time) : Z := Z.quot (a - b) MILLISECONDS_A_DAY.

Section Routes.

Variable StringToNumber : string -> jsnum.

(** SQLite's [text LIKE pattern]. *)
Variable sql_like : string -> string -> bool.

Local Abbreviation Number := (Js.Number StringToNumber).
Local Abbreviation sanitizeNumber := (Js.sanitizeNumber StringToNumber).

(** The WHERE clause of GET /api/wines as composed for the request. *)
Definition where_clause (rq : wines_query) (r : ranked) : bool :=
  let w := r_wine r in
  (if truthy (param (q_aoc rq))
   then String.eqb (aoc w) (default EmptyString (q_aoc rq)) else true)
  && (if truthy (param (q_q rq))
      then
        let pat := ("%" ++ default EmptyString (q_q rq) ++ "%")%string in
        sql_like (name w) pat
        || match winery w with Some y => sql_like y pat | None => false end
      else true)
  && (if truthy (param (q_minRating rq))
      then sql_ge (r_adjusted_rating r) (Number (param (q_minRating rq)))
      else true)
  && (if truthy (param (q_maxRating rq))
      then sql_le (r_adjusted_rating r) (Number (param (q_maxRating rq)))
      else true).

(** The rows of the statement before LIMIT and OFFSET: the rows of the
    scan, in the order of their rowids, that pass the WHERE clause, then
    sorted. *)
Definition select_ordered (rq : wines_query) (d : database) : list ranked :=
  sort_rows (filter (fun r => where_clause rq r = true) (map (joined d) (wines d))).

(** [const lim = all ? null : Number(limit || (aoc ? 20 : 100))] *)
Definition lim_of (rq : wines_query) : jsval :=
  if truthy (param (q_all rq)) then JNull
  else JNum (Number (js_or (param (q_limit rq))
                       (JNum (Fin (if truthy (param (q_aoc rq)) then 20 else 100))))).

(** [const off = Number(offset || 0)] *)
Definition off_of (rq : wines_query) : jsnum :=
  Number (js_or (param (q_offset rq)) (JNum (Fin 0))).

(** GET /api/wines: the rows sent, or [None] when the statement throws. *)
Definition get_api_wines (rq : wines_query) (d : database) : option (list ranked) :=
  let lim := lim_of rq in
  let off := off_of rq in
  if truthy lim then
    match sql_integer (Number lim), sql_integer off with
    | Some n, Some k => Some (limit_offset n k (select_ordered rq d))
    | _, _ => None
    end
  else Some (select_ordered rq d).

(** POST /api/admin/override, after [basicAuth] has let the request in. *)
Definition post_admin_override (now : time) (body : override_body) (d : database)
  : override_response * database :=
  let wine_id := b_wine_id body in
  let adjustment_pct := b_adjustment_pct body in
  if negb (truthy_id wine_id) || is_undefined adjustment_pct
  then (Status400_required, d)
  else
    match Number adjustment_pct with
    | Fin pct =>
        if Qltb pct (-25) || Qgtb pct 25 then (Status400_out_of_range, d)
        else
          match getWineById (default 0 wine_id) d with
          | None => (Status404_not_found, d)
          | Some _ =>
              match upsertOverride now (default 0 wine_id) pct d with
              | Some d' =>
                  (Status200_wine
                     (option_map (joined d') (getWineById (default 0 wine_id) d')), d')
              | None => (Status500_error, d)
              end
          end
    | _ => (Status400_not_a_number, d)
    end.

(** The object that [refreshVivinoData] binds for one seed row. *)
Definition seed_params (now : time) (w : seed_row) : wine_params :=
  mk_wine_params (s_external_id w) (s_name w) (s_winery w) (s_aoc w) (s_vintage w)
    (bind_real (sanitizeNumber (s_vivino_rating w) (JNum (Fin 0))))
    (bind_real (sanitizeNumber (s_rating_count w) (JNum (Fin 0))))
    (bind_real (sanitizeNumber (s_price w) JNull))
    (Some now).

(** [function refreshVivinoData()]: every exception is caught and logged. *)
Definition refreshVivinoData (now : time) (file : seed_file) (d : database)
  : database :=
  match file with
  | Seed_rows arr =>
      match run_upserts now (map (seed_params now) arr) d with
      | Some d' => setMeta_last_refresh now d'
      | None => d
      end
  | Bad_file => d
  | No_file => d
  end.

(** [daysSince] of the daily check. *)
Definition daysSince (now : time) (d : database) : Z :=
  match getMeta_last_refresh d with
  | Some last => diff_days now last
  | None => 9999
  end.

(** The callback of [cron.schedule]. *)
Definition refresh_check (now : time) (file : seed_file) (d : database)
  : database :=
  if 75 <=? daysSince now d then refreshVivinoData now file d else d.

End Routes.

(** ** The rest of the server *)

(** [s.split(sep)] for a separator of one character. *)
Fixpoint js_split (sep : Ascii.ascii) (s : string) : list string :=
  match s with
  | EmptyString => [EmptyString]
  | String c s' =>
      if Ascii.eqb c sep then EmptyString :: js_split sep s'
      else
        match js_split sep s' with
        | x :: xs => String c x :: xs
        | [] => [String c EmptyString]
        end
  end.

(** What [basicAuth] does with the request: [next()], or one of the two
    answers. *)
Inductive auth_outcome : Type :=
  | Auth_next
  | Auth_401_authentication_required
  | Auth_403_forbidden.

Section BasicAuth.

(** [Buffer.from(token, 'base64').toString('utf8')] *)
Variable base64_decode : string -> string.

Variables ADMIN_USER ADMIN_PASSWORD : string.

(** [function basicAuth(req, res, next)], from the value of the
    [authorization] header. *)
Definition basicAuth (authorization : option string) : auth_outcome :=
  let header :=
    match authorization with
    | Some h => if String.eqb h EmptyString then EmptyString else h
    | None => EmptyString
    end in
  let parts := js_split " "%char header in
  let type := parts !! 0%nat in
  let token := parts !! 1%nat in
  if negb (bool_decide (type = Some "Basic"%string))
     || negb (truthy (param token))
  then Auth_401_authentication_required
  else
    let credentials := js_split ":"%char (base64_decode (default EmptyString token)) in
    let user := credentials !! 0%nat in
    let pass := credentials !! 1%nat in
    if bool_decide (user = Some ADMIN_USER) && bool_decide (pass = Some ADMIN_PASSWORD)
    then Auth_next
    else Auth_403_forbidden.

End BasicAuth.

(** The file at [DATA_SEED] as [ensureSeed] uses it: not there; there, but
    reading, parsing or binding it throws; or parsed to the objects that it
    binds to [upsertWine] as they are. *)
Inductive startup_file : Type :=
  | Startup_no_file
  | Startup_throws
  | Startup_rows (arr : list wine_params).

(** The inline [demo] array. *)
Definition demo (now : time) : list wine_params :=
  [ mk_wine_params (Some "demo-1") (Some "Château Demo 1") (Some "Demo Estate")
      (Some "Saint-Estèphe") (Some 2018) (Some (42 # 10)) (Some 1200%Q)
      (Some 35%Q) (Some now);
    mk_wine_params (Some "demo-2") (Some "Château Demo 2") (Some "Demo Estate")
      (Some "Pauillac") (Some 2019) (Some (45 # 10)) (Some 980%Q)
      (Some 75%Q) (Some now);
    mk_wine_params (Some "demo-3") (Some "Château Demo 3") (Some "Demo Estate")
      (Some "Margaux") (Some 2020) (Some 4%Q) (Some 450%Q)
      (Some 52%Q) (Some now);
    mk_wine_params (Some "demo-4") (Some "Château Demo 4") (Some "Demo Estate")
      (Some "Saint-Julien") (Some 2016) (Some (43 # 10)) (Some 2100%Q)
      (Some 60%Q) (Some now);
    mk_wine_params (Some "demo-5") (Some "Château Demo 5") (Some "Demo Estate")
      (Some "Pessac-Léognan") (Some 2017) (Some (41 # 10)) (Some 800%Q)
      (Some 40%Q) (Some now) ]%string.

(** [function ensureSeed()]: every exception is caught and logged. *)
Definition ensureSeed (now : time) (file : startup_file) (d : database)
  : database :=
  let count := Z.of_nat (length (wines d)) in
  if 0 <? count then d
  else
    match file with
    | Startup_rows arr =>
        match run_upserts now arr d with
        | Some d' => setMeta_last_refresh now d'
        | None => d
        end
    | Startup_throws => d
    | Startup_no_file =>
        match run_upserts now (demo now) d with
        | Some d' => setMeta_last_refresh now d'
        | None => d
        end
    end.

(** GET /api/meta: [last_refresh] and [next_refresh_due], 75 days later
    (instants in UTC, as for [diff_days]). *)
Definition get_api_meta (d : database) : option time * option time :=
  let last := getMeta_last_refresh d in
  (last, option_map (fun l => l + 75 * MILLISECONDS_A_DAY) last).

(** POST /api/admin/refresh, after [basicAuth]: the answer is always
    [{ ok: true }]. *)
Definition post_admin_refresh (StringToNumber : string -> jsnum) (now : time)
    (file : seed_file) (d : database) : bool * database :=
  (true, refreshVivinoData StringToNumber now file d).

(** One record of the parsed CSV, in the three columns that make the key:
    a value is a string, or [None] when the file has no such column. *)
Record csv_key_columns : Type := mk_csv_key_columns {
  c_external_id : option string;
  c_id : option string;
  c_name : option string;
  c_vintage : option string;
  c_aoc : option string
}.

(** A value inside a template literal: a missing one prints as
    [undefined]. *)
Definition template_value (o : option string) : string :=
  match o with Some s => s | None => "undefined"%string end.

(** [r.external_id || r.id || `${r.name}|${r.vintage}|${r.aoc}`] in the CSV
    branch of the import. *)
Definition csv_external_id (r : csv_key_columns) : string :=
  if truthy (param (c_external_id r)) then default EmptyString (c_external_id r)
  else if truthy (param (c_id r)) then default EmptyString (c_id r)
  else (template_value (c_name r) ++ "|" ++ template_value (c_vintage r) ++ "|"
        ++ template_value (c_aoc r))%string.

(** ** Notions used to state the properties *)

(** The keys in use in the UNIQUE column. *)
Definition keys (ws : list wine) : list string := omap external_id ws.

(** The UNIQUE constraint on [external_id]. *)
Definition unique_keys (d : database) : Prop := NoDup (keys (wines d)).

Definition has_key (k : option string) (ws : list wine) : bool :=
  existsb (conflicts k) ws.

(** A row without its two stamps [last_source_update] and [updated_at]. *)
Definition strip (w : wine) : wine :=
  mk_wine (id w) (external_id w) (name w) (winery w) (aoc w) (vintage w)
    (vivino_rating w) (rating_count w) (price w) None (created_at w) 0.

(** An import item without its stamp. *)
Definition strip_item (i : import_item) : import_item :=
  mk_import_item (i_external_id i) (i_name i) (i_winery i) (i_aoc i) (i_vintage i)
    (i_vivino_rating i) (i_rating_count i) (i_price i) 0.

(** The same file imported again: the same items, stamped anew. *)
Definition same_batch (items items' : list import_item) : Prop :=
  map strip_item items = map strip_item items'.

Definition strip_values (v : wine_values) : wine_values :=
  mk_wine_values (v_external_id v) (v_name v) (v_winery v) (v_aoc v) (v_vintage v)
    (v_vivino_rating v) (v_rating_count v) (v_price v) None.

(** What one execution of the statement does to an existing row. *)
Definition touch (now : time) (v : wine_values) (w : wine) : wine :=
  if conflicts (v_external_id v) w then updated now v w else w.

(** The statements of a transaction, on the rows. *)
Definition fold_rows (now : time) (vs : list wine_values) (ws : list wine)
  : list wine :=
  fold_left (fun ws v => upsert_rows now v (next_id ws) ws) vs ws.

(** The last values in the batch bound for key [k]. *)
Fixpoint last_match (vs : list wine_values) (k : option string)
  : option wine_values :=
  match vs with
  | [] => None
  | v :: vs' =>
      match last_match vs' k with
      | Some u => Some u
      | None => if opt_string_eqb k (v_external_id v) then Some v else None
      end
  end.

(** A row after a batch whose keys are all in the table. *)
Definition refreshed (now : time) (vs : list wine_values) (w : wine) : wine :=
  match last_match vs (external_id w) with
  | Some u => updated now u w
  | None => w
  end.

(** The row keeps its identity: rowid, key and creation stamp. *)
Definition same_identity (w w' : wine) : Prop :=
  id w' = id w /\ external_id w' = external_id w /\ created_at w' = created_at w.

(** Every row of [ws] is still in [ws'], at its place, with its identity. *)
Definition rows_kept (ws ws' : list wine) : Prop :=
  exists kept added, ws' = kept ++ added /\ Forall2 same_identity ws kept.

(** The values of a whole batch, when every row passes the NOT NULL
    check. *)
Fixpoint all_values (ps : list wine_params) : option (list wine_values) :=
  match ps with
  | [] => Some []
  | p :: ps' =>
      match check_not_null p, all_values ps' with
      | Some v, Some vs => Some (v :: vs)
      | _, _ => None
      end
  end.

(** What ingestion must leave alone: the table of overrides as a whole,
    and for every wine its rowid, key and creation stamp, hence the
    adjustment joined to it. *)
Definition overrides_kept (d d' : database) : Prop :=
  admin_overrides d' = admin_overrides d
  /\ forall j w, wines d !! j = Some w ->
       exists w', wines d' !! j = Some w'
                  /\ same_identity w w'
                  /\ admin_overrides d' !! id w' = admin_overrides d !! id w
                  /\ joined_pct d' w' = joined_pct d w.

(** *** The ordering contract in the spec's words *)

(** More reviews; a row without a count is below every count. *)
Definition more_reviews (a b : option Q) : Prop :=
  match a, b with
  | Some x, Some y => (y < x)%Q
  | Some _, None => True
  | None, _ => False
  end.

Definition equal_reviews (a b : option Q) : Prop :=
  match a, b with
  | Some x, Some y => x == y
  | None, None => True
  | _, _ => False
  end.

(** Price ascending, a row without a price after every priced one. *)
Definition price_no_later (a b : option Q) : Prop :=
  match a, b with
  | Some x, Some y => (x <= y)%Q
  | _, None => True
  | None, Some _ => False
  end.

(** A score strictly below another: the infinities at the two ends, a
    score that is no number below every number. *)
Definition score_below (x y : jsnum) : Prop :=
  match x, y with
  | Fin a, Fin b => (a < b)%Q
  | Fin _, PInf | NInf, Fin _ | NInf, PInf => True
  | NaN, Fin _ | NaN, PInf | NaN, NInf => True
  | _, _ => False
  end.

Definition score_equal (x y : jsnum) : Prop :=
  match x, y with
  | Fin a, Fin b => a == b
  | NaN, NaN | PInf, PInf | NInf, NInf => True
  | _, _ => False
  end.

(** [a] may stand before [b] in a ranking. *)
Definition ranks_no_later (a b : ranked) : Prop :=
  score_below (r_adjusted_rating b) (r_adjusted_rating a)
  \/ (score_equal (r_adjusted_rating a) (r_adjusted_rating b)
      /\ (more_reviews (rating_count (r_wine a)) (rating_count (r_wine b))
          \/ (equal_reviews (rating_count (r_wine a)) (rating_count (r_wine b))
              /\ price_no_later (price (r_wine a)) (price (r_wine b))))).

(** The same request with another [offset]. *)
Definition with_offset (o : option string) (rq : wines_query) : wines_query :=
  mk_wines_query (q_aoc rq) (q_q rq) (q_minRating rq) (q_maxRating rq)
    (q_limit rq) o (q_all rq).

(** A bound of the request: supplied when the parameter is a non-empty
    string, with the number it converts to. *)
Definition supplied_bound (StringToNumber : string -> jsnum) (o : option string)
  : option jsnum :=
  match o with
  | Some s => if String.eqb s EmptyString then None else Some (StringToNumber s)
  | None => None
  end.

(** The same request without its two score bounds. *)
Definition without_bounds (rq : wines_query) : wines_query :=
  mk_wines_query (q_aoc rq) (q_q rq) None None (q_limit rq) (q_offset rq) (q_all rq).

(** [x] is a number, and at least the lower bound, when one is
    supplied. *)
Definition at_least (x : jsnum) (bound : option jsnum) : Prop :=
  match bound with
  | None => True
  | Some lo =>
      x <> NaN /\ lo <> NaN /\ (score_below lo x \/ score_equal lo x)
  end.

(** [x] is a number, and at most the upper bound, when one is supplied. *)
Definition at_most (x : jsnum) (bound : option jsnum) : Prop :=
  match bound with
  | None => True
  | Some hi =>
      x <> NaN /\ hi <> NaN /\ (score_below x hi \/ score_equal x hi)
  end.

(** Strictly ascending in the BINARY collation. *)
Definition string_lt (a b : string) : Prop := String.compare a b = Lt.

(** The number of wines of appellation [a]. *)
Definition wines_of (a : string) (ws : list wine) : Z :=
  Z.of_nat (length (filter (fun w => aoc w = a) ws)).

(** The count held by the groups for appellation [a], 0 when it has no
    group. *)
Fixpoint group_count (a : string) (g : list (string * Z)) : Z :=
  match g with
  | [] => 0
  | (b, n) :: g' => if String.eqb a b then n else group_count a g'
  end.

(** The groups are in strictly ascending order of the name, with positive
    counts. *)
Definition groups_ok (g : list (string * Z)) : Prop :=
  StronglySorted (fun y z => string_lt y.1 z.1) g /\ Forall (fun y => 0 < y.2) g.

(** ** Sample data *)

Module Sample.

Local Open Scope string_scope.

(** The double nearest to 4.2. *)
Definition double_4_2 : Q := 4728779608739021 # 1125899906842624.

(** A StringToNumber that reads the decimal literals of the samples. *)
Definition StringToNumber (s : string) : jsnum :=
  if String.eqb s "0" then Fin 0
  else if String.eqb s "5" then Fin 5
  else if String.eqb s "3.5" then Fin (7 # 2)
  else if String.eqb s "4.2" then Fin double_4_2
  else if String.eqb s "4.5" then Fin (9 # 2)
  else NaN.

(** A LIKE for requests without [q]. *)
Definition sql_like (text pattern : string) : bool := false.

Definition item (key nm appellation : string) (rating reviews : Q)
    (cost : option Q) (stamp : time) : import_item :=
  mk_import_item key (Some nm) None (Some appellation) None rating reviews cost stamp.

(** The scenario of the spec: one wine of Pauillac, rated 4.0. *)
Definition w1 : import_item := item "x1" "W1" "Pauillac" 4 0 None 1000.

(** The same wine in a later file: renamed, rated 4.2. *)
Definition w1_renamed : import_item :=
  item "x1" "W1-renamed" "Pauillac" (42 # 10) 0 None 3000.

(** Two wines with the same rating and reviews, the first without price. *)
Definition tie_a : import_item := item "a" "A" "Margaux" (45 # 10) 10 None 1000.
Definition tie_b : import_item := item "b" "B" "Margaux" (45 # 10) 10 (Some 20%Q) 1000.

(** An item of a later reading of the same file. *)
Definition restamped (stamp : time) (i : import_item) : import_item :=
  mk_import_item (i_external_id i) (i_name i) (i_winery i) (i_aoc i) (i_vintage i)
    (i_vivino_rating i) (i_rating_count i) (i_price i) stamp.

(** A row of the seed file. *)
Definition seed_w1 : seed_row :=
  mk_seed_row (Some "x1") (Some "W1") None (Some "Pauillac") None
    (JNum (Fin 4)) JUndefined JUndefined.

Definition after_w1 : database := (post_admin_import 1000 [w1] empty_db).2.

Definition after_override : database :=
  (post_admin_override StringToNumber 2000
     (mk_override_body (Some 1) (JNum (Fin 10))) after_w1).2.

Definition after_rename : database :=
  (post_admin_import 3000 [w1_renamed] after_override).2.

Definition ties : database := (post_admin_import 1000 [tie_a; tie_b] empty_db).2.

(** Twenty-five wines of Margaux and one of Pauillac. *)
Definition cellar_items : list import_item :=
  map (fun n =>
         item (String (Ascii.ascii_of_nat (65 + n)) EmptyString) "M" "Margaux"
           (inject_Z (Z.of_nat n) / 10) 0 None 1000)
    (seq 0 25)
  ++ [w1].

Definition cellar : database := (post_admin_import 1000 cellar_items empty_db).2.

Definition no_params : wines_query :=
  mk_wines_query None None None None None None None.

Definition margaux : wines_query :=
  mk_wines_query (Some "Margaux") None None None None None None.

Definition margaux_limit_0 : wines_query :=
  mk_wines_query (Some "Margaux") None None None (Some "0") (Some "5") None.

Definition pauillac_min_4_2 : wines_query :=
  mk_wines_query (Some "Pauillac") None (Some "4.2") None None None None.

(** Two wines of Graves: one rated 3.5, and one rated 3.125 with fewer
    reviews. *)
Definition close_a : import_item := item "g1" "G1" "Graves" (7 # 2) 100 None 1000.
Definition close_b : import_item := item "g2" "G2" "Graves" (25 # 8) 10 None 1000.

Definition graves : database :=
  (post_admin_import 1000 [close_a; close_b] empty_db).2.

(** An adjustment of 12 on the second: the product of 3.125 and 1.12 is
    rounded to the double next above 3.5. *)
Definition close_call : database :=
  (post_admin_override StringToNumber 2000
     (mk_override_body (Some 2) (JNum (Fin 12))) graves).2.

Definition graves_max_3_5 : wines_query :=
  mk_wines_query (Some "Graves") None None (Some "3.5") None None None.

End Sample.

(** ** Notions used to state the further properties *)

(** The values that a row holds in the columns of the statement. *)
Definition row_values (w : wine) : wine_values :=
  mk_wine_values (external_id w) (name w) (winery w) (aoc w) (vintage w)
    (vivino_rating w) (rating_count w) (price w) (last_source_update w).

(** The PRIMARY KEY constraint on [id]. *)
Definition unique_ids (d : database) : Prop := NoDup (map id (wines d)).

(** What the routes keep true of [admin_overrides]: every adjustment is
    within [-25, 25] and belongs to a wine of the table. *)
Definition overrides_valid (d : database) : Prop :=
  forall i o, admin_overrides d !! i = Some o ->
    (-25 <= adjustment_pct o <= 25)%Q /\ exists w, w ∈ wines d /\ id w = i.

(** [parts.join(sep)] *)
Fixpoint js_join (sep : Ascii.ascii) (parts : list string) : string :=
  match parts with
  | [] => EmptyString
  | [x] => x
  | x :: rest => (x ++ String sep (js_join sep rest))%string
  end.

(** The character does not occur in the string. *)
Fixpoint free_of (sep : Ascii.ascii) (s : string) : bool :=
  match s with
  | EmptyString => true
  | String c s' => negb (Ascii.eqb c sep) && free_of sep s'
  end.

(** The same request with another [limit] and [offset]. *)
Definition with_window (l o : option string) (rq : wines_query) : wines_query :=
  mk_wines_query (q_aoc rq) (q_q rq) (q_minRating rq) (q_maxRating rq) l o (q_all rq).

(** ** Further sample data *)

Module MoreSamples.

Local Open Scope string_scope.

(** A seed row without key. *)
Definition seed_unkeyed : seed_row :=
  mk_seed_row None (Some "W0") None (Some "Pauillac") None
    (JNum (Fin 4)) JUndefined JNull.

(** The table after W1 was renamed by one more execution of the
    statement. *)
Definition renamed_by_upsert : database :=
  default empty_db (upsertWine 3000 (item_params Sample.w1_renamed) Sample.after_override).

(** The table after the two tied wines were added to W1 in one
    transaction. *)
Definition with_ties : database :=
  default empty_db
    (run_upserts 1000 (map item_params [Sample.tie_a; Sample.tie_b]) Sample.after_w1).

(** The default window on the wines of Margaux in the cellar. *)
Definition margaux_window : list ranked :=
  default [] (get_api_wines Sample.StringToNumber Sample.sql_like Sample.margaux
                Sample.cellar).

End MoreSamples.

(** * Properties *)

(** ** Double arithmetic *)

Section Doubles.

Lemma Qcompare_cases (x y : Q) :
  ((x ?= y)%Q = Lt /\ (x < y)%Q) \/ ((x ?= y)%Q = Eq /\ x == y)
  \/ ((x ?= y)%Q = Gt /\ (y < x)%Q).
Proof.
  destruct (x ?= y)%Q eqn:E.
  - right; left. split; [reflexivity|]. now apply Qeq_alt.
  - left. split; [reflexivity|]. now apply Qlt_alt.
  - right; right. split; [reflexivity|]. now apply Qgt_alt.
Qed.

(** The rounded integer is within one half of the rational, and is even
    when it is one half away. *)
Lemma round_half_even_spec (x : Q) :
  let m := inject_Z (round_half_even x) in
  (m - (1 # 2) < x < m + (1 # 2))%Q
  \/ (x == m - (1 # 2) /\ Z.even (round_half_even x) = true)
  \/ (x == m + (1 # 2) /\ Z.even (round_half_even x) = true).
Proof.
  unfold round_half_even.
  pose proof (Qfloor_le x) as Hlo. pose proof (Qlt_floor x) as Hhi.
  rewrite inject_Z_plus in Hhi. change (inject_Z 1) with 1%Q in Hhi.
  destruct (Qcompare_cases (x - inject_Z (Qfloor x)) (1 # 2)) as [[-> H]|[[-> H]|[-> H]]];
    cbv zeta.
  - left. lra.
  - destruct (Z.even (Qfloor x)) eqn:E.
    + right; right. split; [lra|exact E].
    + right; left. rewrite inject_Z_plus. change (inject_Z 1) with 1%Q.
      split; [lra|]. rewrite Z.even_add, E. reflexivity.
  - left. rewrite inject_Z_plus. change (inject_Z 1) with 1%Q. lra.
Qed.

(** Rounding to an integer is monotone. *)
Lemma round_half_even_mono (x y : Q) :
  (x <= y)%Q -> round_half_even x <= round_half_even y.
Proof.
  intros H.
  destruct (Z_le_gt_dec (round_half_even x) (round_half_even y)) as [L|G]; [exact L|].
  exfalso.
  assert (G' : (inject_Z (round_half_even y) + 1 <= inject_Z (round_half_even x))%Q).
  { change 1%Q with (inject_Z 1). rewrite <- inject_Z_plus. rewrite <- Zle_Qle. lia. }
  pose proof (round_half_even_spec x) as Sx. pose proof (round_half_even_spec y) as Sy.
  cbv zeta in Sx, Sy.
  assert (E : round_half_even x = round_half_even y + 1).
  { assert (inject_Z (round_half_even x) <= inject_Z (round_half_even y) + 1)%Q as L
      by (destruct Sx as [?|[[? _]|[? _]]], Sy as [?|[[? _]|[? _]]]; lra).
    change 1%Q with (inject_Z 1) in L. rewrite <- inject_Z_plus, <- Zle_Qle in L. lia. }
  destruct Sx as [?|[[? Ex]|[? Ex]]], Sy as [?|[[? Ey]|[? Ey]]]; try lra.
  rewrite E, Z.even_add, Ey in Ex. discriminate.
Qed.

Lemma round_half_even_Z (k : Z) : round_half_even (inject_Z k) = k.
Proof.
  unfold round_half_even. rewrite Qfloor_Z.
  assert ((inject_Z k - inject_Z k ?= 1 # 2)%Q = Lt) as ->; [|reflexivity].
  apply Qlt_alt. generalize (inject_Z k). intros q.
  assert (q - q == 0) as -> by ring. reflexivity.
Qed.

Lemma pow2_pos (k : Z) : (0 < 2 ^ k)%Q.
Proof. apply Qpower_0_lt. reflexivity. Qed.

Lemma pow2_add (j k : Z) : (2 ^ (j + k) == 2 ^ j * 2 ^ k)%Q.
Proof. apply Qpower_plus. discriminate. Qed.

Lemma pow2_succ (k : Z) : (2 ^ (k + 1) == 2 * 2 ^ k)%Q.
Proof. rewrite pow2_add. change (2 ^ 1)%Q with 2%Q. ring. Qed.

Lemma pow2_le (j k : Z) : j <= k -> (2 ^ j <= 2 ^ k)%Q.
Proof. intros H. apply Qpower_le_compat_l; [exact H|discriminate]. Qed.

Lemma pow2_inject (k : Z) : 0 <= k -> (inject_Z (2 ^ k) == 2 ^ k)%Q.
Proof. intros H. apply (Zpower_Qpower 2 k H). Qed.

(** [floor_log2 a] is the exponent of the binade of [a]. *)
Lemma floor_log2_spec (a : Q) :
  (0 < a)%Q -> (2 ^ floor_log2 a <= a < 2 ^ (floor_log2 a + 1))%Q.
Proof.
  intros Ha. unfold floor_log2.
  destruct (Qle_bool 1 a) eqn:E.
  - apply Qle_bool_iff in E.
    pose proof (Qfloor_le a) as Hlo. pose proof (Qlt_floor a) as Hhi.
    assert (F : 1 <= Qfloor a).
    { change 1 with (Qfloor (inject_Z 1)). apply Qfloor_resp_le. exact E. }
    pose proof (Z.log2_spec (Qfloor a) ltac:(lia)) as [L U].
    pose proof (Z.log2_nonneg (Qfloor a)) as N.
    rewrite Zle_Qle, pow2_inject in L by lia.
    assert (U' : Qfloor a + 1 <= 2 ^ Z.succ (Z.log2 (Qfloor a))) by lia.
    rewrite Zle_Qle, pow2_inject in U' by lia.
    unfold Z.succ in U'. split; lra.
  - assert (E' : (a < 1)%Q).
    { apply Qnot_le_lt. intros H. apply Qle_bool_iff in H. congruence. }
    set (b := (/ a)%Q).
    assert (Hb : (1 < b)%Q).
    { unfold b. apply Qlt_shift_inv_l; [exact Ha|lra]. }
    assert (Hab : (a * b == 1)%Q) by (unfold b; field; lra).
    pose proof (Qle_ceiling b) as Hc. pose proof (Qceiling_lt b) as Hc'.
    set (c := Qceiling b) in *.
    assert (C : 1 < c).
    { rewrite Zlt_Qlt. change (inject_Z 1) with 1%Q. lra. }
    pose proof (Z.log2_up_spec c C) as [L U].
    pose proof (Z.log2_up_pos c C) as P.
    set (k := Z.log2_up c) in *.
    assert (L' : 2 ^ Z.pred k <= c - 1) by lia.
    rewrite Zle_Qle, pow2_inject in L', U by lia.
    assert (Hk : (2 ^ k == 2 * 2 ^ Z.pred k)%Q).
    { rewrite <- pow2_succ. unfold Z.pred. f_equiv. lia. }
    pose proof (pow2_pos k) as Pk. pose proof (pow2_pos (Z.pred k)) as Pk'.
    assert (I1 : (2 ^ (- k) * 2 ^ k == 1)%Q).
    { rewrite <- pow2_add. assert (- k + k = 0) as -> by lia. reflexivity. }
    assert (I2 : (2 ^ (- k + 1) * 2 ^ Z.pred k == 1)%Q).
    { rewrite <- pow2_add. assert (- k + 1 + Z.pred k = 0) as -> by lia. reflexivity. }
    pose proof (pow2_pos (- k)) as Q1. pose proof (pow2_pos (- k + 1)) as Q2.
    split.
    + (* 2^-k <= a : since b <= 2^k *)
      assert (b <= 2 ^ k)%Q by lra. nra.
    + assert (2 ^ Z.pred k < b)%Q by lra. nra.
Qed.

Lemma floor_log2_mono (a b : Q) :
  (0 < a)%Q -> (a <= b)%Q -> floor_log2 a <= floor_log2 b.
Proof.
  intros Ha Hab.
  destruct (floor_log2_spec a Ha) as [La _].
  destruct (floor_log2_spec b ltac:(lra)) as [_ Ub].
  assert (H : (2 ^ floor_log2 a < 2 ^ (floor_log2 b + 1))%Q) by lra.
  apply Qpower_lt_compat_l_inv in H; [lia|reflexivity].
Qed.

(** In units of its spacing a positive rational is below [2 ^ 53], and
    from [2 ^ 52] on unless it is subnormal. *)
Lemma scaled_lt (a : Q) :
  (0 < a)%Q -> (a * 2 ^ (52 - exponent a) < inject_Z (2 ^ 53))%Q.
Proof.
  intros Ha. destruct (floor_log2_spec a Ha) as [_ U].
  assert (L : (2 ^ (floor_log2 a + 1) <= 2 ^ (exponent a + 1))%Q).
  { apply pow2_le. unfold exponent. lia. }
  rewrite pow2_inject by lia.
  assert (E : (2 ^ 53 == 2 ^ (exponent a + 1) * 2 ^ (52 - exponent a))%Q).
  { rewrite <- pow2_add. f_equiv. lia. }
  rewrite E. pose proof (pow2_pos (52 - exponent a)). nra.
Qed.

Lemma scaled_ge (a : Q) :
  (0 < a)%Q -> -1022 <= floor_log2 a ->
  (inject_Z (2 ^ 52) <= a * 2 ^ (52 - exponent a))%Q.
Proof.
  intros Ha Hn. destruct (floor_log2_spec a Ha) as [L _].
  assert (Ee : exponent a = floor_log2 a) by (unfold exponent; lia).
  rewrite pow2_inject by lia.
  assert (E : (2 ^ 52 == 2 ^ (floor_log2 a) * 2 ^ (52 - exponent a))%Q).
  { rewrite <- pow2_add. f_equiv. lia. }
  rewrite E. pose proof (pow2_pos (52 - exponent a)). nra.
Qed.

Lemma significand_le (a : Q) : (0 < a)%Q -> significand a <= 2 ^ 53.
Proof.
  intros Ha. rewrite <- (round_half_even_Z (2 ^ 53)).
  apply round_half_even_mono. apply Qlt_le_weak. now apply scaled_lt.
Qed.

Lemma significand_ge (a : Q) :
  (0 < a)%Q -> -1022 <= floor_log2 a -> 2 ^ 52 <= significand a.
Proof.
  intros Ha Hn. rewrite <- (round_half_even_Z (2 ^ 52)).
  apply round_half_even_mono. now apply scaled_ge.
Qed.

Lemma significand_nonneg (a : Q) : (0 < a)%Q -> 0 <= significand a.
Proof.
  intros Ha. rewrite <- (round_half_even_Z 0).
  apply round_half_even_mono. change (inject_Z 0) with 0%Q.
  pose proof (pow2_pos (52 - exponent a)). nra.
Qed.

(** Rounding is monotone on the positive rationals: within a binade by the
    significands, and across binades because a significand is between
    [2 ^ 52] and [2 ^ 53]. *)
Lemma round_pos_mono (a b : Q) :
  (0 < a)%Q -> (a <= b)%Q -> double_le (round_pos a) (round_pos b).
Proof.
  intros Ha Hab. assert (Hb : (0 < b)%Q) by lra.
  pose proof (floor_log2_mono a b Ha Hab) as He.
  assert (Hx : exponent a <= exponent b) by (unfold exponent; lia).
  pose proof (significand_le a Ha) as Ma. pose proof (significand_le b Hb) as Mb.
  pose proof (significand_nonneg a Ha) as Na.
  unfold round_pos.
  destruct (Z.eq_dec (exponent a) (exponent b)) as [E|E].
  - assert (M : significand a <= significand b).
    { unfold significand. apply round_half_even_mono. rewrite E.
      pose proof (pow2_pos (52 - exponent b)). nra. }
    destruct (1023 <? exponent a) eqn:O1; cbn [orb].
    { rewrite <- E, O1. exact I. }
    rewrite <- E, O1. cbn [orb].
    destruct (exponent a =? 1023) eqn:O2; cbn [andb].
    + destruct (significand a =? 2 ^ 53) eqn:O3.
      * assert ((significand b =? 2 ^ 53) = true) as -> by lia. exact I.
      * destruct (significand b =? 2 ^ 53); [exact I|].
        cbn [double_le]. apply Qred_le.
        pose proof (pow2_pos (exponent a - 52)).
        assert (inject_Z (significand a) <= inject_Z (significand b))%Q
          by (rewrite <- Zle_Qle; exact M).
        nra.
    + cbn [double_le]. apply Qred_le.
      pose proof (pow2_pos (exponent a - 52)).
      assert (inject_Z (significand a) <= inject_Z (significand b))%Q
        by (rewrite <- Zle_Qle; exact M).
      nra.
  - assert (Hlt : exponent a < exponent b) by lia.
    assert (Hn : -1022 <= floor_log2 b) by (unfold exponent in *; lia).
    pose proof (significand_ge b Hb Hn) as Gb.
    destruct ((1023 <? exponent b) || ((exponent b =? 1023) && (significand b =? 2 ^ 53))) eqn:Ob.
    + destruct ((1023 <? exponent a) || _); exact I.
    + assert ((1023 <? exponent a) || (exponent a =? 1023) && (significand a =? 2 ^ 53) = false)
        as -> by lia.
      cbn [double_le]. apply Qred_le.
      assert (A : (inject_Z (significand a) <= 2 ^ 53)%Q).
      { rewrite <- pow2_inject by lia. rewrite <- Zle_Qle. exact Ma. }
      assert (B : (2 ^ 52 <= inject_Z (significand b))%Q).
      { rewrite <- pow2_inject by lia. rewrite <- Zle_Qle. exact Gb. }
      assert (S1 : (2 ^ 53 * 2 ^ (exponent a - 52) == 2 ^ (exponent a + 1))%Q).
      { rewrite <- pow2_add. f_equiv. lia. }
      assert (S2 : (2 ^ 52 * 2 ^ (exponent b - 52) == 2 ^ exponent b)%Q).
      { rewrite <- pow2_add. f_equiv. lia. }
      pose proof (pow2_le (exponent a + 1) (exponent b) ltac:(lia)) as S3.
      pose proof (pow2_pos (exponent a - 52)). pose proof (pow2_pos (exponent b - 52)).
      apply Qle_trans with (2 ^ 53 * 2 ^ (exponent a - 52))%Q; [nra|].
      apply Qle_trans with (2 ^ 52 * 2 ^ (exponent b - 52))%Q; [lra|nra].
Qed.

Lemma round_pos_nonneg (a : Q) : (0 < a)%Q -> double_le (Fin 0) (round_pos a).
Proof.
  intros Ha. unfold round_pos.
  destruct ((1023 <? exponent a) || _); [exact I|].
  cbn [double_le]. rewrite Qred_correct.
  pose proof (significand_nonneg a Ha) as N. rewrite Zle_Qle in N.
  change (inject_Z 0) with 0%Q in N.
  pose proof (pow2_pos (exponent a - 52)). nra.
Qed.

Lemma double_le_neg (x y : jsnum) :
  double_le x y -> double_le (js_neg y) (js_neg x).
Proof. destruct x, y; cbn; try tauto. lra. Qed.

Lemma double_le_trans (x y z : jsnum) :
  double_le x y -> double_le y z -> double_le x z.
Proof. destruct x, y, z; cbn; try tauto. lra. Qed.

Lemma Qnum_sign (q : Q) :
  match Qnum q with
  | Z0 => q == 0
  | Zpos _ => (0 < q)%Q
  | Zneg _ => (q < 0)%Q
  end.
Proof. destruct q as [[|n|n] d]; cbn; unfold Qeq, Qlt; cbn; lia. Qed.

(** Rounding is monotone. *)
Lemma round64_mono (x y : Q) : (x <= y)%Q -> double_le (round64 x) (round64 y).
Proof.
  intros H. apply Qred_le in H. unfold round64.
  pose proof (Qnum_sign (Qred x)) as Sx. pose proof (Qnum_sign (Qred y)) as Sy.
  destruct (Qnum (Qred x)), (Qnum (Qred y)); cbv zeta; try (exfalso; lra).
  - cbn. lra.
  - now apply round_pos_nonneg.
  - now apply round_pos_mono.
  - change (Fin 0) with (js_neg (Fin 0)). apply double_le_neg.
    apply round_pos_nonneg. lra.
  - apply double_le_trans with (js_neg (Fin 0)).
    + apply double_le_neg. apply round_pos_nonneg. lra.
    + now apply round_pos_nonneg.
  - apply double_le_neg. apply round_pos_mono; lra.
Qed.

Lemma round_half_even_Qeq (x y : Q) : x == y -> round_half_even x = round_half_even y.
Proof.
  intros H. unfold round_half_even. rewrite (Qfloor_comp x y H).
  assert ((x - inject_Z (Qfloor y) ?= 1 # 2)%Q = (y - inject_Z (Qfloor y) ?= 1 # 2)%Q) as ->
    by (now rewrite H).
  reflexivity.
Qed.

Lemma floor_log2_unique (a : Q) (e : Z) :
  (2 ^ e <= a < 2 ^ (e + 1))%Q -> floor_log2 a = e.
Proof.
  intros [L U]. pose proof (pow2_pos e) as P.
  destruct (floor_log2_spec a ltac:(lra)) as [L' U'].
  assert (H1 : (2 ^ e < 2 ^ (floor_log2 a + 1))%Q) by lra.
  assert (H2 : (2 ^ floor_log2 a < 2 ^ (e + 1))%Q) by lra.
  apply Qpower_lt_compat_l_inv in H1; [|reflexivity].
  apply Qpower_lt_compat_l_inv in H2; [|reflexivity]. lia.
Qed.

Lemma Qred_Qred (q : Q) : Qred (Qred q) = Qred q.
Proof. apply Qred_complete, Qred_correct. Qed.

(** A positive multiple [m * 2 ^ (e - 52)] with [m] and [e] in the range of
    the doubles is rounded to itself. *)
Lemma round_pos_exact (m e : Z) (a : Q) :
  a == inject_Z m * 2 ^ (e - 52) ->
  -1022 <= e <= 1023 -> 0 < m < 2 ^ 53 -> (e = -1022 \/ 2 ^ 52 <= m) ->
  round_pos a = Fin (Qred a).
Proof.
  intros Ha He Hm Hn.
  assert (M0 : (0 < inject_Z m)%Q) by (change 0%Q with (inject_Z 0); rewrite <- Zlt_Qlt; lia).
  assert (M1 : (inject_Z m < 2 ^ 53)%Q).
  { rewrite <- pow2_inject by lia. rewrite <- Zlt_Qlt. lia. }
  pose proof (pow2_pos (e - 52)) as P.
  assert (S1 : (2 ^ 53 * 2 ^ (e - 52) == 2 ^ (e + 1))%Q).
  { rewrite <- pow2_add. f_equiv. lia. }
  assert (S2 : (2 ^ 52 * 2 ^ (e - 52) == 2 ^ e)%Q).
  { rewrite <- pow2_add. f_equiv. lia. }
  assert (Pa : (0 < a)%Q) by (rewrite Ha; nra).
  assert (Ua : (a < 2 ^ (e + 1))%Q) by (rewrite Ha, <- S1; nra).
  assert (Ex : exponent a = e).
  { unfold exponent. destruct Hn as [->|Hn].
    - assert (floor_log2 a <= -1022); [|lia].
      destruct (floor_log2_spec a Pa) as [L _].
      assert (H : (2 ^ floor_log2 a < 2 ^ (-1022 + 1))%Q) by lra.
      apply Qpower_lt_compat_l_inv in H; [lia|reflexivity].
    - rewrite (floor_log2_unique a e); [lia|]. split; [|exact Ua].
      assert (2 ^ 52 <= inject_Z m)%Q.
      { rewrite <- pow2_inject by lia. rewrite <- Zle_Qle. lia. }
      rewrite Ha, <- S2. nra. }
  assert (Sg : significand a = m).
  { unfold significand. rewrite Ex.
    rewrite <- (round_half_even_Z m). apply round_half_even_Qeq.
    rewrite Ha.
    assert (E : (2 ^ (e - 52) * 2 ^ (52 - e) == 1)%Q).
    { rewrite <- pow2_add. assert (e - 52 + (52 - e) = 0) as -> by lia. reflexivity. }
    rewrite <- Qmult_assoc, E. ring. }
  unfold round_pos. rewrite Ex, Sg.
  assert (((1023 <? e) || ((e =? 1023) && (m =? 2 ^ 53))) = false) as -> by lia.
  f_equal. apply Qred_complete. symmetry. exact Ha.
Qed.

Lemma Fin_inj (a b : Q) : Fin a = Fin b -> a = b.
Proof. now intros [= ->]. Qed.

Lemma round_pos_idem (a v : Q) :
  (0 < a)%Q -> round_pos a = Fin v -> v = Qred v /\ (v == 0 \/ ((0 < v)%Q /\ round_pos v = Fin v)).
Proof.
  intros Ha. unfold round_pos.
  destruct ((1023 <? exponent a) || _) eqn:O; [discriminate|].
  intros H. apply Fin_inj in H. subst v. rewrite Qred_Qred. split; [reflexivity|].
  pose proof (significand_nonneg a Ha) as N. pose proof (significand_le a Ha) as U.
  set (m := significand a) in *. set (e := exponent a) in *.
  assert (He : -1022 <= e <= 1023) by (unfold e, exponent in *; lia).
  pose proof (pow2_pos (e - 52)) as P.
  destruct (Z.eq_dec m 0) as [Z|NZ].
  { left. rewrite Qred_correct, Z. ring. }
  right.
  assert (M0 : (0 < inject_Z m)%Q) by (change 0%Q with (inject_Z 0); rewrite <- Zlt_Qlt; lia).
  split; [rewrite Qred_correct; nra|].
  assert (G : forall m' e',
            Qred (inject_Z m * 2 ^ (e - 52)) == inject_Z m' * 2 ^ (e' - 52) ->
            -1022 <= e' <= 1023 -> 0 < m' < 2 ^ 53 -> (e' = -1022 \/ 2 ^ 52 <= m') ->
            round_pos (Qred (inject_Z m * 2 ^ (e - 52)))
            = Fin (Qred (inject_Z m * 2 ^ (e - 52)))).
  { intros m' e' H1 H2 H3 H4. rewrite (round_pos_exact m' e' _ H1 H2 H3 H4).
    by rewrite Qred_Qred. }
  destruct (Z.eq_dec m (2 ^ 53)) as [T|T].
  - apply (G (2 ^ 52) (e + 1)); [|lia|lia|right; lia].
    rewrite Qred_correct, T.
    assert (E : (2 ^ (e + 1 - 52) == 2 * 2 ^ (e - 52))%Q).
    { rewrite <- pow2_succ. f_equiv. lia. }
    assert (K : inject_Z (2 ^ 53) == 2 * inject_Z (2 ^ 52)) by reflexivity.
    rewrite E, K. ring.
  - apply (G m e); [apply Qred_correct|lia|lia|].
    destruct (Z.eq_dec e (-1022)) as [?|Hne]; [now left|right].
    apply significand_ge; [exact Ha|]. unfold e, exponent in *. lia.
Qed.

(** What rounding returns is a double: rounding returns it again. *)
Lemma round64_idem (q v : Q) : round64 q = Fin v -> round64 v = Fin v.
Proof.
  unfold round64 at 1. pose proof (Qnum_sign (Qred q)) as S.
  destruct (Qnum (Qred q)) eqn:E.
  - intros [= <-]. reflexivity.
  - intros H. destruct (round_pos_idem _ _ S H) as [R [Z|[P I]]].
    + rewrite R. rewrite (Qred_complete v 0 Z) in *. reflexivity.
    + unfold round64. rewrite <- R. pose proof (Qnum_sign v) as Sv.
      destruct (Qnum v); [lra|exact I|lra].
  - intros H.
    destruct (round_pos (- Qred q)) as [w| | |] eqn:W; try discriminate.
    cbn [js_neg] in H. injection H as <-.
    assert (S' : (0 < - Qred q)%Q) by lra.
    destruct (round_pos_idem _ _ S' W) as [R [Z|[P I]]].
    + rewrite (Qred_complete w 0 Z) in R. rewrite R. reflexivity.
    + unfold round64. rewrite Qred_opp, <- R.
      pose proof (Qnum_sign (- w)) as Sv.
      destruct (Qnum (- w)); [lra|lra|].
      assert (- - w = w)%Q as ->.
      { destruct w as [n d]. unfold Qopp. cbn. now rewrite Z.opp_involutive. }
      now rewrite I.
Qed.

End Doubles.

(** ** Override policy *)

Section OverridePolicy.

Lemma Qgtb_true x y : Qgtb x y = true <-> (y < x)%Q.
Proof.
  unfold Qgtb. rewrite negb_true_iff, <- not_true_iff_false, Qle_bool_iff.
  split; [apply Qnot_le_lt | apply Qlt_not_le].
Qed.

Lemma Qgtb_false x y : Qgtb x y = false <-> (x <= y)%Q.
Proof. unfold Qgtb. rewrite negb_false_iff. apply Qle_bool_iff. Qed.

Lemma Qltb_true x y : Qltb x y = true <-> (x < y)%Q.
Proof. unfold Qltb. apply Qgtb_true. Qed.

Lemma Qltb_false x y : Qltb x y = false <-> (y <= x)%Q.
Proof. unfold Qltb. apply Qgtb_false. Qed.

Lemma spec_clamp_cases p :
  ((25 < p)%Q /\ spec_clamp p == 25) \/
  ((p < -25)%Q /\ spec_clamp p == -25) \/
  ((-25 <= p <= 25)%Q /\ spec_clamp p == p).
Proof.
  unfold spec_clamp.
  destruct (Qlt_le_dec 25 p) as [H|H].
  - left. split; [exact H|].
    rewrite (Q.min_l 25 p) by (apply Qlt_le_weak; exact H).
    apply Q.max_r. lra.
  - rewrite (Q.min_r 25 p) by exact H.
    destruct (Qlt_le_dec p (-25)) as [H'|H'].
    + right; left. split; [exact H'|]. apply Q.max_l. lra.
    + right; right. split; [lra|]. apply Q.max_r. exact H'.
Qed.

Lemma clamp_case_spec p : clamp_case p == spec_clamp p.
Proof.
  unfold clamp_case.
  destruct (spec_clamp_cases p) as [[H E]|[[H E]|[H E]]]; rewrite E.
  - apply Qgtb_true in H. rewrite H. reflexivity.
  - assert (G : Qgtb p 25 = false) by (apply Qgtb_false; lra).
    apply Qltb_true in H. rewrite G, H. reflexivity.
  - assert (G : Qgtb p 25 = false) by (apply Qgtb_false; lra).
    assert (L : Qltb p (-25) = false) by (apply Qltb_false; lra).
    rewrite G, L. reflexivity.
Qed.

Lemma clamp_case_range p : (-25 <= clamp_case p <= 25)%Q.
Proof.
  rewrite clamp_case_spec.
  destruct (spec_clamp_cases p) as [[H E]|[[H E]|[H E]]]; rewrite E; lra.
Qed.

(** Rounding does not see how a rational is written. *)
Lemma round64_Qeq x y : x == y -> round64 x = round64 y.
Proof. intros H. unfold round64. by rewrite (Qred_complete x y H). Qed.

Lemma js_div_Qeq x y c : x == y -> js_div (Fin x) c = js_div (Fin y) c.
Proof. intros H. unfold js_div, to_double. by rewrite (round64_Qeq x y H). Qed.

Lemma js_mul_Qeq x y c : x == y -> js_mul (Fin x) c = js_mul (Fin y) c.
Proof. intros H. unfold js_mul, to_double. by rewrite (round64_Qeq x y H). Qed.

Lemma spec_clamp_Qeq x y : x == y -> spec_clamp x == spec_clamp y.
Proof. intros H. unfold spec_clamp. by rewrite H. Qed.

Lemma clamp_case_Qeq x y : x == y -> clamp_case x == clamp_case y.
Proof. intros H. rewrite !clamp_case_spec. by apply spec_clamp_Qeq. Qed.

(** The SQL expression computes the formula of the spec, number for
    number. *)
Lemma adjusted_rating_expr_spec b p :
  adjusted_rating_expr b p = spec_effectiveScore b p.
Proof.
  unfold adjusted_rating_expr, spec_effectiveScore.
  by rewrite (js_div_Qeq _ _ (Fin 100) (clamp_case_spec p)).
Qed.

Lemma round64_1 : round64 1 = Fin 1.
Proof. by vm_compute. Qed.







Variable StringToNumber : string -> jsnum.

(** [sanitizeNumber(x || 0)] of a finite number is that number. *)
Lemma sanitize_or_zero q :
  exists q', Js.sanitizeNumber StringToNumber (js_or (JNum (Fin q)) (JNum (Fin 0))) (JNum (Fin 0))
             = JNum (Fin q') /\ q' == q.
Proof.
  unfold js_or, truthy, Qzerob.
  destruct (Qeq_bool q 0) eqn:E; cbn.
  - exists 0%Q. split; [reflexivity|]. apply Qeq_bool_iff in E. symmetry. exact E.
  - exists q. split; reflexivity.
Qed.

Lemma min_max_clamp q :
  exists c, Math_max (Fin (-25)) (Math_min (Fin 25) (Fin q)) = Fin c /\ c == clamp_case q.
Proof.
  cbn. eexists. split; [reflexivity|].
  rewrite clamp_case_spec.
  destruct (spec_clamp_cases q) as [[H E]|[[H E]|[H E]]]; rewrite E.
  - assert (L : Qle_bool 25 q = true) by (apply Qle_bool_iff; lra).
    rewrite L. reflexivity.
  - destruct (Qle_bool 25 q) eqn:L; [apply Qle_bool_iff in L; lra|].
    destruct (Qle_bool (-25) q) eqn:L'; [apply Qle_bool_iff in L'; lra|].
    reflexivity.
  - destruct (Qle_bool 25 q) eqn:L.
    + apply Qle_bool_iff in L.
      change (Qle_bool (-25) 25) with true. cbv iota. lra.
    + assert (L' : Qle_bool (-25) q = true) by (apply Qle_bool_iff; lra).
      rewrite L'. reflexivity.
Qed.

(** On a row that holds two numbers the helper returns the very number
    that the SQL expression computes. *)
Lemma adjustedRating_as_sql b p :
  adjustedRating StringToNumber (mk_js_row (JNum (Fin p)) (JNum (Fin b)))
  = adjusted_rating_expr b p.
Proof.
  unfold adjustedRating. cbn [row_adjustment_pct row_vivino_rating].
  destruct (sanitize_or_zero p) as (p' & -> & Hp).
  destruct (sanitize_or_zero b) as (b' & -> & Hb).
  cbn [Js.Number].
  destruct (min_max_clamp p') as (c & -> & Hc).
  unfold adjusted_rating_expr.
  rewrite (js_div_Qeq c (clamp_case p) (Fin 100))
    by (rewrite Hc; by apply clamp_case_Qeq).
  by apply js_mul_Qeq.
Qed.

(** A row without adjustment (a null or a missing property) is rated as
    with the adjustment 0. *)
Lemma adjustedRating_without_override b v :
  v = JNull \/ v = JUndefined ->
  adjustedRating StringToNumber (mk_js_row v (JNum (Fin b))) = adjusted_rating_expr b 0.
Proof.
  intros Hv. rewrite <- adjustedRating_as_sql. by destruct Hv as [-> | ->].
Qed.


End OverridePolicy.

(** ** The upsert statement *)

Section Upsert.

Implicit Types (w : wine) (ws : list wine) (v : wine_values) (k : option string).

Lemma opt_string_eqb_true (a b : option string) :
  opt_string_eqb a b = true <-> exists e, a = Some e /\ b = Some e.
Proof.
  destruct a as [x|], b as [y|]; cbn; split;
    try (intros (e & ? & ?)); try discriminate.
  - intros H. apply String.eqb_eq in H. subst. eauto.
  - simplify_eq. apply String.eqb_refl.
Qed.

Lemma conflicts_true k w :
  conflicts k w = true <-> exists e, external_id w = Some e /\ k = Some e.
Proof. apply opt_string_eqb_true. Qed.

Lemma has_key_true k ws :
  has_key k ws = true <-> exists e, k = Some e /\ e ∈ keys ws.
Proof.
  unfold has_key, keys. rewrite existsb_exists. split.
  - intros (w & Hin & Hc). apply conflicts_true in Hc as (e & He & ->).
    exists e. split; [done|]. apply list_elem_of_omap.
    exists w. split; [by apply list_elem_of_In|done].
  - intros (e & -> & Hin). apply list_elem_of_omap in Hin as (w & Hin & He).
    exists w. split; [by apply list_elem_of_In|]. apply conflicts_true. eauto.
Qed.

Lemma has_key_false k ws :
  has_key k ws = false <-> forall w, w ∈ ws -> conflicts k w = false.
Proof.
  unfold has_key. split.
  - intros H w Hin. destruct (conflicts k w) eqn:E; [|done].
    rewrite <- H. symmetry. apply existsb_exists. exists w.
    split; [by apply list_elem_of_In|done].
  - intros H. apply not_true_is_false. intros (w & Hin & Hc)%existsb_exists.
    apply list_elem_of_In in Hin. rewrite (H w Hin) in Hc. done.
Qed.

Lemma touch_identity now v w : same_identity w (touch now v w).
Proof. unfold touch. by destruct (conflicts _ w). Qed.

Lemma touch_external_id now v w : external_id (touch now v w) = external_id w.
Proof. apply touch_identity. Qed.

Lemma keys_touch now v ws : keys (map (touch now v) ws) = keys ws.
Proof.
  unfold keys. induction ws as [|w ws IH]; [done|].
  cbn. rewrite touch_external_id, IH. done.
Qed.

Lemma touch_none now v ws :
  has_key (v_external_id v) ws = false -> map (touch now v) ws = ws.
Proof.
  rewrite has_key_false. intros H.
  induction ws as [|w ws IH]; [done|]. cbn. unfold touch at 1.
  rewrite (H w) by left. f_equal. apply IH. intros w' Hin. apply H. by right.
Qed.

(** The key is in the table: the statement updates its row in place. *)
Lemma upsert_rows_present now v i ws :
  NoDup (keys ws) -> has_key (v_external_id v) ws = true ->
  upsert_rows now v i ws = map (touch now v) ws.
Proof.
  induction ws as [|w ws IH]; intros Hnd Hk; [done|].
  cbn. unfold touch at 1.
  destruct (conflicts (v_external_id v) w) eqn:Hc.
  - f_equal. symmetry. apply touch_none.
    apply conflicts_true in Hc as (e & He & Hv). rewrite Hv.
    unfold keys in Hnd. cbn in Hnd. rewrite He in Hnd. cbn in Hnd.
    apply NoDup_cons in Hnd as [Hnotin _].
    destruct (has_key (Some e) ws) eqn:E; [|done].
    apply has_key_true in E as (e' & [= <-] & Hin). done.
  - f_equal. apply IH.
    + unfold keys in *. cbn in Hnd. destruct (external_id w); cbn in Hnd; [|done].
      by apply NoDup_cons in Hnd as [_ ?].
    + unfold has_key in *. cbn in Hk. by rewrite Hc in Hk.
Qed.

(** The key is not in the table: the statement adds a row at the end. *)
Lemma upsert_rows_absent now v i ws :
  has_key (v_external_id v) ws = false ->
  upsert_rows now v i ws = ws ++ [inserted now v i].
Proof.
  induction ws as [|w ws IH]; intros Hk; [done|].
  unfold has_key in *. cbn in *. apply orb_false_iff in Hk as [-> Hk].
  f_equal. by apply IH.
Qed.

Lemma keys_app ws ws' : keys (ws ++ ws') = keys ws ++ keys ws'.
Proof. unfold keys. apply omap_app. Qed.

Lemma upsert_rows_unique now v i ws :
  NoDup (keys ws) -> NoDup (keys (upsert_rows now v i ws)).
Proof.
  intros Hnd. destruct (has_key (v_external_id v) ws) eqn:Hk.
  - rewrite upsert_rows_present, keys_touch by done. done.
  - rewrite upsert_rows_absent, keys_app by done.
    unfold keys at 2. cbn. destruct (v_external_id v) as [e|] eqn:He; cbn.
    + apply NoDup_app. split; [done|]. split; [|apply NoDup_singleton].
      intros x Hx ->%list_elem_of_singleton.
      assert (has_key (Some e) ws = true) as H; [|congruence].
      apply has_key_true. eauto.
    + by rewrite app_nil_r.
Qed.

Lemma upsert_rows_kept now v i ws : rows_kept ws (upsert_rows now v i ws).
Proof.
  induction ws as [|w ws IH]; cbn.
  - exists [], [inserted now v i]. split; [done|constructor].
  - destruct (conflicts (v_external_id v) w).
    + exists (updated now v w :: ws), []. split; [by rewrite app_nil_r|].
      constructor; [done|]. apply Forall2_same_length_lookup_2; [done|].
      intros j x y Hx Hy. by simplify_eq.
    + destruct IH as (kept & added & -> & HF).
      exists (w :: kept), added. split; [done|]. by constructor.
Qed.

Lemma rows_kept_refl ws : rows_kept ws ws.
Proof.
  exists ws, []. split; [by rewrite app_nil_r|].
  induction ws; constructor; done.
Qed.

Lemma rows_kept_trans ws1 ws2 ws3 :
  rows_kept ws1 ws2 -> rows_kept ws2 ws3 -> rows_kept ws1 ws3.
Proof.
  intros (k1 & a1 & -> & H1) (k2 & a2 & -> & H2).
  apply Forall2_app_inv_l in H2 as (k2a & k2b & Ha & Hb & ->).
  exists k2a, (k2b ++ a2). split; [by rewrite app_assoc|].
  clear Hb. revert k2a Ha. induction H1 as [|x y l l' Hxy _ IH]; intros k2a Ha.
  - apply Forall2_nil_inv_l in Ha as ->. constructor.
  - apply Forall2_cons_inv_l in Ha as (z & k' & Hyz & Hk' & ->).
    constructor; [|by apply IH].
    destruct Hxy as (? & ? & ?), Hyz as (? & ? & ?). unfold same_identity.
    repeat split; congruence.
Qed.

(** A wine that [getWineById] finds satisfies the foreign key. *)
Lemma upsertOverride_found now i q d w :
  getWineById i d = Some w ->
  upsertOverride now i q d = Some (override_written now i q d).
Proof.
  unfold getWineById, upsertOverride. intros H.
  apply List.find_some in H as [Hin Hid].
  assert (E : existsb (fun w => id w =? i) (wines d) = true).
  { apply existsb_exists. by exists w. }
  by rewrite E.
Qed.

End Upsert.

(** ** Transactions of upserts *)

Section Transactions.

Implicit Types (w : wine) (ws : list wine) (v : wine_values) (d : database).

Lemma run_upserts_Some now ps vs d :
  all_values ps = Some vs ->
  run_upserts now ps d
  = Some (mk_database (fold_rows now vs (wines d)) (admin_overrides d) (last_refresh d)).
Proof.
  revert vs d. induction ps as [|p ps IH]; intros vs d H; cbn in H.
  - injection H as <-. by destruct d.
  - destruct (check_not_null p) as [v|] eqn:Hp; [|done].
    destruct (all_values ps) as [vs'|] eqn:Hps; [|done].
    injection H as <-. cbn. unfold upsertWine. rewrite Hp.
    rewrite (IH vs') by done. done.
Qed.

Lemma run_upserts_None now ps d :
  all_values ps = None -> run_upserts now ps d = None.
Proof.
  revert d. induction ps as [|p ps IH]; intros d H; cbn in H; [done|].
  cbn. unfold upsertWine.
  destruct (check_not_null p) as [v|] eqn:Hp; [|done].
  apply IH. by destruct (all_values ps).
Qed.

Lemma fold_rows_kept now vs ws : rows_kept ws (fold_rows now vs ws).
Proof.
  revert ws. induction vs as [|v vs IH]; intros ws; cbn.
  - apply rows_kept_refl.
  - eapply rows_kept_trans; [apply upsert_rows_kept|apply IH].
Qed.

Lemma fold_rows_unique now vs ws :
  NoDup (keys ws) -> NoDup (keys (fold_rows now vs ws)).
Proof.
  revert ws. induction vs as [|v vs IH]; intros ws H; cbn; [done|].
  apply IH. by apply upsert_rows_unique.
Qed.

Lemma rows_kept_overrides d d' :
  admin_overrides d' = admin_overrides d ->
  rows_kept (wines d) (wines d') ->
  overrides_kept d d'.
Proof.
  intros Ho (kept & added & Hw & HF). split; [done|].
  intros j w Hj.
  destruct (Forall2_lookup_l _ _ _ _ _ HF Hj) as (w' & Hj' & Hid).
  exists w'. split; [rewrite Hw; by apply lookup_app_l_Some|].
  split; [done|].
  assert (admin_overrides d' !! id w' = admin_overrides d !! id w) as E.
  { destruct Hid as (-> & _). by rewrite Ho. }
  split; [done|]. unfold joined_pct. by rewrite E.
Qed.

Lemma overrides_kept_refl d : overrides_kept d d.
Proof. apply rows_kept_overrides; [done|apply rows_kept_refl]. Qed.

Lemma run_upserts_overrides now ps d d' :
  run_upserts now ps d = Some d' ->
  admin_overrides d' = admin_overrides d
  /\ last_refresh d' = last_refresh d
  /\ rows_kept (wines d) (wines d').
Proof.
  destruct (all_values ps) as [vs|] eqn:H.
  - rewrite (run_upserts_Some _ _ vs) by done. intros [= <-]. cbn.
    split; [done|]. split; [done|]. apply fold_rows_kept.
  - by rewrite run_upserts_None.
Qed.

(** C2. Neither one execution of [upsertWine], nor a transaction of them,
    nor an import, nor a refresh from the seed file, nor the daily check
    changes the table of overrides; every wine that was in the table keeps its place, its rowid,
    its key and its creation stamp, so the adjustment joined to it is the
    one it had. This includes the rows whose [external_id] was already
    there, which the statement updates in place. *)
Theorem ingestion_keeps_overrides (StringToNumber : string -> jsnum)
    (now : time) (d : database) :
  (forall p, from_option (overrides_kept d) True (upsertWine now p d))
  /\ (forall rows, from_option (overrides_kept d) True (run_upserts now rows d))
  /\ (forall items, overrides_kept d (post_admin_import now items d).2)
  /\ (forall file, overrides_kept d (refreshVivinoData StringToNumber now file d))
  /\ (forall file, overrides_kept d (refresh_check StringToNumber now file d)).
Proof.
  assert (R : forall file,
             overrides_kept d (refreshVivinoData StringToNumber now file d)).
  { intros [| |arr]; cbn; try apply overrides_kept_refl.
    destruct (run_upserts _ _ d) as [d'|] eqn:E; [|apply overrides_kept_refl].
    apply run_upserts_overrides in E as (Ho & _ & Hk).
    by apply rows_kept_overrides. }
  split; [|split; [|split; [|split]]].
  - intros p. destruct (upsertWine now p d) as [d'|] eqn:E; [|done]. cbn.
    unfold upsertWine in E. destruct (check_not_null p) as [v|]; [|done].
    injection E as <-. apply rows_kept_overrides; [done|]. cbn.
    apply upsert_rows_kept.
  - intros rows. destruct (run_upserts now rows d) as [d'|] eqn:E; [|done]. cbn.
    apply run_upserts_overrides in E as (Ho & _ & Hk).
    by apply rows_kept_overrides.
  - intros items. unfold post_admin_import.
    destruct (run_upserts _ _ d) as [d'|] eqn:E; cbn; [|apply overrides_kept_refl].
    apply run_upserts_overrides in E as (Ho & _ & Hk).
    by apply rows_kept_overrides.
  - exact R.
  - intros file. unfold refresh_check.
    destruct (75 <=? _); [apply R|apply overrides_kept_refl].
Qed.

End Transactions.

(** ** Importing the same batch again *)

Section Idempotence.

Implicit Types (w : wine) (ws : list wine) (v u : wine_values)
  (vs : list wine_values) (k : option string).

Lemma has_key_upsert now v i k ws :
  has_key k ws = true -> has_key k (upsert_rows now v i ws) = true.
Proof.
  unfold has_key. induction ws as [|w ws IH]; cbn; [done|].
  intros [Hw|Hws]%orb_true_iff.
  - destruct (conflicts (v_external_id v) w) eqn:Hc; cbn; [|by rewrite Hw].
    unfold conflicts in *. cbn. by rewrite Hw.
  - destruct (conflicts (v_external_id v) w); cbn; [by rewrite Hws, orb_true_r|].
    rewrite IH by done. apply orb_true_r.
Qed.

Lemma has_key_upsert_own now v i ws :
  is_Some (v_external_id v) ->
  has_key (v_external_id v) (upsert_rows now v i ws) = true.
Proof.
  intros [e He]. unfold has_key. induction ws as [|w ws IH]; cbn.
  - unfold conflicts. cbn. rewrite He. cbn. by rewrite String.eqb_refl.
  - destruct (conflicts (v_external_id v) w) eqn:Hc; cbn.
    + unfold conflicts in *. cbn. by rewrite Hc.
    + by rewrite Hc, IH.
Qed.

Lemma fold_rows_cons now v vs ws :
  fold_rows now (v :: vs) ws = fold_rows now vs (upsert_rows now v (next_id ws) ws).
Proof. reflexivity. Qed.

Lemma has_key_fold now vs k ws :
  has_key k ws = true -> has_key k (fold_rows now vs ws) = true.
Proof.
  revert ws. induction vs as [|v vs IH]; intros ws H; cbn; [done|].
  apply IH. by apply has_key_upsert.
Qed.

(** After the batch every key of the batch is in the table. *)
Lemma has_key_fold_own now vs v ws :
  v ∈ vs -> is_Some (v_external_id v) ->
  has_key (v_external_id v) (fold_rows now vs ws) = true.
Proof.
  revert ws. induction vs as [|v0 vs IH]; intros ws Hin Hs; [by inversion Hin|].
  cbn. apply elem_of_cons in Hin as [->|Hin].
  - apply has_key_fold. by apply has_key_upsert_own.
  - by apply IH.
Qed.

Lemma touch_touch now now' u v w :
  updated now' u (touch now v w) = updated now' u w.
Proof. unfold touch. by destruct (conflicts _ w). Qed.

Lemma refreshed_cons now v vs w :
  refreshed now vs (touch now v w) = refreshed now (v :: vs) w.
Proof.
  unfold refreshed. cbn. rewrite touch_external_id.
  destruct (last_match vs (external_id w)) as [u|]; [apply touch_touch|].
  unfold touch, conflicts. by destruct (opt_string_eqb _ _).
Qed.

(** When every key of the batch is in the table, the batch rewrites each
    row from the last values bound for its key, and adds none. *)
Lemma fold_rows_present now vs ws :
  NoDup (keys ws) ->
  (forall v, v ∈ vs -> has_key (v_external_id v) ws = true) ->
  fold_rows now vs ws = map (refreshed now vs) ws.
Proof.
  revert ws. induction vs as [|v vs IH]; intros ws Hnd Hk.
  - cbn. by rewrite map_id.
  - rewrite fold_rows_cons.
    rewrite upsert_rows_present by (auto; apply Hk; left).
    rewrite IH.
    + rewrite map_map. apply map_ext. intros w. apply refreshed_cons.
    + by rewrite keys_touch.
    + intros u Hu. rewrite <- (upsert_rows_present now v 0) by (auto; apply Hk; left).
      apply has_key_upsert. apply Hk. by right.
Qed.

(** A row in the table after one statement, with the key of the statement,
    holds the values of the statement. *)
Lemma upsert_rows_own now v i ws w :
  NoDup (keys ws) -> w ∈ upsert_rows now v i ws ->
  conflicts (v_external_id v) w = true ->
  strip (updated now v w) = strip w.
Proof.
  intros Hnd Hin Hc. destruct (has_key (v_external_id v) ws) eqn:Hk.
  - rewrite upsert_rows_present in Hin by done.
    apply list_elem_of_fmap in Hin as (w0 & -> & Hin0).
    unfold touch in *. destruct (conflicts (v_external_id v) w0) eqn:Hc0; [done|].
    congruence.
  - rewrite upsert_rows_absent in Hin by done.
    apply elem_of_app in Hin as [Hin| ->%list_elem_of_singleton]; [|done].
    rewrite has_key_false in Hk. rewrite (Hk w Hin) in Hc. done.
Qed.

(** A row with a key that no later statement of the batch binds was there
    before these statements. *)
Lemma fold_rows_untouched now vs ws w :
  w ∈ fold_rows now vs ws ->
  is_Some (external_id w) ->
  (forall v, v ∈ vs -> conflicts (v_external_id v) w = false) ->
  w ∈ ws.
Proof.
  revert ws. induction vs as [|v vs IH]; intros ws Hin Hs Hno; [done|].
  cbn in Hin. apply IH in Hin; [|done|intros u Hu; apply Hno; by right].
  assert (Hv : conflicts (v_external_id v) w = false) by (apply Hno; left).
  clear IH Hno. revert Hin. generalize (next_id ws) as i. intros i Hin.
  induction ws as [|w0 ws IHw]; cbn in Hin.
  - apply list_elem_of_singleton in Hin as ->.
    destruct Hs as [e He]. cbn in He. unfold conflicts in Hv. cbn in Hv.
    rewrite He in Hv. cbn in Hv. by rewrite String.eqb_refl in Hv.
  - destruct (conflicts (v_external_id v) w0) eqn:Hc0.
    + apply elem_of_cons in Hin as [->|Hin]; [|by right].
      unfold conflicts in *. cbn in Hv. congruence.
    + apply elem_of_cons in Hin as [->|Hin]; [by left|]. right. by apply IHw.
Qed.

Lemma last_match_None vs k :
  last_match vs k = None -> forall v, v ∈ vs -> opt_string_eqb k (v_external_id v) = false.
Proof.
  induction vs as [|v0 vs IH]; intros H v Hin; [by inversion Hin|].
  cbn in H. destruct (last_match vs k) eqn:E; [done|].
  destruct (opt_string_eqb k (v_external_id v0)) eqn:E0; [done|].
  apply elem_of_cons in Hin as [->|Hin]; [done|by apply IH].
Qed.

Lemma last_match_Some vs k u :
  last_match vs k = Some u -> opt_string_eqb k (v_external_id u) = true.
Proof.
  induction vs as [|v0 vs IH]; intros H; [done|].
  cbn in H. destruct (last_match vs k) eqn:E; [injection H as ->; by apply IH|].
  destruct (opt_string_eqb k (v_external_id v0)) eqn:E0; [|done].
  by injection H as <-.
Qed.

(** After the batch, a row whose key is in the batch holds the last values
    bound for that key. *)
Lemma fold_rows_last now vs ws w u :
  NoDup (keys ws) -> w ∈ fold_rows now vs ws ->
  last_match vs (external_id w) = Some u ->
  strip (updated now u w) = strip w.
Proof.
  revert ws. induction vs as [|v vs IH]; intros ws Hnd Hin Hl; [done|].
  cbn in Hin, Hl.
  destruct (last_match vs (external_id w)) as [u'|] eqn:E.
  - injection Hl as ->. eapply IH; [|exact Hin|reflexivity].
    by apply upsert_rows_unique.
  - destruct (opt_string_eqb (external_id w) (v_external_id v)) eqn:Hc; [|done].
    injection Hl as <-.
    apply (upsert_rows_own now v (next_id ws) ws); [done| |exact Hc].
    eapply fold_rows_untouched; [exact Hin| |].
    + apply opt_string_eqb_true in Hc as (e & -> & _). eauto.
    + intros v' Hv'. unfold conflicts. by eapply last_match_None.
Qed.

End Idempotence.

Section ImportTwice.

Implicit Types (w : wine) (ws : list wine) (v u : wine_values)
  (vs : list wine_values) (k : option string) (i : import_item).

Lemma all_values_Forall2 ps vs :
  all_values ps = Some vs -> Forall2 (fun p v => check_not_null p = Some v) ps vs.
Proof.
  revert vs. induction ps as [|p ps IH]; intros vs H; cbn in H.
  - injection H as <-. constructor.
  - destruct (check_not_null p) as [v|] eqn:Hp; [|done].
    destruct (all_values ps) as [vs'|]; [|done].
    injection H as <-. constructor; [done|by apply IH].
Qed.

Lemma item_values_fields i v :
  check_not_null (item_params i) = Some v ->
  v_external_id v = Some (i_external_id i)
  /\ v_last_source_update v = Some (i_last_source_update i).
Proof.
  unfold check_not_null, item_params. cbn.
  destruct (i_name i), (i_aoc i); try done. by intros [= <-].
Qed.

Lemma item_values_strip i i' :
  strip_item i = strip_item i' ->
  option_map strip_values (check_not_null (item_params i))
  = option_map strip_values (check_not_null (item_params i')).
Proof.
  destruct i, i'. unfold strip_item, check_not_null, item_params. cbn.
  intros [= -> -> -> -> -> -> -> ->].
  by destruct i_name1, i_aoc1.
Qed.

Lemma all_values_strip items items' :
  same_batch items items' ->
  option_map (map strip_values) (all_values (map item_params items))
  = option_map (map strip_values) (all_values (map item_params items')).
Proof.
  unfold same_batch. revert items'.
  induction items as [|i items IH]; intros [|i' items'] H; try done.
  cbn [map] in H.
  assert (Hi : strip_item i = strip_item i') by congruence.
  assert (Hrest : map strip_item items = map strip_item items') by congruence.
  apply item_values_strip in Hi. specialize (IH _ Hrest). cbn.
  destruct (check_not_null (item_params i)), (check_not_null (item_params i'));
    cbn in Hi; try done.
  destruct (all_values (map item_params items)),
    (all_values (map item_params items')); cbn in *; try done.
  congruence.
Qed.

Lemma last_match_strip vs k :
  option_map strip_values (last_match vs k) = last_match (map strip_values vs) k.
Proof.
  induction vs as [|v vs IH]; [done|]. cbn. rewrite <- IH.
  destruct (last_match vs k); [done|]. cbn.
  by destruct (opt_string_eqb k (v_external_id v)).
Qed.

Lemma updated_strip now now' u w :
  strip (updated now u w) = strip (updated now' (strip_values u) w).
Proof. reflexivity. Qed.

Lemma last_match_elem vs k u : last_match vs k = Some u -> u ∈ vs.
Proof.
  induction vs as [|v vs IH]; [done|]. cbn.
  destruct (last_match vs k); [intros [= <-]; right; by apply IH|].
  destruct (opt_string_eqb _ _); [|done]. intros [= <-]. by left.
Qed.

(** The rows after the same batch is run again, when the first run
    succeeded. *)
Lemma fold_rows_again now now' vs vs' ws :
  NoDup (keys ws) ->
  Forall (fun v => is_Some (v_external_id v)) vs' ->
  map strip_values vs = map strip_values vs' ->
  let ws1 := fold_rows now vs ws in
  fold_rows now' vs' ws1 = map (refreshed now' vs') ws1
  /\ forall w, w ∈ ws1 -> strip (refreshed now' vs' w) = strip w.
Proof.
  intros Hnd Hkeys Hsame ws1.
  assert (Hnd1 : NoDup (keys ws1)) by by apply fold_rows_unique.
  split.
  - apply fold_rows_present; [done|]. intros v' Hv'.
    apply list_elem_of_lookup in Hv' as [j Hj].
    assert (exists v, vs !! j = Some v /\ strip_values v = strip_values v')
      as (v & Hv & Hs).
    { assert (map strip_values vs' !! j = Some (strip_values v')) as H
        by by rewrite list_lookup_fmap, Hj.
      rewrite <- Hsame, list_lookup_fmap in H.
      destruct (vs !! j) as [v|]; [|done]. exists v. split; [done|].
      cbn in H. congruence. }
    assert (v_external_id v = v_external_id v') as Hk
      by exact (f_equal v_external_id Hs).
    rewrite <- Hk. apply has_key_fold_own.
    + apply list_elem_of_lookup. eauto.
    + rewrite Hk. rewrite Forall_forall in Hkeys. apply Hkeys.
      apply list_elem_of_lookup. eauto.
  - intros w Hw. unfold refreshed.
    destruct (last_match vs' (external_id w)) as [u'|] eqn:E'; [|done].
    assert (exists u, last_match vs (external_id w) = Some u
                      /\ strip_values u = strip_values u') as (u & E & Hs).
    { assert (option_map strip_values (last_match vs (external_id w))
              = Some (strip_values u')) as H
        by by rewrite last_match_strip, Hsame, <- last_match_strip, E'.
      destruct (last_match vs (external_id w)) as [u|]; [|done].
      exists u. split; [done|]. cbn in H. congruence. }
    rewrite (updated_strip now' now u' w), <- Hs, <- (updated_strip now now u w).
    exact (fold_rows_last now vs ws w u Hnd Hw E).
Qed.

End ImportTwice.

Section ImportRoute.

Implicit Types (w : wine) (i : import_item) (d : database).

Lemma item_values_keys items vs :
  all_values (map item_params items) = Some vs ->
  Forall (fun v => is_Some (v_external_id v)) vs
  /\ forall v, v ∈ vs ->
       exists i, i ∈ items /\ v_external_id v = Some (i_external_id i)
                 /\ v_last_source_update v = Some (i_last_source_update i).
Proof.
  intros H%all_values_Forall2.
  assert (G : forall v, v ∈ vs ->
            exists i, i ∈ items /\ check_not_null (item_params i) = Some v).
  { intros v [j Hj]%list_elem_of_lookup.
    destruct (Forall2_lookup_r _ _ _ _ _ H Hj) as (p & Hp & Hc).
    rewrite list_lookup_fmap in Hp.
    destruct (items !! j) as [i|] eqn:Hi; [|done]. injection Hp as <-.
    exists i. split; [|done]. apply list_elem_of_lookup. eauto. }
  split.
  - apply Forall_forall. intros v Hv.
    destruct (G v Hv) as (i & _ & Hc). apply item_values_fields in Hc as [-> _]. eauto.
  - intros v Hv. destruct (G v Hv) as (i & Hi & Hc).
    apply item_values_fields in Hc as [? ?]. eauto.
Qed.

Lemma item_values_elem items vs i :
  all_values (map item_params items) = Some vs -> i ∈ items ->
  exists v, v ∈ vs /\ v_external_id v = Some (i_external_id i).
Proof.
  intros H%all_values_Forall2 [j Hj]%list_elem_of_lookup.
  assert (map item_params items !! j = Some (item_params i)) as Hp
    by by rewrite list_lookup_fmap, Hj.
  destruct (Forall2_lookup_l _ _ _ _ _ H Hp) as (v & Hv & Hc).
  exists v. split; [apply list_elem_of_lookup; eauto|].
  by apply item_values_fields in Hc as [? _].
Qed.

Lemma post_admin_import_ok now items d vs :
  all_values (map item_params items) = Some vs ->
  post_admin_import now items d
  = (Status200_upserted (length items),
     mk_database (fold_rows now vs (wines d)) (admin_overrides d) (Some now)).
Proof.
  intros H. unfold post_admin_import. by rewrite (run_upserts_Some now _ vs).
Qed.

Lemma post_admin_import_fail now items d :
  all_values (map item_params items) = None ->
  post_admin_import now items d = (Status500_import_failed, d).
Proof.
  intros H. unfold post_admin_import. by rewrite run_upserts_None.
Qed.

(** C6. Importing a batch and then the same batch again (the same items,
    stamped anew) ends in the state of the first import up to the stamps:
    the second import answers as the first, adds no row, keeps the keys
    unique, leaves every column but [last_source_update] and [updated_at]
    as it was, and leaves the overrides; when the import succeeds, the rows
    whose key is in the batch take the stamps of the second run and the
    others are not changed at all. When the first import fails it is rolled
    back, and so is the second. *)
Theorem import_is_idempotent (now now' : time) (items items' : list import_item)
    (d : database) :
  unique_keys d ->
  same_batch items items' ->
  let r1 := post_admin_import now items d in
  let r2 := post_admin_import now' items' r1.2 in
  r2.1 = r1.1
  /\ unique_keys r1.2 /\ unique_keys r2.2
  /\ length (wines r2.2) = length (wines r1.2)
  /\ map strip (wines r2.2) = map strip (wines r1.2)
  /\ admin_overrides r2.2 = admin_overrides r1.2
  /\ (r1.1 = Status500_import_failed -> r1.2 = d /\ r2.2 = d)
  /\ (r1.1 = Status200_upserted (length items) ->
      last_refresh r1.2 = Some now /\ last_refresh r2.2 = Some now'
      /\ forall j w1, wines r1.2 !! j = Some w1 ->
           exists w2, wines r2.2 !! j = Some w2
             /\ ((forall i, i ∈ items' -> external_id w1 <> Some (i_external_id i)) ->
                 w2 = w1)
             /\ (forall i, i ∈ items' -> external_id w1 = Some (i_external_id i) ->
                 updated_at w2 = now'
                 /\ exists i', i' ∈ items' /\ i_external_id i' = i_external_id i
                      /\ last_source_update w2 = Some (i_last_source_update i'))).
Proof.
  intros Hu Hsame. cbv zeta.
  assert (Hlen : length items' = length items).
  { unfold same_batch in Hsame. apply (f_equal length) in Hsame.
    by rewrite !length_map in Hsame. }
  pose proof (all_values_strip _ _ Hsame) as Hvals.
  destruct (all_values (map item_params items)) as [vs|] eqn:E1.
  - destruct (all_values (map item_params items')) as [vs'|] eqn:E2; [|done].
    cbn in Hvals. assert (Hs : map strip_values vs = map strip_values vs') by congruence.
    rewrite (post_admin_import_ok now items d vs) by done. cbn [fst snd].
    rewrite (post_admin_import_ok now' items' _ vs') by done.
    cbn [fst snd wines admin_overrides last_refresh].
    destruct (item_values_keys _ _ E2) as [Hkeys Hitems].
    destruct (fold_rows_again now now' vs vs' (wines d) Hu Hkeys Hs) as [Hmap Hstrip].
    cbn zeta in Hmap, Hstrip.
    assert (Hnd1 : NoDup (keys (fold_rows now vs (wines d)))) by by apply fold_rows_unique.
    assert (Hmapstrip : map strip (fold_rows now' vs' (fold_rows now vs (wines d)))
                        = map strip (fold_rows now vs (wines d))).
    { rewrite Hmap, map_map. apply map_ext_in. intros w Hw.
      apply Hstrip. by apply list_elem_of_In. }
    repeat split.
    + by rewrite Hlen.
    + exact Hnd1.
    + unfold unique_keys. cbn. by apply fold_rows_unique.
    + apply (f_equal length) in Hmapstrip. by rewrite !length_map in Hmapstrip.
    + exact Hmapstrip.
    + done.
    + done.
    + intros j w1 Hj. exists (refreshed now' vs' w1).
      split; [by rewrite Hmap, list_lookup_fmap, Hj|].
      unfold refreshed. split.
      * intros Hno. destruct (last_match vs' (external_id w1)) as [u|] eqn:El; [|done].
        destruct (Hitems u (last_match_elem _ _ _ El)) as (i & Hi & Hk & _).
        apply last_match_Some in El. rewrite Hk in El.
        apply opt_string_eqb_true in El as (e & He & [= <-]).
        by destruct (Hno i Hi).
      * intros i Hi Hk.
        destruct (item_values_elem _ _ _ E2 Hi) as (v & Hv & Hkv).
        destruct (last_match vs' (external_id w1)) as [u|] eqn:El.
        -- split; [done|].
           destruct (Hitems u (last_match_elem _ _ _ El)) as (i' & Hi' & Hk' & Hst).
           exists i'. split; [done|]. split; [|done].
           apply last_match_Some in El. rewrite Hk', Hk in El.
           apply opt_string_eqb_true in El as (e & [= <-] & [= <-]). done.
        -- pose proof (last_match_None _ _ El v Hv) as Hf.
           rewrite Hk, Hkv in Hf. cbn in Hf. by rewrite String.eqb_refl in Hf.
  - destruct (all_values (map item_params items')) as [vs'|] eqn:E2; [done|].
    rewrite (post_admin_import_fail now items d) by done. cbn [fst snd].
    rewrite (post_admin_import_fail now' items' d) by done.
    cbn [fst snd]. repeat split; try done.
Qed.

(** The UNIQUE constraint holds in the empty table and after every route. *)
Lemma unique_keys_preserved (StringToNumber : string -> jsnum) now d :
  unique_keys empty_db
  /\ (unique_keys d ->
      (forall rows d', run_upserts now rows d = Some d' -> unique_keys d')
      /\ (forall items, unique_keys (post_admin_import now items d).2)
      /\ (forall body, unique_keys (post_admin_override StringToNumber now body d).2)
      /\ (forall file, unique_keys (refresh_check StringToNumber now file d))).
Proof.
  split; [apply NoDup_nil_2|]. intros Hu.
  assert (R : forall rows d', run_upserts now rows d = Some d' -> unique_keys d').
  { intros rows d' H. destruct (all_values rows) as [vs|] eqn:E.
    - rewrite (run_upserts_Some now _ vs) in H by done. injection H as <-.
      by apply fold_rows_unique.
    - by rewrite run_upserts_None in H. }
  split; [exact R|]. split; [|split].
  - intros items. unfold post_admin_import.
    destruct (run_upserts _ _ d) as [d'|] eqn:E; [|done]. exact (R _ _ E).
  - intros body. unfold post_admin_override.
    destruct (negb _ || _); [done|]. destruct (Js.Number _ _); try done.
    destruct (Qltb _ _ || Qgtb _ _); [done|]. destruct (getWineById _ d); [|done].
    unfold upsertOverride. by destruct (existsb _ _).
  - intros file. unfold refresh_check. destruct (75 <=? _); [|done].
    destruct file as [| |arr]; try done. cbn.
    destruct (run_upserts _ _ d) as [d'|] eqn:E; [|done]. exact (R _ _ E).
Qed.

End ImportRoute.

(** ** Ranking *)

Section Ranking.

Implicit Types (a b c : ranked).

Lemma compare_real_cases (x y : jsnum) :
  (compare_real x y = Lt /\ score_below x y)
  \/ (compare_real x y = Eq /\ score_equal x y)
  \/ (compare_real x y = Gt /\ score_below y x).
Proof.
  destruct x as [p| | |], y as [q| | |]; cbn; try tauto.
  apply Qcompare_cases.
Qed.

Lemma score_trichotomy (x y : jsnum) :
  score_below x y \/ score_equal x y \/ score_below y x.
Proof. destruct (compare_real_cases x y) as [[_ H]|[[_ H]|[_ H]]]; tauto. Qed.

Lemma score_below_not_equal (x y : jsnum) :
  score_below x y -> ~ score_equal x y /\ ~ score_equal y x /\ ~ score_below y x.
Proof. destruct x as [p| | |], y as [q| | |]; cbn; try tauto. lra. Qed.

Lemma score_equal_sym (x y : jsnum) : score_equal x y -> score_equal y x.
Proof. destruct x as [p| | |], y as [q| | |]; cbn; try tauto. lra. Qed.

Lemma score_equal_trans (x y z : jsnum) :
  score_equal x y -> score_equal y z -> score_equal x z.
Proof.
  destruct x as [p| | |], y as [q| | |], z as [r| | |]; cbn; try tauto. lra.
Qed.

Lemma score_below_trans (x y z : jsnum) :
  score_below x y -> score_below y z -> score_below x z.
Proof.
  destruct x as [p| | |], y as [q| | |], z as [r| | |]; cbn; try tauto. lra.
Qed.

Lemma score_below_equal (x y z : jsnum) :
  score_below x y -> score_equal y z -> score_below x z.
Proof.
  destruct x as [p| | |], y as [q| | |], z as [r| | |]; cbn; try tauto. lra.
Qed.

Lemma score_equal_below (x y z : jsnum) :
  score_equal x y -> score_below y z -> score_below x z.
Proof.
  destruct x as [p| | |], y as [q| | |], z as [r| | |]; cbn; try tauto. lra.
Qed.

(** The two last sort terms, on rows of equal rating. *)
Lemma tie_break_iff (wa wb : wine) :
  then_by (compare_nullable (rating_count wb) (rating_count wa))
    (compare_nulls_last (price wa) (price wb)) <> Gt
  <-> more_reviews (rating_count wa) (rating_count wb)
      \/ (equal_reviews (rating_count wa) (rating_count wb)
          /\ price_no_later (price wa) (price wb)).
Proof.
  unfold then_by.
  destruct (rating_count wa) as [x|], (rating_count wb) as [y|]; cbn;
    try destruct (Qcompare_cases y x) as [[-> G]|[[-> G]|[-> G]]];
    try (split; [done|intros ?; exfalso; first [lra|tauto]]);
    try (split; [intros _; first [lra|tauto]|done]);
    destruct (price wa) as [p|], (price wb) as [q|]; cbn;
    try destruct (Qcompare_cases p q) as [[-> F]|[[-> F]|[-> F]]];
    try (split; [done|intros ?; exfalso; first [lra|tauto]]);
    try (split; [intros _; first [lra|tauto]|done]).
Qed.

Lemma not_after_iff a b : not_after a b <-> ranks_no_later a b.
Proof.
  unfold not_after, ranks_no_later, order_by.
  destruct (compare_real_cases (r_adjusted_rating b) (r_adjusted_rating a))
    as [[-> H]|[[-> H]|[-> H]]]; cbn [then_by].
  - split; [intros _; by left|done].
  - rewrite tie_break_iff. apply score_equal_sym in H as H'.
    split; [intros G; right; by split|].
    intros [G|[_ G]]; [|done].
    pose proof (score_below_not_equal _ _ G). tauto.
  - split; [done|]. pose proof (score_below_not_equal _ _ H). tauto.
Qed.

Lemma tie_break_total (wa wb : wine) :
  (more_reviews (rating_count wa) (rating_count wb)
   \/ (equal_reviews (rating_count wa) (rating_count wb)
       /\ price_no_later (price wa) (price wb)))
  \/ (more_reviews (rating_count wb) (rating_count wa)
      \/ (equal_reviews (rating_count wb) (rating_count wa)
          /\ price_no_later (price wb) (price wa))).
Proof.
  unfold more_reviews, equal_reviews, price_no_later.
  destruct (rating_count wa), (rating_count wb), (price wa), (price wb); lra.
Qed.

Lemma tie_break_trans (wa wb wc : wine) :
  (more_reviews (rating_count wa) (rating_count wb)
   \/ (equal_reviews (rating_count wa) (rating_count wb)
       /\ price_no_later (price wa) (price wb))) ->
  (more_reviews (rating_count wb) (rating_count wc)
   \/ (equal_reviews (rating_count wb) (rating_count wc)
       /\ price_no_later (price wb) (price wc))) ->
  more_reviews (rating_count wa) (rating_count wc)
  \/ (equal_reviews (rating_count wa) (rating_count wc)
      /\ price_no_later (price wa) (price wc)).
Proof.
  unfold more_reviews, equal_reviews, price_no_later.
  destruct (rating_count wa), (rating_count wb), (rating_count wc),
    (price wa), (price wb), (price wc); lra.
Qed.

#[global] Instance ranks_no_later_total : Total ranks_no_later.
Proof.
  intros a b. unfold ranks_no_later.
  destruct (score_trichotomy (r_adjusted_rating a) (r_adjusted_rating b))
    as [H|[H|H]]; [by right; left| |by left; left].
  destruct (tie_break_total (r_wine a) (r_wine b)) as [G|G].
  - left; right. by split.
  - right; right. split; [by apply score_equal_sym|done].
Qed.

#[global] Instance ranks_no_later_trans : Transitive ranks_no_later.
Proof.
  intros a b c. unfold ranks_no_later.
  intros [H|[H T]] [H'|[H' T']].
  - left. by eapply score_below_trans.
  - left. eapply score_equal_below; [|exact H]. by apply score_equal_sym.
  - left. eapply score_below_equal; [exact H'|]. by apply score_equal_sym.
  - right. split; [by eapply score_equal_trans|]. by eapply tie_break_trans.
Qed.

#[global] Instance not_after_total : Total not_after.
Proof.
  intros a b. rewrite !not_after_iff. apply ranks_no_later_total.
Qed.

#[global] Instance not_after_trans : Transitive not_after.
Proof.
  intros a b c. rewrite !not_after_iff. apply ranks_no_later_trans.
Qed.

Lemma sort_insert_perm a rows : sort_insert a rows ≡ₚ a :: rows.
Proof.
  induction rows as [|x rows IH]; cbn [sort_insert]; [done|].
  destruct (decide (not_after a x)); [done|].
  rewrite IH. apply Permutation_swap.
Qed.

Lemma sort_rows_perm (rows : list ranked) : sort_rows rows ≡ₚ rows.
Proof.
  induction rows as [|x rows IH]; [done|].
  cbn [sort_rows foldr]. fold (sort_rows rows).
  by rewrite sort_insert_perm, IH.
Qed.

Lemma sort_insert_sorted a rows :
  StronglySorted not_after rows -> StronglySorted not_after (sort_insert a rows).
Proof.
  induction 1 as [|x rows S IH Hx]; cbn [sort_insert].
  - repeat constructor.
  - destruct (decide (not_after a x)) as [H|H].
    + constructor; [by constructor|]. constructor; [done|].
      eapply List.Forall_impl; [|exact Hx]. intros b Hb.
      by apply (not_after_trans a x b).
    + constructor; [done|].
      assert (Hxa : not_after x a).
      { by destruct (not_after_total a x). }
      apply List.Forall_forall. intros b Hb.
      apply list_elem_of_In in Hb. rewrite sort_insert_perm in Hb.
      apply elem_of_cons in Hb as [->|Hb]; [done|].
      rewrite List.Forall_forall in Hx. apply Hx. by apply list_elem_of_In.
Qed.

Lemma sort_rows_sorted (rows : list ranked) : StronglySorted not_after (sort_rows rows).
Proof.
  induction rows as [|x rows IH]; [constructor|].
  cbn [sort_rows foldr]. fold (sort_rows rows). by apply sort_insert_sorted.
Qed.

End Ranking.

(** ** GET /api/wines *)

Section Query.

Variable StringToNumber : string -> jsnum.
Variable sql_like : string -> string -> bool.

Local Abbreviation ordered := (select_ordered StringToNumber sql_like).
Local Abbreviation answer := (get_api_wines StringToNumber sql_like).
Local Abbreviation matches := (where_clause StringToNumber sql_like).
Local Abbreviation Number := (Js.Number StringToNumber).

Implicit Types (rq : wines_query) (d : database) (r a b : ranked)
  (rows : list ranked).

Lemma select_ordered_sorted rq d : StronglySorted not_after (ordered rq d).
Proof.
  unfold select_ordered. apply sort_rows_sorted.
Qed.

Lemma select_ordered_perm rq d :
  ordered rq d
  ≡ₚ filter (fun r => matches rq r = true) (map (joined d) (wines d)).
Proof. apply sort_rows_perm. Qed.

Lemma select_ordered_elem rq d r :
  r ∈ ordered rq d
  <-> matches rq r = true /\ exists w, w ∈ wines d /\ r = joined d w.
Proof.
  rewrite select_ordered_perm, list_elem_of_filter, list_elem_of_fmap.
  split; intros [? (w & ? & ?)]; eauto.
Qed.

Lemma limit_offset_parts n k rows :
  exists before after, rows = before ++ limit_offset n k rows ++ after.
Proof.
  unfold limit_offset. exists (take (Z.to_nat k) rows).
  destruct (n <? 0).
  - exists []. by rewrite app_nil_r, take_drop.
  - exists (drop (Z.to_nat n) (drop (Z.to_nat k) rows)).
    by rewrite !take_drop.
Qed.

Lemma limit_offset_sorted n k rows :
  StronglySorted not_after rows -> StronglySorted not_after (limit_offset n k rows).
Proof.
  destruct (limit_offset_parts n k rows) as (l1 & l2 & H). intros S.
  rewrite H in S.
  apply StronglySorted_app_1_r in S. by apply StronglySorted_app_1_l in S.
Qed.

Lemma limit_offset_elem n k rows r : r ∈ limit_offset n k rows -> r ∈ rows.
Proof.
  destruct (limit_offset_parts n k rows) as (l1 & l2 & H). intros Hr.
  rewrite H. rewrite !elem_of_app. auto.
Qed.

Lemma limit_offset_length n k rows :
  0 <= n -> (length (limit_offset n k rows) <= Z.to_nat n)%nat.
Proof.
  intros Hn. unfold limit_offset.
  destruct (n <? 0) eqn:E; [lia|]. rewrite length_take. lia.
Qed.

Lemma sorted_lookup (R : relation ranked) rows i j a b :
  StronglySorted R rows -> (i < j)%nat ->
  rows !! i = Some a -> rows !! j = Some b -> R a b.
Proof.
  intros S. revert i j. induction S as [|x l S IH Hx]; intros i j Hij Hi Hj; [done|].
  destruct j as [|j]; [lia|]. cbn in Hj.
  destruct i as [|i]; cbn in Hi.
  - injection Hi as <-. rewrite List.Forall_forall in Hx. apply Hx.
    apply list_elem_of_In, list_elem_of_lookup. eauto.
  - apply (IH i j); [lia|done|done].
Qed.

(** What the route answers: the ordered rows, or a window of them. *)
Lemma get_api_wines_Some rq d rows :
  answer rq d = Some rows ->
  rows = ordered rq d
  \/ exists n k, rows = limit_offset n k (ordered rq d).
Proof.
  unfold get_api_wines. destruct (truthy _).
  - destruct (sql_integer _) as [n|]; [|done].
    destruct (sql_integer _) as [k|]; [|done].
    intros [= <-]. right. eauto.
  - intros [= <-]. by left.
Qed.

Lemma get_api_wines_sorted rq d rows :
  answer rq d = Some rows -> StronglySorted not_after rows.
Proof.
  intros [->|(n & k & ->)]%get_api_wines_Some.
  - apply select_ordered_sorted.
  - apply limit_offset_sorted, select_ordered_sorted.
Qed.

Lemma get_api_wines_elem rq d rows r :
  answer rq d = Some rows -> r ∈ rows -> r ∈ ordered rq d.
Proof.
  intros [->|(n & k & ->)]%get_api_wines_Some; [done|].
  apply limit_offset_elem.
Qed.

(** The route answers unless LIMIT or OFFSET is given a number that is not
    an integer. *)
Lemma answer_is_Some rq d :
  is_Some (answer rq d)
  <-> truthy (lim_of StringToNumber rq) = false
      \/ (is_Some (sql_integer (Number (lim_of StringToNumber rq)))
          /\ is_Some (sql_integer (off_of StringToNumber rq))).
Proof.
  unfold get_api_wines. destruct (truthy _).
  - destruct (sql_integer _) as [n|], (sql_integer _) as [k|]; split;
      try (intros [?|[[? ?] [? ?]]]; done); try (intros [? ?]; done); eauto.
  - split; eauto.
Qed.

(** The adjustment of a joined row is the one on record for its wine, 0
    when there is none. *)
Lemma joined_pct_stored d (w : wine) :
  joined_pct d w = default 0%Q (adjustment_pct <$> admin_overrides d !! id w).
Proof. unfold joined_pct. by destruct (admin_overrides d !! id w). Qed.

(** C3. In every answer of GET /api/wines, a row that stands before
    another has the higher adjusted rating; or the same rating and more
    reviews; or the same rating and reviews and a price that is not higher,
    a row without a price standing after every priced one. The rating that
    ranks a row is the effective score of its wine, a wine of the table,
    under the adjustment on record for it (0 when none is), and the three
    criteria make a total preorder. The answer is a function of the request
    and of the database, and the rows that match are answered whenever no
    LIMIT is put, and in particular for [all]. *)
Theorem ranking_follows_order rq d :
  (forall rows i j a b,
     answer rq d = Some rows ->
     (i < j)%nat -> rows !! i = Some a -> rows !! j = Some b ->
     ranks_no_later a b)
  /\ (forall rows r,
       answer rq d = Some rows -> r ∈ rows ->
       r_wine r ∈ wines d
       /\ r_adjustment_pct r
          = default 0%Q (adjustment_pct <$> admin_overrides d !! id (r_wine r))
       /\ r_adjusted_rating r
          = spec_effectiveScore (vivino_rating (r_wine r)) (r_adjustment_pct r))
  /\ (forall a b, ranks_no_later a b \/ ranks_no_later b a)
  /\ (forall a b c, ranks_no_later a b -> ranks_no_later b c -> ranks_no_later a c)
  /\ (truthy (lim_of StringToNumber rq) = false -> answer rq d = Some (ordered rq d))
  /\ (truthy (param (q_all rq)) = true -> answer rq d = Some (ordered rq d))
  /\ StronglySorted ranks_no_later (ordered rq d).
Proof.
  split; [|split; [|split; [|split; [|split; [|split]]]]].
  - intros rows i j a b H Hij Hi Hj. apply not_after_iff.
    apply (sorted_lookup not_after rows i j); [|done..].
    by eapply get_api_wines_sorted.
  - intros rows r H Hr.
    apply (get_api_wines_elem _ _ _ _ H) in Hr.
    apply select_ordered_elem in Hr as (_ & w & Hw & ->).
    cbn [joined r_wine r_adjustment_pct r_adjusted_rating].
    split; [done|]. split; [apply joined_pct_stored|].
    apply adjusted_rating_expr_spec.
  - intros a b. apply ranks_no_later_total.
  - intros a b c. apply ranks_no_later_trans.
  - intros H. unfold get_api_wines. by rewrite H.
  - intros H. unfold get_api_wines, lim_of. by rewrite H.
  - generalize (select_ordered_sorted rq d).
    induction 1 as [|x l _ IH Hx]; constructor; [done|].
    eapply List.Forall_impl; [|exact Hx]. intros b. apply not_after_iff.
Qed.

Lemma truthy_param_false (o : option string) :
  truthy (param o) = false <-> o = None \/ o = Some EmptyString.
Proof.
  destruct o as [s|]; cbn; [|by split; eauto].
  rewrite negb_false_iff, String.eqb_eq. split; [intros ->; eauto|].
  by intros [?|[= ->]].
Qed.

Lemma lim_of_default rq :
  truthy (param (q_limit rq)) = false ->
  truthy (param (q_all rq)) = false ->
  lim_of StringToNumber rq = JNum (Fin (if truthy (param (q_aoc rq)) then 20 else 100)).
Proof.
  intros Hl Ha. unfold lim_of, js_or. by rewrite Ha, Hl.
Qed.

Lemma off_of_default rq :
  truthy (param (q_offset rq)) = false -> off_of StringToNumber rq = Fin 0.
Proof. intros Ho. unfold off_of, js_or. by rewrite Ho. Qed.

Lemma answer_default rq d :
  truthy (param (q_limit rq)) = false ->
  truthy (param (q_all rq)) = false ->
  answer rq d
  = match sql_integer (off_of StringToNumber rq) with
    | Some k =>
        Some (limit_offset (if truthy (param (q_aoc rq)) then 20 else 100) k
                (ordered rq d))
    | None => None
    end.
Proof.
  intros Hl Ha. unfold get_api_wines. rewrite lim_of_default by done.
  by destruct (truthy (param (q_aoc rq))).
Qed.

(** C5. A request without [limit] (and without [all]) is answered with at
    most 20 rows when an appellation is given and at most 100 rows when none
    is: the window is the first 20 or 100 of the ordered rows after the
    offset, and the request is answered for every integer offset and when no
    offset is given. With [all] the answer is every matching row. *)
Theorem default_window rq d :
  truthy (param (q_limit rq)) = false ->
  truthy (param (q_all rq)) = false ->
  (forall rows, answer rq d = Some rows ->
     (length rows <= if truthy (param (q_aoc rq)) then 20 else 100)%nat)
  /\ (forall k, sql_integer (off_of StringToNumber rq) = Some k ->
       answer rq d
       = Some (limit_offset (if truthy (param (q_aoc rq)) then 20 else 100) k
                 (ordered rq d)))
  /\ (truthy (param (q_offset rq)) = false ->
       answer rq d
       = Some (take (if truthy (param (q_aoc rq)) then 20 else 100)%nat (ordered rq d)))
  /\ (forall rq', truthy (param (q_all rq')) = true ->
       answer rq' d = Some (ordered rq' d)
       /\ ordered rq' d
          ≡ₚ filter (fun r => matches rq' r = true) (map (joined d) (wines d))).
Proof.
  intros Hl Ha. pose proof (answer_default rq d Hl Ha) as E.
  split; [|split; [|split]].
  - intros rows H. rewrite E in H.
    destruct (sql_integer (off_of StringToNumber rq)) as [k|]; [|done].
    injection H as <-.
    destruct (truthy (param (q_aoc rq)));
      [apply (limit_offset_length 20)|apply (limit_offset_length 100)]; lia.
  - intros k Hk. by rewrite E, Hk.
  - intros Ho. rewrite E, off_of_default by done.
    unfold limit_offset. by destruct (truthy (param (q_aoc rq))).
  - intros rq' H. split; [|apply select_ordered_perm].
    unfold get_api_wines, lim_of. by rewrite H.
Qed.

(** C10. A [limit] that converts to the number 0 puts no LIMIT and no
    OFFSET in the statement: whatever [offset] is, the answer is every
    matching row, in order, as it is for [all]. *)
Theorem limit_zero_is_no_limit rq d s z :
  truthy (param (q_all rq)) = false ->
  q_limit rq = Some s -> s <> EmptyString ->
  StringToNumber s = Fin z -> z == 0 ->
  forall o,
    answer (with_offset o rq) d = Some (ordered rq d)
    /\ ordered rq d ≡ₚ filter (fun r => matches rq r = true) (map (joined d) (wines d))
    /\ (forall rq', truthy (param (q_all rq')) = true ->
         answer (with_offset o rq') d = Some (ordered rq' d)).
Proof.
  intros Ha Hl Hs Hn Hz o. split; [|split; [apply select_ordered_perm|]].
  - unfold get_api_wines, lim_of. cbn [with_offset q_all q_limit q_aoc].
    rewrite Ha, Hl. unfold js_or. cbn [param truthy].
    apply String.eqb_neq in Hs. rewrite Hs. cbn [negb Js.Number]. rewrite Hn.
    cbn [truthy]. unfold Qzerob. apply Qeq_bool_iff in Hz. by rewrite Hz.
  - intros rq' H. unfold get_api_wines, lim_of. cbn [with_offset q_all].
    by rewrite H.
Qed.

Lemma sql_ge_iff (x y : jsnum) :
  sql_ge x y = true
  <-> x <> NaN /\ y <> NaN /\ (score_below y x \/ score_equal y x).
Proof.
  destruct x as [p| | |], y as [q| | |]; cbn;
    try (split; [done|intros (? & ? & [[]|[]]); done]);
    try (split; [intros _; repeat split; try done; tauto|done]).
  destruct (Qcompare_cases p q) as [[-> H]|[[-> H]|[-> H]]];
    (split; [intros G; repeat split; try done; first [done|lra]
            |intros (_ & _ & G); first [done|lra]]).
Qed.

Lemma sql_le_iff (x y : jsnum) :
  sql_le x y = true
  <-> x <> NaN /\ y <> NaN /\ (score_below x y \/ score_equal x y).
Proof.
  destruct x as [p| | |], y as [q| | |]; cbn;
    try (split; [done|intros (? & ? & [[]|[]]); done]);
    try (split; [intros _; repeat split; try done; tauto|done]).
  destruct (Qcompare_cases p q) as [[-> H]|[[-> H]|[-> H]]];
    (split; [intros G; repeat split; try done; first [done|lra]
            |intros (_ & _ & G); first [done|lra]]).
Qed.

Lemma sql_ge_at_least x (o : option string) :
  (if truthy (param o) then sql_ge x (Number (param o)) else true) = true
  <-> at_least x (supplied_bound StringToNumber o).
Proof.
  destruct o as [s|]; cbn; [|done].
  destruct (String.eqb s EmptyString); cbn; [done|].
  apply sql_ge_iff.
Qed.

Lemma sql_le_at_most x (o : option string) :
  (if truthy (param o) then sql_le x (Number (param o)) else true) = true
  <-> at_most x (supplied_bound StringToNumber o).
Proof.
  destruct o as [s|]; cbn; [|done].
  destruct (String.eqb s EmptyString); cbn; [done|].
  apply sql_le_iff.
Qed.

Lemma matches_bounds rq r :
  matches rq r = true
  <-> matches (without_bounds rq) r = true
      /\ at_least (r_adjusted_rating r) (supplied_bound StringToNumber (q_minRating rq))
      /\ at_most (r_adjusted_rating r) (supplied_bound StringToNumber (q_maxRating rq)).
Proof.
  unfold where_clause. cbn [without_bounds q_aoc q_q q_minRating q_maxRating param truthy].
  rewrite !andb_true_r, !andb_true_iff, sql_ge_at_least, sql_le_at_most.
  tauto.
Qed.

(** C8. A row is among the matching rows exactly when it passes the other
    filters and its adjusted rating is at least the supplied minimum and at
    most the supplied maximum, both inclusive; a bound is supplied by a
    non-empty parameter. The adjusted rating of a row is the effective
    score of its wine under the adjustment on record for it (0 when none
    is), not the base rating. Every row of every answer is within the
    bounds, and with [all] the answer is all of these rows. *)
Theorem score_bounds_on_adjusted rq d :
  (forall r,
     r ∈ ordered rq d
     <-> (exists w, w ∈ wines d /\ r = joined d w)
         /\ matches (without_bounds rq) r = true
         /\ at_least (r_adjusted_rating r) (supplied_bound StringToNumber (q_minRating rq))
         /\ at_most (r_adjusted_rating r) (supplied_bound StringToNumber (q_maxRating rq)))
  /\ (forall rows r,
       answer rq d = Some rows -> r ∈ rows ->
       at_least (r_adjusted_rating r) (supplied_bound StringToNumber (q_minRating rq))
       /\ at_most (r_adjusted_rating r) (supplied_bound StringToNumber (q_maxRating rq)))
  /\ (forall w,
       r_adjusted_rating (joined d w)
       = spec_effectiveScore (vivino_rating w)
           (default 0%Q (adjustment_pct <$> admin_overrides d !! id w)))
  /\ (truthy (param (q_all rq)) = true -> answer rq d = Some (ordered rq d)).
Proof.
  split; [|split; [|split]].
  - intros r. rewrite select_ordered_elem, matches_bounds. tauto.
  - intros rows r H Hr.
    apply (get_api_wines_elem _ _ _ _ H) in Hr.
    apply select_ordered_elem in Hr as [Hm _].
    apply matches_bounds in Hm. tauto.
  - intros w. cbn [joined r_adjusted_rating]. rewrite <- joined_pct_stored.
    apply adjusted_rating_expr_spec.
  - intros H. unfold get_api_wines, lim_of. by rewrite H.
Qed.

End Query.

(** ** POST /api/admin/override *)

Section OverrideRoute.

Variable StringToNumber : string -> jsnum.

Local Abbreviation override_route := (post_admin_override StringToNumber).
Local Abbreviation Number := (Js.Number StringToNumber).

Implicit Types (d : database) (v : jsval) (q : Q).

Lemma override_route_out_of_range now i v q d :
  i <> 0 -> is_undefined v = false -> Number v = Fin q ->
  (q < -25 \/ 25 < q)%Q ->
  override_route now (mk_override_body (Some i) v) d = (Status400_out_of_range, d).
Proof.
  intros Hi Hv Hn Hq. unfold post_admin_override. cbn [b_wine_id b_adjustment_pct truthy_id].
  apply Z.eqb_neq in Hi. rewrite Hi, Hv, Hn. cbn [negb orb].
  destruct Hq as [Hq|Hq].
  - apply Qltb_true in Hq. by rewrite Hq.
  - apply Qgtb_true in Hq. by rewrite Hq, orb_true_r.
Qed.

Lemma override_route_in_range now i v q d :
  i <> 0 -> is_undefined v = false -> Number v = Fin q ->
  (-25 <= q <= 25)%Q ->
  override_route now (mk_override_body (Some i) v) d
  = match getWineById i d with
    | Some _ =>
        (Status200_wine
           (option_map (joined (override_written now i q d))
              (getWineById i (override_written now i q d))),
         override_written now i q d)
    | None => (Status404_not_found, d)
    end.
Proof.
  intros Hi Hv Hn [Hlo Hhi]. unfold post_admin_override.
  cbn [b_wine_id b_adjustment_pct truthy_id].
  apply Z.eqb_neq in Hi. rewrite Hi, Hv, Hn. cbn [negb orb default].
  apply Qltb_false in Hlo. apply Qgtb_false in Hhi. rewrite Hlo, Hhi.
  cbn [orb]. unfold Datatypes.id.
  destruct (getWineById i d) as [w|] eqn:E; [|done].
  by rewrite (upsertOverride_found now i q d w E).
Qed.

(** C4. The route answers 400 to every adjustment whose number is above 25
    or below -25, and leaves the database as it was: nothing is clamped and
    nothing is written (without a [wine_id] the 400 is the one that asks for
    it). An adjustment within [-25, 25], bounds included, is
    not rejected: for a wine of the table the override is stored with the
    number as given and the joined row is answered; for an unknown
    [wine_id] the answer is 404. In particular 25.1 and -25.1 are rejected,
    25 and -25 are stored. *)
Theorem override_range_validated now i v q d :
  i <> 0 -> is_undefined v = false -> Number v = Fin q ->
  let body := mk_override_body (Some i) v in
  ((q < -25 \/ 25 < q)%Q ->
     override_route now body d = (Status400_out_of_range, d))
  /\ ((-25 <= q <= 25)%Q ->
      forall w, getWineById i d = Some w ->
        upsertOverride now i q d = Some (override_route now body d).2
        /\ admin_overrides (override_route now body d).2 !! i = Some (mk_override q now)
        /\ wines (override_route now body d).2 = wines d
        /\ (override_route now body d).1
           = Status200_wine (Some (mk_ranked w q (adjusted_rating_expr (vivino_rating w) q))))
  /\ ((-25 <= q <= 25)%Q -> getWineById i d = None ->
      override_route now body d = (Status404_not_found, d))
  /\ ((q < -25 \/ 25 < q)%Q ->
      forall wine_id,
        (override_route now (mk_override_body wine_id v) d).2 = d
        /\ ((override_route now (mk_override_body wine_id v) d).1 = Status400_out_of_range
            \/ (override_route now (mk_override_body wine_id v) d).1 = Status400_required))
  /\ (forall x, x = (251 # 10)%Q \/ x = (- (251 # 10))%Q ->
      override_route now (mk_override_body (Some i) (JNum (Fin x))) d
      = (Status400_out_of_range, d))
  /\ (forall x w, x = 25%Q \/ x = (-25)%Q -> getWineById i d = Some w ->
      admin_overrides
        (override_route now (mk_override_body (Some i) (JNum (Fin x))) d).2 !! i
      = Some (mk_override x now)).
Proof.
  intros Hi Hv Hn body. subst body.
  assert (Hid : forall w x, getWineById i d = Some w ->
            getWineById i (override_written now i x d) = Some w) by done.
  split; [|split; [|split; [|split; [|split]]]].
  - by apply override_route_out_of_range.
  - intros Hq w Hw. rewrite (override_route_in_range now i v q d) by done.
    rewrite Hw. cbn [fst snd]. split; [by eapply upsertOverride_found|]. split.
    + cbn. apply lookup_insert_eq.
    + split; [done|]. rewrite (Hid w q Hw). cbn [option_map]. do 2 f_equal.
      unfold joined. cbn [r_wine]. f_equal.
      * unfold joined_pct, override_written. cbn [admin_overrides].
        unfold getWineById in Hw. apply find_some in Hw as [_ Hw].
        apply Z.eqb_eq in Hw. by rewrite Hw, lookup_insert_eq.
      * unfold joined_pct, override_written. cbn [admin_overrides].
        unfold getWineById in Hw. apply find_some in Hw as [_ Hw].
        apply Z.eqb_eq in Hw. by rewrite Hw, lookup_insert_eq.
  - intros Hq Hw. rewrite (override_route_in_range now i v q d) by done.
    by rewrite Hw.
  - intros Hq wine_id. destruct (truthy_id wine_id) eqn:Ht.
    + destruct wine_id as [j|]; [|done].
      assert (j <> 0) as Hj by (intros ->; done).
      rewrite (override_route_out_of_range now j v q d) by done. auto.
    + unfold post_admin_override. cbn [b_wine_id]. rewrite Ht. cbn. auto.
  - intros x Hx. apply (override_route_out_of_range now i _ x); [done..|].
    destruct Hx as [-> | ->]; [right|left]; reflexivity.
  - intros x w Hx Hw.
    rewrite (override_route_in_range now i _ x) by
      (try done; destruct Hx as [-> | ->]; split; discriminate).
    rewrite Hw. cbn. apply lookup_insert_eq.
Qed.

(** What is not a finite number is answered 400 as well. *)
Lemma override_route_not_a_number now i v d :
  i <> 0 -> is_undefined v = false -> isFinite (Number v) = false ->
  override_route now (mk_override_body (Some i) v) d = (Status400_not_a_number, d).
Proof.
  intros Hi Hv Hn. unfold post_admin_override. cbn [b_wine_id b_adjustment_pct truthy_id].
  apply Z.eqb_neq in Hi. rewrite Hi, Hv. cbn [negb orb].
  by destruct (Number v).
Qed.

(** Whatever the body, a request that is not answered 200 writes nothing. *)
Lemma override_route_rejects_unchanged now body d :
  (forall row, (override_route now body d).1 <> Status200_wine row) ->
  (override_route now body d).2 = d.
Proof.
  unfold post_admin_override.
  destruct (negb _ || _); [done|].
  destruct (Number _) as [q| | |]; try done.
  destruct (Qltb _ _ || Qgtb _ _); [done|].
  destruct (getWineById _ d); [|done].
  destruct (upsertOverride _ _ _ d); [|done].
  intros H. cbn in H. by destruct (H _ eq_refl).
Qed.

End OverrideRoute.

(** ** The daily check *)

Section Scheduler.

Variable StringToNumber : string -> jsnum.

Local Abbreviation check := (refresh_check StringToNumber).
Local Abbreviation seed_params := (seed_params StringToNumber).

Implicit Types (d : database) (now : time).

Lemma diff_days_due now last :
  75 <= diff_days now last <-> 75 * MILLISECONDS_A_DAY <= now - last.
Proof.
  unfold diff_days, MILLISECONDS_A_DAY.
  pose proof (Z.quot_rem' (now - last) 86400000) as E.
  destruct (Z_le_gt_dec 0 (now - last)) as [H|H].
  - pose proof (Z.rem_bound_pos (now - last) 86400000 H ltac:(lia)). lia.
  - pose proof (Z.rem_bound_abs (now - last) 86400000 ltac:(lia)).
    pose proof (Z.rem_nonpos (now - last) 86400000 ltac:(lia) ltac:(lia)). lia.
Qed.

Lemma daysSince_due now d :
  75 <= daysSince now d
  <-> last_refresh d = None
      \/ exists last, last_refresh d = Some last
                      /\ 75 * MILLISECONDS_A_DAY <= now - last.
Proof.
  unfold daysSince, getMeta_last_refresh. destruct (last_refresh d) as [l|].
  - rewrite diff_days_due. split.
    + intros H. right. eauto.
    + intros [?|(l' & [= <-] & ?)]; done.
  - split; [by left|lia].
Qed.

(** C7, as the code has it. The check is due when there is no
    [last_refresh], or when at least 75 days of 86400000 ms have passed
    since. When it is not due nothing changes. When it is due and the seed
    file parses to rows that the table accepts, the rows are upserted and
    [last_refresh] becomes [now]; when it is due and the seed file is not
    there, does not parse, or holds a row that the table refuses, nothing
    changes either. *)
Theorem refresh_check_due now file d :
  (75 <= daysSince now d
   <-> last_refresh d = None
       \/ exists last, last_refresh d = Some last
                       /\ 75 * MILLISECONDS_A_DAY <= now - last)
  /\ (daysSince now d < 75 -> check now file d = d)
  /\ (75 <= daysSince now d ->
      forall arr vs,
        file = Seed_rows arr -> all_values (map (seed_params now) arr) = Some vs ->
        check now file d
        = mk_database (fold_rows now vs (wines d)) (admin_overrides d) (Some now))
  /\ (75 <= daysSince now d ->
      file = No_file \/ file = Bad_file
      \/ (exists arr, file = Seed_rows arr
                      /\ all_values (map (seed_params now) arr) = None) ->
      check now file d = d)
  /\ (forall last, last_refresh d = Some last ->
        (now - last = 74 * MILLISECONDS_A_DAY -> check now file d = d)
        /\ (now - last = 75 * MILLISECONDS_A_DAY -> 75 <= daysSince now d)).
Proof.
  split; [apply daysSince_due|]. split; [|split; [|split]].
  - intros H. unfold refresh_check. apply Z.leb_gt in H. by rewrite H.
  - intros H arr vs -> Hvs. unfold refresh_check. apply Z.leb_le in H. rewrite H.
    cbn. by rewrite (run_upserts_Some now _ vs).
  - intros H Hf. unfold refresh_check. apply Z.leb_le in H. rewrite H.
    destruct Hf as [->|[->|(arr & -> & Hn)]]; [done..|].
    cbn. by rewrite run_upserts_None.
  - intros last Hl. split.
    + intros E. unfold refresh_check.
      assert (daysSince now d < 75) as H; [|apply Z.leb_gt in H; by rewrite H].
      apply Z.nle_gt. rewrite daysSince_due. intros [?|(l & ? & ?)]; [congruence|].
      assert (l = last) as -> by congruence. unfold MILLISECONDS_A_DAY in *. lia.
    + intros E. apply daysSince_due. right. exists last. split; [done|lia].
Qed.

End Scheduler.

(** ** GET /api/aocs *)

Section Appellations.

Implicit Types (a b x : string) (g : list (string * Z)) (ws : list wine).

Lemma ascii_compare_lt_trans (c1 c2 c3 : Ascii.ascii) :
  Ascii.compare c1 c2 = Lt -> Ascii.compare c2 c3 = Lt -> Ascii.compare c1 c3 = Lt.
Proof.
  unfold Ascii.compare. rewrite !N.compare_lt_iff. lia.
Qed.

Lemma string_compare_refl a : String.compare a a = Eq.
Proof.
  pose proof (String.compare_antisym a a) as H.
  by destruct (String.compare a a).
Qed.

Lemma string_lt_irrefl a : ~ string_lt a a.
Proof. unfold string_lt. by rewrite string_compare_refl. Qed.

Lemma string_lt_trans a b c : string_lt a b -> string_lt b c -> string_lt a c.
Proof.
  unfold string_lt. revert b c.
  induction a as [|c1 a IH]; intros [|c2 b] [|c3 c]; cbn; try done.
  destruct (Ascii.compare c1 c2) eqn:E12; try done;
    destruct (Ascii.compare c2 c3) eqn:E23; try done; intros H1 H2.
  - apply Ascii.compare_eq_iff in E12, E23. subst.
    rewrite (proj2 (N.compare_eq_iff _ _) eq_refl : Ascii.compare c3 c3 = Eq).
    by eapply IH.
  - apply Ascii.compare_eq_iff in E12. subst. by rewrite E23.
  - apply Ascii.compare_eq_iff in E23. subst. by rewrite E12.
  - by rewrite (ascii_compare_lt_trans _ _ _ E12 E23).
Qed.

Lemma string_compare_gt a b : String.compare a b = Gt -> string_lt b a.
Proof.
  unfold string_lt. rewrite (String.compare_antisym b a). by intros ->.
Qed.

Lemma string_lt_neq a b : string_lt a b -> a <> b.
Proof. intros H ->. by apply string_lt_irrefl in H. Qed.

Lemma group_insert_Forall (P : string -> Prop) a g :
  P a -> Forall (fun y => P y.1) g -> Forall (fun y => P y.1) (group_insert a g).
Proof.
  intros Ha. induction g as [|[b n] g IH]; intros H; cbn.
  - by constructor.
  - apply Forall_cons in H as [Hb Hg]. destruct (String.compare a b) eqn:E.
    + by constructor.
    + constructor; [done|]. by constructor.
    + constructor; [done|]. by apply IH.
Qed.

Lemma group_insert_ok a g : groups_ok g -> groups_ok (group_insert a g).
Proof.
  intros [Hs Hp]. induction g as [|[b n] g IH]; cbn.
  - split; repeat constructor.
  - apply StronglySorted_inv in Hs as [Hs Hb]. apply Forall_cons in Hp as [Hn Hp].
    cbn in Hn. destruct (String.compare a b) eqn:E.
    + split; constructor; try done. cbn. lia.
    + split.
      * constructor; [by constructor|]. constructor; [done|].
        eapply Forall_impl; [exact Hb|]. intros y Hy. cbn in *.
        by eapply string_lt_trans.
      * constructor; [done|]. by constructor.
    + destruct (IH Hs Hp) as [IHs IHp]. split.
      * constructor; [done|].
        apply (group_insert_Forall (fun y => string_lt b y)); [|done].
        by apply string_compare_gt.
      * by constructor.
Qed.

Lemma group_count_absent a g :
  Forall (fun y => string_lt a y.1) g -> group_count a g = 0.
Proof.
  induction 1 as [|[b n] g Hb _ IH]; [done|]. cbn in *.
  apply string_lt_neq, String.eqb_neq in Hb. by rewrite Hb.
Qed.

Lemma group_count_insert x a g :
  groups_ok g ->
  group_count x (group_insert a g)
  = group_count x g + (if String.eqb x a then 1 else 0).
Proof.
  intros [Hs _]. induction g as [|[b n] g IH]; cbn.
  - destruct (String.eqb x a); lia.
  - apply StronglySorted_inv in Hs as [Hs Hb].
    destruct (String.compare a b) eqn:E; cbn.
    + apply String.compare_eq_iff in E as ->.
      destruct (String.eqb x b); [lia|]. lia.
    + destruct (String.eqb x a) eqn:Exa; [|lia].
      apply String.eqb_eq in Exa as ->.
      assert (string_lt a b) as Hab by exact E.
      pose proof (string_lt_neq _ _ Hab) as Hne. apply String.eqb_neq in Hne.
      rewrite Hne. rewrite group_count_absent; [lia|].
      eapply Forall_impl; [exact Hb|]. intros y Hy. cbn in *.
      by eapply string_lt_trans.
    + destruct (String.eqb x b) eqn:Exb; [|by apply IH].
      apply String.eqb_eq in Exb as ->.
      apply string_compare_gt, string_lt_neq, String.eqb_neq in E.
      rewrite E. lia.
Qed.

Lemma group_insert_names x a g :
  x ∈ map fst (group_insert a g) <-> x = a \/ x ∈ map fst g.
Proof.
  induction g as [|[b n] g IH]; cbn.
  - rewrite list_elem_of_singleton. split; [auto|]. intros [?|H]; [done|by inversion H].
  - destruct (String.compare a b) eqn:E; cbn.
    + apply String.compare_eq_iff in E as ->. rewrite !elem_of_cons. tauto.
    + rewrite !elem_of_cons. tauto.
    + rewrite !elem_of_cons, IH. tauto.
Qed.

Lemma groups_count_elem a n g :
  groups_ok g -> (a, n) ∈ g -> group_count a g = n /\ 0 < n.
Proof.
  intros [Hs Hp] Hin. induction g as [|[b m] g IH]; [by inversion Hin|].
  apply StronglySorted_inv in Hs as [Hs Hb]. apply Forall_cons in Hp as [Hm Hp].
  cbn. apply elem_of_cons in Hin as [[= -> ->]|Hin].
  - by rewrite String.eqb_refl.
  - rewrite Forall_forall in Hb. pose proof (Hb _ Hin) as Hlt. cbn in Hlt.
    apply string_lt_neq in Hlt. assert (a <> b) as Hne by congruence.
    apply String.eqb_neq in Hne. rewrite Hne. by apply IH.
Qed.

Lemma wines_of_cons a w ws :
  wines_of a (w :: ws) = (if String.eqb a (aoc w) then 1 else 0) + wines_of a ws.
Proof.
  unfold wines_of. rewrite filter_cons.
  destruct (decide (aoc w = a)) as [->|Hne].
  - rewrite String.eqb_refl. cbn [length]. lia.
  - assert (a <> aoc w) as Hne' by congruence.
    apply String.eqb_neq in Hne'. rewrite Hne'. lia.
Qed.

Lemma groups_fold ws g :
  groups_ok g ->
  let g' := fold_left (fun g w => group_insert (aoc w) g) ws g in
  groups_ok g'
  /\ (forall x, group_count x g' = group_count x g + wines_of x ws)
  /\ (forall x, x ∈ map fst g' <-> x ∈ map fst g \/ exists w, w ∈ ws /\ aoc w = x).
Proof.
  revert g. induction ws as [|w ws IH]; intros g Hg; cbn.
  - split; [done|]. split; [intros x; unfold wines_of; cbn; lia|].
    intros x. split; [auto|]. intros [?|(w & Hw & _)]; [done|by inversion Hw].
  - destruct (IH (group_insert (aoc w) g) (group_insert_ok _ _ Hg)) as (Hok & Hc & Hn).
    split; [done|]. split.
    + intros x. rewrite Hc, group_count_insert, wines_of_cons by done. lia.
    + intros x. rewrite Hn, group_insert_names. split.
      * intros [[->|?]|(w' & Hw' & <-)]; [right; exists w; split; [left|done]|by left|].
        right. exists w'. split; [by right|done].
      * intros [?|(w' & [->|Hw']%elem_of_cons & <-)]; [left; by right|left; by left|].
        right. eauto.
Qed.

(** C9, as the code has it. The answer is the list of the appellations of
    the wines in the table, each once, in strictly ascending order of the
    name. The statement also counts the wines of each appellation, but the
    route sends the names only. *)
Theorem aocs_names_ascending d :
  get_api_aocs d = map fst (select_aoc_groups d)
  /\ StronglySorted string_lt (get_api_aocs d)
  /\ NoDup (get_api_aocs d)
  /\ (forall a, a ∈ get_api_aocs d <-> exists w, w ∈ wines d /\ aoc w = a)
  /\ (forall a n, (a, n) ∈ select_aoc_groups d -> n = wines_of a (wines d) /\ 0 < n).
Proof.
  assert (groups_ok []) as H0 by (split; constructor).
  destruct (groups_fold (wines d) [] H0) as (Hok & Hc & Hn). cbn zeta in *.
  fold (select_aoc_groups d) in Hok, Hc, Hn.
  assert (Hs : StronglySorted string_lt (get_api_aocs d)).
  { unfold get_api_aocs.
    apply (StronglySorted_fmap fst (fun y z => string_lt y.1 z.1) string_lt);
      [done|apply Hok]. }
  split; [done|]. split; [done|]. split; [|split].
  - induction Hs as [|x l Hs IH Hx]; constructor; [|done].
    intros Hin. rewrite List.Forall_forall in Hx.
    apply list_elem_of_In, Hx in Hin. by apply string_lt_irrefl in Hin.
  - intros a. unfold get_api_aocs. rewrite Hn. split.
    + intros [H|?]; [by inversion H|done].
    + auto.
  - intros a n Hin. destruct (groups_count_elem a n _ Hok Hin) as [E Hp].
    split; [|done]. rewrite <- E, Hc. cbn. lia.
Qed.

End Appellations.

(** ** The properties on the sample data *)

Section Scenarios.

Import Sample.

Local Open Scope string_scope.

Local Abbreviation answer := (get_api_wines Sample.StringToNumber Sample.sql_like).

(** The scenario of the spec: W1 rated 4.0 with an override of 10 ranks at
    4.4; imported again as W1-renamed rated 4.2 it keeps its rowid and its
    override and ranks at 4.620000000000001, the double that the product of
    4.2 and 1.1 is rounded to. *)
Example scenario_override_survives_import :
  (map (fun r => (id (r_wine r), name (r_wine r), r_adjustment_pct r,
                  r_adjusted_rating r))
     <$> answer (mk_wines_query (Some "Pauillac") None None None None None None)
           after_override)
  = Some [(1, "W1", 10%Q, Fin (2476979795053773 # 562949953421312))]
  /\ (map (fun r => (id (r_wine r), name (r_wine r), r_adjustment_pct r,
                     r_adjusted_rating r))
        <$> answer (mk_wines_query (Some "Pauillac") None None None None None None)
              after_rename)
     = Some [(1, "W1-renamed", 10%Q, Fin (1300414392403231 # 281474976710656))]
  /\ admin_overrides after_rename = admin_overrides after_override.
Proof. by vm_compute. Qed.

(** The adjusted rating on some doubles: 4.4 and 4.620000000000001 for an
    adjustment of 10 on 4 and on 4.2, 3.5000000000000004 for 12 on 3.125,
    the saturated 5 and 3 for 26 and -30 on 4, and an infinity where the
    product is beyond the doubles. *)
Example adjusted_ratings_of_doubles :
  adjusted_rating_expr 4 10 = Fin (2476979795053773 # 562949953421312)
  /\ adjusted_rating_expr double_4_2 10 = Fin (1300414392403231 # 281474976710656)
  /\ adjusted_rating_expr (42 # 10) 10 = Fin (1300414392403231 # 281474976710656)
  /\ adjusted_rating_expr (25 # 8) 12 = Fin (7881299347898369 # 2251799813685248)
  /\ adjusted_rating_expr 4 26 = Fin 5
  /\ adjusted_rating_expr 4 (-30) = Fin 3
  /\ adjusted_rating_expr (inject_Z (17 * 10 ^ 307)) 25 = PInf
  /\ adjustedRating Sample.StringToNumber (mk_js_row (JNum (Fin 12)) (JNum (Fin (25 # 8))))
     = Fin (7881299347898369 # 2251799813685248)
  /\ adjustedRating Sample.StringToNumber (mk_js_row JNull (JStr "4.2")) = Fin double_4_2.
Proof. repeat split; by vm_compute. Qed.


(** Twenty of the twenty-five wines of Margaux, all twenty-six wines
    without appellation, and all twenty-five with [limit=0&offset=5]. *)
Example scenario_windows :
  length <$> answer margaux cellar = Some 20%nat
  /\ length <$> answer no_params cellar = Some 26%nat
  /\ length <$> answer margaux_limit_0 cellar = Some 25%nat.
Proof. by vm_compute. Qed.

Lemma ranking_follows_order_witness :
  (map (fun r => (name (r_wine r), r_adjustment_pct r, r_adjusted_rating r))
     <$> answer no_params close_call)
  = Some [("G2", 12%Q, Fin (7881299347898369 # 2251799813685248)); ("G1", 0%Q, Fin (7 # 2))]
  /\ (map (fun r => name (r_wine r)) <$> answer no_params graves) = Some ["G1"; "G2"]
  /\ (map (fun r => name (r_wine r)) <$> answer no_params ties) = Some ["B"; "A"]
  /\ forall a b,
       answer no_params close_call = Some [a; b] ->
       ranks_no_later a b
       /\ r_adjusted_rating a
          = spec_effectiveScore (vivino_rating (r_wine a))
              (default 0%Q (adjustment_pct <$> admin_overrides close_call !! id (r_wine a))).
Proof.
  split; [by vm_compute|]. split; [by vm_compute|]. split; [by vm_compute|].
  intros a b H.
  destruct (ranking_follows_order Sample.StringToNumber Sample.sql_like no_params close_call)
    as (H1 & H2 & _).
  split; [exact (H1 [a; b] 0%nat 1%nat a b H (le_n 1) eq_refl eq_refl)|].
  destruct (H2 [a; b] a H) as (_ & E & E'); [apply list_elem_of_here|].
  by rewrite <- E.
Defined.

Lemma import_is_idempotent_witness :
  unique_keys after_override
  /\ same_batch [w1_renamed; tie_a] [restamped 5000 w1_renamed; restamped 5000 tie_a]
  /\ map strip
       (wines (post_admin_import 5000 [restamped 5000 w1_renamed; restamped 5000 tie_a]
                 (post_admin_import 3000 [w1_renamed; tie_a] after_override).2).2)
     = map strip (wines (post_admin_import 3000 [w1_renamed; tie_a] after_override).2).
Proof.
  assert (U : unique_keys after_override) by (vm_compute; apply NoDup_singleton).
  assert (B : same_batch [w1_renamed; tie_a]
                [restamped 5000 w1_renamed; restamped 5000 tie_a]) by reflexivity.
  split; [exact U|]. split; [exact B|].
  exact (proj1 (proj2 (proj2 (proj2 (proj2
           (import_is_idempotent 3000 5000 _ _ after_override U B)))))).
Defined.

Lemma default_window_witness :
  truthy (param (q_limit margaux)) = false
  /\ truthy (param (q_all margaux)) = false
  /\ (forall rows, answer margaux cellar = Some rows -> (length rows <= 20)%nat)
  /\ answer margaux cellar = Some (take 20 (select_ordered Sample.StringToNumber Sample.sql_like margaux cellar)).
Proof.
  split; [reflexivity|]. split; [reflexivity|].
  pose proof (default_window Sample.StringToNumber Sample.sql_like margaux cellar
                eq_refl eq_refl) as (H1 & _ & H3 & _).
  split; [exact H1|exact (H3 eq_refl)].
Defined.

Lemma limit_zero_is_no_limit_witness :
  Sample.StringToNumber "0" = Fin 0
  /\ answer margaux_limit_0 cellar
     = Some (select_ordered Sample.StringToNumber Sample.sql_like margaux_limit_0 cellar).
Proof.
  split; [reflexivity|].
  exact (proj1 (limit_zero_is_no_limit Sample.StringToNumber Sample.sql_like
                  margaux_limit_0 cellar "0" 0 eq_refl eq_refl ltac:(discriminate)
                  eq_refl (Qeq_refl 0) (Some "5"))).
Defined.

Lemma override_range_validated_witness :
  post_admin_override Sample.StringToNumber 2000
    (mk_override_body (Some 1) (JNum (Fin (251 # 10)))) after_w1
  = (Status400_out_of_range, after_w1)
  /\ admin_overrides
       (post_admin_override Sample.StringToNumber 2000
          (mk_override_body (Some 1) (JNum (Fin 25))) after_w1).2 !! 1
     = Some (mk_override 25 2000).
Proof.
  split.
  - exact (proj1 (override_range_validated Sample.StringToNumber 2000 1
                    (JNum (Fin (251 # 10))) (251 # 10) after_w1
                    ltac:(discriminate) eq_refl eq_refl)
             (or_intror eq_refl)).
  - destruct (override_range_validated Sample.StringToNumber 2000 1
                (JNum (Fin 25)) 25 after_w1 ltac:(discriminate) eq_refl eq_refl)
      as (_ & _ & _ & _ & _ & H).
    eapply (H 25%Q); [left; reflexivity|vm_compute; reflexivity].
Defined.

Lemma score_bounds_on_adjusted_witness :
  (map (fun r => (name (r_wine r), vivino_rating (r_wine r)))
     <$> answer pauillac_min_4_2 after_override) = Some [("W1", 4%Q)]
  /\ answer pauillac_min_4_2 after_w1 = Some []
  /\ (map (fun r => name (r_wine r)) <$> answer graves_max_3_5 graves)
     = Some ["G1"; "G2"]
  /\ (map (fun r => name (r_wine r)) <$> answer graves_max_3_5 close_call)
     = Some ["G1"]
  /\ forall r, r ∈ select_ordered Sample.StringToNumber Sample.sql_like
                     pauillac_min_4_2 after_override ->
               at_least (r_adjusted_rating r) (Some (Fin double_4_2)).
Proof.
  split; [by vm_compute|]. split; [by vm_compute|].
  split; [by vm_compute|]. split; [by vm_compute|]. intros r Hr.
  apply (proj1 (score_bounds_on_adjusted Sample.StringToNumber Sample.sql_like
                  pauillac_min_4_2 after_override)) in Hr.
  exact (proj1 (proj2 (proj2 Hr))).
Defined.

Lemma refresh_check_due_witness :
  last_refresh after_w1 = Some 1000
  /\ last_refresh
       (refresh_check Sample.StringToNumber (1000 + 75 * MILLISECONDS_A_DAY)
          (Seed_rows [seed_w1]) after_w1)
     = Some (1000 + 75 * MILLISECONDS_A_DAY)
  /\ refresh_check Sample.StringToNumber (1000 + 74 * MILLISECONDS_A_DAY)
       (Seed_rows [seed_w1]) after_w1 = after_w1.
Proof.
  split; [reflexivity|].
  pose proof (refresh_check_due Sample.StringToNumber (1000 + 75 * MILLISECONDS_A_DAY)
                (Seed_rows [seed_w1]) after_w1) as (_ & _ & H & _).
  pose proof (refresh_check_due Sample.StringToNumber (1000 + 74 * MILLISECONDS_A_DAY)
                (Seed_rows [seed_w1]) after_w1) as (_ & H' & _).
  split.
  - erewrite H; [reflexivity|by vm_compute|reflexivity|reflexivity].
  - apply H'. by vm_compute.
Defined.

(** Seventy-five days after the import of W1, and with no seed file, the
    check is due and calls [refreshVivinoData], which skips: nothing is
    ingested and [last_refresh] stays at the time of the import. The same
    holds when there is no [last_refresh] at all. *)
Lemma refresh_due_without_seed_file :
  last_refresh after_w1 = Some 1000
  /\ 75 <= daysSince (1000 + 75 * MILLISECONDS_A_DAY) after_w1
  /\ refresh_check Sample.StringToNumber (1000 + 75 * MILLISECONDS_A_DAY) No_file after_w1
     = after_w1
  /\ last_refresh
       (refresh_check Sample.StringToNumber (1000 + 75 * MILLISECONDS_A_DAY) No_file
          after_w1)
     <> Some (1000 + 75 * MILLISECONDS_A_DAY)
  /\ last_refresh (refresh_check Sample.StringToNumber 1000 No_file empty_db) = None.
Proof. repeat split; by vm_compute. Qed.

(** Two tables with one and with two wines of Margaux: the statement counts
    1 and 2, the route answers the same list of names. *)
Lemma aocs_answer_has_no_counts :
  select_aoc_groups after_w1 = [("Pauillac", 1)]
  /\ select_aoc_groups (post_admin_import 1000 [w1; tie_a; tie_b] empty_db).2
     = [("Margaux", 2); ("Pauillac", 1)]
  /\ select_aoc_groups ties = [("Margaux", 2)]
  /\ select_aoc_groups (post_admin_import 1000 [tie_a] empty_db).2 = [("Margaux", 1)]
  /\ get_api_aocs ties = ["Margaux"]
  /\ get_api_aocs (post_admin_import 1000 [tie_a] empty_db).2 = ["Margaux"].
Proof. by vm_compute. Qed.

End Scenarios.

(** * Further properties of the server *)

(** ** The adjusted rating *)

Section AdjustedRating.

Variable StringToNumber : string -> jsnum.

Lemma sanitize_or_zero_any (v : jsval) :
  exists q, Js.sanitizeNumber StringToNumber (js_or v (JNum (Fin 0))) (JNum (Fin 0))
            = JNum (Fin q).
Proof.
  unfold Js.sanitizeNumber.
  destruct (Js.Number StringToNumber (js_or v (JNum (Fin 0)))) as [q| | |]; cbn; eauto.
Qed.

Lemma clamp_case_monotone p p' : (p <= p')%Q -> (clamp_case p <= clamp_case p')%Q.
Proof.
  intros H. rewrite !clamp_case_spec.
  destruct (spec_clamp_cases p) as [[? E]|[[? E]|[? E]]];
    destruct (spec_clamp_cases p') as [[? E']|[[? E']|[? E']]];
    rewrite E, E'; lra.
Qed.

(** Between two doubles a rational is rounded to a double between them. *)
Lemma round64_within (lo hi q : Q) :
  round64 lo = Fin lo -> round64 hi = Fin hi -> (lo <= q <= hi)%Q ->
  exists x, round64 q = Fin x /\ (lo <= x <= hi)%Q.
Proof.
  intros Hlo Hhi [H1 H2].
  pose proof (round64_mono lo q H1) as L. pose proof (round64_mono q hi H2) as U.
  rewrite Hlo in L. rewrite Hhi in U.
  destruct (round64 q) as [x| | |]; try done. by exists x.
Qed.

(** The hundredth of two clamped adjustments. *)
Lemma quotient_mono (c c' : Q) :
  (-25 <= c)%Q -> (c <= c')%Q -> (c' <= 25)%Q ->
  exists g g',
    js_div (Fin c) (Fin 100) = Fin g /\ js_div (Fin c') (Fin 100) = Fin g'
    /\ (- (1 # 4) <= g)%Q /\ (g <= g')%Q /\ (g' <= 1 # 4)%Q
    /\ round64 g = Fin g /\ round64 g' = Fin g'.
Proof.
  intros H1 H2 H3.
  assert (Blo : round64 (-25) = Fin (-25)) by (by vm_compute).
  assert (Bhi : round64 25 = Fin 25) by (by vm_compute).
  assert (Qlo : round64 (- (1 # 4)) = Fin (- (1 # 4))) by (by vm_compute).
  assert (Qhi : round64 (1 # 4) = Fin (1 # 4)) by (by vm_compute).
  assert (B100 : round64 100 = Fin 100) by (by vm_compute).
  destruct (round64_within (-25) 25 c Blo Bhi) as (a & Ea & Ha); [lra|].
  destruct (round64_within (-25) 25 c' Blo Bhi) as (a' & Ea' & Ha'); [lra|].
  assert (Haa : (a <= a')%Q).
  { pose proof (round64_mono c c' H2) as M. by rewrite Ea, Ea' in M. }
  destruct (round64_within (- (1 # 4)) (1 # 4) (a / 100) Qlo Qhi) as (g & Eg & Hg).
  { unfold Qdiv. change (/ 100)%Q with (1 # 100)%Q. lra. }
  destruct (round64_within (- (1 # 4)) (1 # 4) (a' / 100) Qlo Qhi) as (g' & Eg' & Hg').
  { unfold Qdiv. change (/ 100)%Q with (1 # 100)%Q. lra. }
  exists g, g'. unfold js_div, to_double. rewrite Ea, Ea', B100.
  change (Qzerob 100) with false. cbv iota.
  split; [exact Eg|]. split; [exact Eg'|]. split; [lra|]. split; [|split; [lra|]].
  - assert (M : (a / 100 <= a' / 100)%Q).
    { unfold Qdiv. change (/ 100)%Q with (1 # 100)%Q. lra. }
    apply round64_mono in M. by rewrite Eg, Eg' in M.
  - split; [by apply (round64_idem (a / 100))|by apply (round64_idem (a' / 100))].
Qed.

(** The factor of two adjustments: a double between 0.75 and 1.25, which
    does not decrease when the adjustment grows. *)
Lemma factor_mono (p p' : Q) :
  (p <= p')%Q ->
  exists f f',
    js_add (Fin 1) (js_div (Fin (clamp_case p)) (Fin 100)) = Fin f
    /\ js_add (Fin 1) (js_div (Fin (clamp_case p')) (Fin 100)) = Fin f'
    /\ (3 # 4 <= f)%Q /\ (f <= f')%Q /\ (f' <= 5 # 4)%Q
    /\ round64 f = Fin f /\ round64 f' = Fin f'.
Proof.
  intros H.
  destruct (quotient_mono (clamp_case p) (clamp_case p'))
    as (g & g' & -> & -> & G1 & G2 & G3 & Ig & Ig').
  { apply clamp_case_range. } { by apply clamp_case_monotone. } { apply clamp_case_range. }
  assert (Flo : round64 (3 # 4) = Fin (3 # 4)) by (by vm_compute).
  assert (Fhi : round64 (5 # 4) = Fin (5 # 4)) by (by vm_compute).
  destruct (round64_within (3 # 4) (5 # 4) (1 + g) Flo Fhi) as (f & Ef & Hf); [lra|].
  destruct (round64_within (3 # 4) (5 # 4) (1 + g') Flo Fhi) as (f' & Ef' & Hf'); [lra|].
  exists f, f'. unfold js_add, to_double. rewrite round64_1, Ig, Ig'.
  split; [exact Ef|]. split; [exact Ef'|]. split; [lra|]. split; [|split; [lra|]].
  - assert (M : (1 + g <= 1 + g')%Q) by lra.
    apply round64_mono in M. by rewrite Ef, Ef' in M.
  - split; [by apply (round64_idem (1 + g))|by apply (round64_idem (1 + g'))].
Qed.

(** The product of a number and of two positive doubles. *)
Lemma product_mono (b f f' : Q) :
  round64 f = Fin f -> round64 f' = Fin f' -> (0 < f)%Q -> (f <= f')%Q ->
  ((0 <= b)%Q -> double_le (js_mul (Fin b) (Fin f)) (js_mul (Fin b) (Fin f')))
  /\ ((b <= 0)%Q -> double_le (js_mul (Fin b) (Fin f')) (js_mul (Fin b) (Fin f))).
Proof.
  intros If If' Hf Hff.
  assert (Z0 : round64 0 = Fin 0) by reflexivity.
  assert (S : js_sign (Fin f) = Some true /\ js_sign (Fin f') = Some true).
  { unfold js_sign, Qposb. split.
    - destruct (Qle_bool f 0) eqn:E; [apply Qle_bool_iff in E; lra|done].
    - destruct (Qle_bool f' 0) eqn:E; [apply Qle_bool_iff in E; lra|done]. }
  destruct S as [S S'].
  unfold js_mul, to_double. rewrite If, If'. split; intros Hb.
  - pose proof (round64_mono 0 b Hb) as M. rewrite Z0 in M.
    destruct (round64 b) as [r| | |]; try done.
    + apply round64_mono. cbn in M. nra.
    + by rewrite S, S'.
  - pose proof (round64_mono b 0 Hb) as M. rewrite Z0 in M.
    destruct (round64 b) as [r| | |]; try done.
    + apply round64_mono. cbn in M. nra.
    + by rewrite S, S'.
Qed.

(** X1. Whatever the row holds in [adjustment_pct] and [vivino_rating]
    (numbers, strings, null, nothing, NaN, an infinity), [adjustedRating]
    returns the number that the SQL expression computes from the two
    sanitized values, what is missing, falsy or not finite counting as 0.
    That number is never NaN, and it lies between the products of the
    sanitized base rating with 0.75 and with 1.25, as doubles: it is an
    infinity only where such a product is. *)
Theorem adjustedRating_bounded (row : js_row) :
  exists b p,
    Js.sanitizeNumber StringToNumber (js_or (row_vivino_rating row) (JNum (Fin 0)))
      (JNum (Fin 0)) = JNum (Fin b)
    /\ Js.sanitizeNumber StringToNumber (js_or (row_adjustment_pct row) (JNum (Fin 0)))
         (JNum (Fin 0)) = JNum (Fin p)
    /\ adjustedRating StringToNumber row = adjusted_rating_expr b p
    /\ (truthy (row_adjustment_pct row) = false
        \/ isFinite (Js.Number StringToNumber (row_adjustment_pct row)) = false ->
        p = 0%Q)
    /\ (truthy (row_vivino_rating row) = false
        \/ isFinite (Js.Number StringToNumber (row_vivino_rating row)) = false ->
        b = 0%Q)
    /\ adjustedRating StringToNumber row <> NaN
    /\ ((0 <= b)%Q ->
        double_le (js_mul (Fin b) (Fin (3 # 4))) (adjustedRating StringToNumber row)
        /\ double_le (adjustedRating StringToNumber row) (js_mul (Fin b) (Fin (5 # 4))))
    /\ ((b <= 0)%Q ->
        double_le (js_mul (Fin b) (Fin (5 # 4))) (adjustedRating StringToNumber row)
        /\ double_le (adjustedRating StringToNumber row) (js_mul (Fin b) (Fin (3 # 4)))).
Proof.
  destruct (sanitize_or_zero_any (row_vivino_rating row)) as (b & Hb).
  destruct (sanitize_or_zero_any (row_adjustment_pct row)) as (p & Hp).
  destruct (min_max_clamp p) as (c & Hc & Ec).
  assert (E : adjustedRating StringToNumber row = adjusted_rating_expr b p).
  { unfold adjustedRating. rewrite Hb, Hp. cbn [Js.Number]. rewrite Hc.
    unfold adjusted_rating_expr. by rewrite (js_div_Qeq c (clamp_case p) (Fin 100) Ec). }
  assert (Flo : round64 (3 # 4) = Fin (3 # 4)) by (by vm_compute).
  assert (Fhi : round64 (5 # 4) = Fin (5 # 4)) by (by vm_compute).
  destruct (factor_mono p p) as (f & f' & Ef & _ & F1 & F2 & F3 & If & _); [lra|].
  destruct (product_mono b (3 # 4) f Flo If) as [Lp Ln]; [lra|lra|].
  destruct (product_mono b f (5 # 4) If Fhi) as [Up Un]; [lra|lra|].
  assert (B : ((0 <= b)%Q ->
               double_le (js_mul (Fin b) (Fin (3 # 4))) (adjusted_rating_expr b p)
               /\ double_le (adjusted_rating_expr b p) (js_mul (Fin b) (Fin (5 # 4))))
              /\ ((b <= 0)%Q ->
                  double_le (js_mul (Fin b) (Fin (5 # 4))) (adjusted_rating_expr b p)
                  /\ double_le (adjusted_rating_expr b p) (js_mul (Fin b) (Fin (3 # 4))))).
  { unfold adjusted_rating_expr. rewrite Ef. split; intros H; split; auto. }
  exists b, p. split; [exact Hb|]. split; [exact Hp|]. split; [exact E|].
  split; [|split; [|split; [|split]]].
  - revert Hp. unfold Js.sanitizeNumber, js_or.
    destruct (truthy (row_adjustment_pct row)).
    + intros Hp [H|H]; [done|]. rewrite H in Hp. cbn in Hp. congruence.
    + intros Hp _. cbn in Hp. congruence.
  - revert Hb. unfold Js.sanitizeNumber, js_or.
    destruct (truthy (row_vivino_rating row)).
    + intros Hb [H|H]; [done|]. rewrite H in Hb. cbn in Hb. congruence.
    + intros Hb _. cbn in Hb. congruence.
  - rewrite E. destruct B as [Bp Bn].
    destruct (Qlt_le_dec b 0) as [Hn|Hn].
    + destruct (Bn ltac:(lra)) as [_ H].
      intros N. rewrite N in H. by destruct (js_mul (Fin b) (Fin (3 # 4))).
    + destruct (Bp Hn) as [_ H].
      intros N. rewrite N in H. by destruct (js_mul (Fin b) (Fin (5 # 4))).
  - rewrite E. apply B.
  - rewrite E. apply B.
Qed.

(** X2. For a base rating that is not negative, the adjusted rating of the
    SQL does not decrease when the adjustment grows; an adjustment of 25 or
    more gives what 25 gives, one of -25 or less what -25 gives, and within
    the range nothing is clamped: the rating is the product of the base
    rating and of one plus the hundredth of the adjustment itself. *)
Theorem adjusted_rating_monotone (rating p p' : Q) :
  (0 <= rating)%Q -> (p <= p')%Q ->
  double_le (adjusted_rating_expr rating p) (adjusted_rating_expr rating p')
  /\ ((25 <= p)%Q -> adjusted_rating_expr rating p = adjusted_rating_expr rating 25)
  /\ ((p <= -25)%Q -> adjusted_rating_expr rating p = adjusted_rating_expr rating (-25))
  /\ ((-25 <= p <= 25)%Q ->
      adjusted_rating_expr rating p
      = js_mul (Fin rating) (js_add (Fin 1) (js_div (Fin p) (Fin 100)))).
Proof.
  intros Hr Hp. split.
  - unfold adjusted_rating_expr.
    destruct (factor_mono p p' Hp) as (f & f' & -> & -> & F1 & F2 & F3 & If & If').
    apply (product_mono rating f f' If If'); [lra|done|done].
  - unfold adjusted_rating_expr.
    split; [|split]; intros H; f_equal; f_equal; apply js_div_Qeq.
    + change (clamp_case 25) with 25%Q. rewrite clamp_case_spec.
      destruct (spec_clamp_cases p) as [[? E]|[[? E]|[? E]]]; rewrite E; lra.
    + change (clamp_case (-25)) with (-25)%Q. rewrite clamp_case_spec.
      destruct (spec_clamp_cases p) as [[? E]|[[? E]|[? E]]]; rewrite E; lra.
    + rewrite clamp_case_spec.
      destruct (spec_clamp_cases p) as [[? E]|[[? E]|[? E]]]; rewrite E; lra.
Qed.

Lemma adjusted_rating_monotone_witness :
  (0 <= 4)%Q /\ (10 <= 30)%Q
  /\ double_le (adjusted_rating_expr 4 10) (adjusted_rating_expr 4 30)
  /\ adjusted_rating_expr 4 30 = adjusted_rating_expr 4 25.
Proof.
  assert (H0 : (0 <= 4)%Q) by discriminate.
  assert (H1 : (10 <= 30)%Q) by discriminate.
  split; [exact H0|]. split; [exact H1|].
  destruct (adjusted_rating_monotone 4 10 30 H0 H1) as (M & _).
  destruct (adjusted_rating_monotone 4 30 30 H0 ltac:(discriminate)) as (_ & S & _).
  split; [exact M|]. apply S. discriminate.
Defined.

End AdjustedRating.

(** ** The table of wines *)

Section Store.

Implicit Types (w : wine) (ws : list wine) (v : wine_values) (d : database)
  (e : string).

Lemma check_not_null_key p v :
  check_not_null p = Some v -> v_external_id v = p_external_id p.
Proof.
  unfold check_not_null.
  destruct (p_name p), (p_aoc p), (p_vivino_rating p); try done. by intros [= <-].
Qed.

Lemma row_values_updated now v w :
  conflicts (v_external_id v) w = true -> row_values (updated now v w) = v.
Proof.
  intros (e & He & Hv)%conflicts_true. destruct v. cbn in *.
  unfold row_values. cbn. congruence.
Qed.

Lemma row_values_inserted now v i : row_values (inserted now v i) = v.
Proof. by destruct v. Qed.

Lemma upsert_rows_lookup now v i e ws :
  v_external_id v = Some e ->
  exists w, find (conflicts (Some e)) (upsert_rows now v i ws) = Some w
    /\ row_values w = v /\ updated_at w = now
    /\ match find (conflicts (Some e)) ws with
       | Some w0 => id w = id w0 /\ created_at w = created_at w0
       | None => id w = i /\ created_at w = now
       end.
Proof.
  intros He. induction ws as [|w0 ws IH]; cbn.
  - exists (inserted now v i). unfold conflicts at 1. cbn. rewrite He. cbn.
    rewrite String.eqb_refl. split; [done|]. split; [apply row_values_inserted|done].
  - rewrite He. destruct (conflicts (Some e) w0) eqn:Hc; cbn.
    + exists (updated now v w0). unfold conflicts in *. cbn. rewrite Hc.
      split; [done|]. split; [|done].
      apply row_values_updated. unfold conflicts. by rewrite He.
    + rewrite Hc. exact IH.
Qed.

Lemma upsert_rows_lookup_other now v i e e' ws :
  v_external_id v = Some e -> e' <> e ->
  find (conflicts (Some e')) (upsert_rows now v i ws)
  = find (conflicts (Some e')) ws.
Proof.
  intros He Hne. induction ws as [|w0 ws IH]; cbn.
  - unfold conflicts. cbn. rewrite He. cbn.
    apply String.eqb_neq in Hne. by rewrite String.eqb_sym, Hne.
  - rewrite He. destruct (conflicts (Some e) w0) eqn:Hc; cbn.
    + apply conflicts_true in Hc as (x & Hx & [= <-]).
      unfold conflicts. cbn. rewrite Hx. cbn.
      apply String.eqb_neq in Hne. by rewrite String.eqb_sym, Hne.
    + by rewrite IH.
Qed.

(** X3. Insert and lookup. After [upsertWine] has run with a key, the
    lookup by that key finds a row that holds exactly the bound values and
    the stamp of the statement; it is the row that the key had, with its
    rowid and creation stamp, or a new row with the next rowid. The lookup
    by any other key finds what it found before. *)
Theorem upsert_then_lookup now p e d d' :
  upsertWine now p d = Some d' -> p_external_id p = Some e ->
  (exists w, getWineByExternalId e d' = Some w
     /\ check_not_null p = Some (row_values w)
     /\ updated_at w = now
     /\ match getWineByExternalId e d with
        | Some w0 => id w = id w0 /\ created_at w = created_at w0
        | None => id w = next_id (wines d) /\ created_at w = now
        end)
  /\ forall e', e' <> e -> getWineByExternalId e' d' = getWineByExternalId e' d.
Proof.
  unfold upsertWine. destruct (check_not_null p) as [v|] eqn:Hv; [|done].
  intros [= <-] He. pose proof (check_not_null_key _ _ Hv) as Hk. rewrite He in Hk.
  split.
  - destruct (upsert_rows_lookup now v (next_id (wines d)) e (wines d) Hk)
      as (w & Hf & Hr & Hu & Hm).
    exists w. unfold getWineByExternalId. cbn. by rewrite Hr.
  - intros e' Hne. unfold getWineByExternalId. cbn.
    by apply (upsert_rows_lookup_other now v _ e).
Qed.

Lemma upsert_rows_length now v i ws :
  length (upsert_rows now v i ws)
  = (length ws + (if has_key (v_external_id v) ws then 0 else 1))%nat.
Proof.
  unfold has_key. induction ws as [|w ws IH]; cbn; [done|].
  destruct (conflicts (v_external_id v) w); cbn; [lia|]. rewrite IH. done.
Qed.

(** X4. One execution of [upsertWine] adds one row when the key is not in
    the table and none when it is; a NULL key is never in the table, so a
    row bound with a NULL [external_id] is always added. *)
Theorem upsert_row_count now p d d' :
  upsertWine now p d = Some d' ->
  length (wines d')
  = (length (wines d) + (if has_key (p_external_id p) (wines d) then 0 else 1))%nat
  /\ (p_external_id p = None -> length (wines d') = S (length (wines d)))
  /\ (forall e, p_external_id p = Some e ->
      (has_key (Some e) (wines d) = true <-> is_Some (getWineByExternalId e d))).
Proof.
  unfold upsertWine. destruct (check_not_null p) as [v|] eqn:Hv; [|done].
  intros [= <-]. pose proof (check_not_null_key _ _ Hv) as Hk. cbn.
  rewrite upsert_rows_length, Hk. split; [done|]. split.
  - intros ->. assert (has_key None (wines d) = false) as ->; [|lia].
    apply has_key_false. intros w _. unfold conflicts. by destruct (external_id w).
  - intros e _. unfold has_key, getWineByExternalId.
    induction (wines d) as [|w ws IH]; cbn.
    + split; [done|]. by intros [? ?].
    + destruct (conflicts (Some e) w); cbn; [split; eauto|exact IH].
Qed.

Lemma next_id_cons w ws : next_id (w :: ws) = Z.max (id w + 1) (next_id ws).
Proof. reflexivity. Qed.

Lemma next_id_positive ws : 1 <= next_id ws.
Proof.
  induction ws as [|w ws IH]; [done|]. rewrite next_id_cons. lia.
Qed.

Lemma next_id_above ws w : w ∈ ws -> id w < next_id ws.
Proof.
  induction ws as [|w0 ws IH]; [by inversion 1|].
  rewrite next_id_cons. intros [->|Hin]%elem_of_cons; [lia|].
  specialize (IH Hin). lia.
Qed.

Lemma next_id_least ws m :
  1 <= m -> (forall w, w ∈ ws -> id w < m) -> next_id ws <= m.
Proof.
  intros Hm. induction ws as [|w0 ws IH]; intros H; [done|].
  rewrite next_id_cons.
  assert (id w0 < m) by (apply H; left).
  assert (next_id ws <= m) by (apply IH; intros w Hw; apply H; by right). lia.
Qed.

Lemma upsert_rows_ids now v i ws :
  map id (upsert_rows now v i ws)
  = map id ws ++ (if has_key (v_external_id v) ws then [] else [i]).
Proof.
  unfold has_key. induction ws as [|w ws IH]; cbn; [done|].
  destruct (conflicts (v_external_id v) w); cbn; [by rewrite app_nil_r|].
  by rewrite IH.
Qed.

Lemma find_by_unique_id ws j w :
  NoDup (map id ws) -> ws !! j = Some w -> find (fun x => id x =? id w) ws = Some w.
Proof.
  revert j. induction ws as [|w0 ws IH]; intros j Hnd Hj; [done|].
  cbn in Hnd. apply NoDup_cons in Hnd as [Hnotin Hnd].
  destruct j as [|j]; cbn in *.
  - injection Hj as ->. by rewrite Z.eqb_refl.
  - destruct (id w0 =? id w) eqn:E; [|by eapply IH].
    apply Z.eqb_eq in E. destruct Hnotin. rewrite E.
    apply list_elem_of_fmap. exists w. split; [done|].
    apply list_elem_of_lookup. eauto.
Qed.

Lemma run_upserts_ids now rows d d' :
  NoDup (map id (wines d)) -> run_upserts now rows d = Some d' ->
  NoDup (map id (wines d'))
  /\ exists new, map id (wines d') = map id (wines d) ++ new
                 /\ Forall (fun j => next_id (wines d) <= j) new.
Proof.
  revert d. induction rows as [|p rows IH]; intros d Hnd H; cbn in H.
  - injection H as <-. split; [done|]. exists []. by rewrite app_nil_r.
  - destruct (upsertWine now p d) as [d1|] eqn:E; [|done].
    unfold upsertWine in E. destruct (check_not_null p) as [v|]; [|done].
    injection E as <-.
    assert (Hids := upsert_rows_ids now v (next_id (wines d)) (wines d)).
    assert (Hnd1 : NoDup (map id (upsert_rows now v (next_id (wines d)) (wines d)))).
    { rewrite Hids. destruct (has_key _ _); [by rewrite app_nil_r|].
      apply NoDup_app. split; [done|]. split; [|apply NoDup_singleton].
      intros x (w & Hx & Hw)%list_elem_of_fmap Hx'%list_elem_of_singleton.
      apply next_id_above in Hw. lia. }
    apply IH in H as (Hnd' & new & Hnew & Hall); [|exact Hnd1].
    cbn [wines] in Hnew, Hall.
    split; [done|].
    exists ((if has_key (v_external_id v) (wines d) then [] else [next_id (wines d)])
            ++ new).
    split; [by rewrite Hnew, Hids, app_assoc|].
    assert (Hmono : next_id (wines d)
                    <= next_id (upsert_rows now v (next_id (wines d)) (wines d))).
    { apply next_id_least.
      - apply next_id_positive.
      - intros w Hw.
        assert (id w ∈ map id (upsert_rows now v (next_id (wines d)) (wines d))) as Hin.
        { rewrite Hids. apply elem_of_app. left. apply list_elem_of_fmap. eauto. }
        apply list_elem_of_fmap in Hin as (w' & Hid & Hw').
        rewrite Hid. by apply next_id_above. }
    apply Forall_app. split.
    + destruct (has_key _ _); constructor; [lia|constructor].
    + eapply Forall_impl; [exact Hall|]. intros j Hj. cbn [wines] in Hj. lia.
Qed.

(** X5. Through a transaction of upserts the rowids stay unique, every
    row keeps its rowid and place, the rowids of the added rows are above
    all that were in use, and so the lookup by the rowid of a wine still
    finds that wine. *)
Theorem rowids_stay_unique now rows d d' :
  unique_ids d -> run_upserts now rows d = Some d' ->
  unique_ids d'
  /\ (exists new, map id (wines d') = map id (wines d) ++ new
                  /\ Forall (fun j => forall w, w ∈ wines d -> id w < j) new)
  /\ forall w, w ∈ wines d ->
       exists w', getWineById (id w) d' = Some w' /\ same_identity w w'.
Proof.
  intros Hu H. destruct (run_upserts_ids now rows d d' Hu H) as (Hu' & new & Hnew & Hall).
  split; [done|]. split.
  - exists new. split; [done|]. eapply Forall_impl; [exact Hall|].
    intros j Hj w Hw. cbn in Hj. apply next_id_above in Hw. lia.
  - intros w [j Hj]%list_elem_of_lookup.
    apply run_upserts_overrides in H as (_ & _ & (kept & added & Hw & HF)).
    destruct (Forall2_lookup_l _ _ _ _ _ HF Hj) as (w' & Hj' & Hid).
    exists w'. split; [|done].
    assert (wines d' !! j = Some w') as Hj2 by (rewrite Hw; by apply lookup_app_l_Some).
    destruct Hid as (Hid & _). rewrite <- Hid. unfold getWineById.
    by eapply find_by_unique_id.
Qed.

End Store.

(** ** What an import leaves in the table *)

Section ImportOutcome.

Implicit Types (w : wine) (ws : list wine) (v u : wine_values)
  (vs : list wine_values) (d : database).

Lemma all_values_items_Some items :
  Forall (fun i => is_Some (i_name i) /\ is_Some (i_aoc i)) items ->
  is_Some (all_values (map item_params items)).
Proof.
  induction 1 as [|i items [[n Hn] [a Ha]] _ [vs IH]]; cbn; [eauto|].
  unfold check_not_null. cbn. rewrite Hn, Ha, IH. eauto.
Qed.

Lemma all_values_items_None items :
  Exists (fun i => i_name i = None \/ i_aoc i = None) items ->
  all_values (map item_params items) = None.
Proof.
  induction 1 as [i items H|i items _ IH]; cbn.
  - unfold check_not_null. cbn. destruct H as [-> | ->]; [done|].
    by destruct (i_name i).
  - rewrite IH. by destruct (check_not_null _).
Qed.

(** X6. An import is all or nothing. When every item has a name and an
    appellation the answer is 200 with the number of items, the items are
    upserted and [last_refresh] is the time of the import; when one item
    lacks either, the answer is 500 and the database is as it was, whatever
    the other items are. *)
Theorem import_all_or_nothing now items d :
  (Forall (fun i => is_Some (i_name i) /\ is_Some (i_aoc i)) items ->
   exists vs, all_values (map item_params items) = Some vs
     /\ post_admin_import now items d
        = (Status200_upserted (length items),
           mk_database (fold_rows now vs (wines d)) (admin_overrides d) (Some now)))
  /\ (Exists (fun i => i_name i = None \/ i_aoc i = None) items ->
      post_admin_import now items d = (Status500_import_failed, d))
  /\ ((post_admin_import now items d).1 = Status500_import_failed
      \/ (post_admin_import now items d).1 = Status200_upserted (length items)
         /\ last_refresh (post_admin_import now items d).2 = Some now).
Proof.
  split; [|split].
  - intros [vs Hvs]%all_values_items_Some. exists vs. split; [done|].
    by apply post_admin_import_ok.
  - intros H%all_values_items_None. by apply post_admin_import_fail.
  - destruct (all_values (map item_params items)) as [vs|] eqn:E.
    + right. by rewrite (post_admin_import_ok now items d vs).
    + left. by rewrite post_admin_import_fail.
Qed.

Lemma upsert_rows_elem now v i ws w :
  w ∈ upsert_rows now v i ws -> w ∈ ws \/ external_id w = v_external_id v.
Proof.
  induction ws as [|w0 ws IH]; cbn.
  - intros ->%list_elem_of_singleton. by right.
  - destruct (conflicts (v_external_id v) w0) eqn:Hc.
    + intros [->|Hin]%elem_of_cons; [|left; by right].
      right. apply conflicts_true in Hc as (e & He & Hv). cbn. congruence.
    + intros [->|Hin]%elem_of_cons; [left; by left|].
      destruct (IH Hin); [left; by right|by right].
Qed.

Lemma fold_rows_elem now vs ws w :
  w ∈ fold_rows now vs ws ->
  w ∈ ws \/ exists v, v ∈ vs /\ external_id w = v_external_id v.
Proof.
  revert ws. induction vs as [|v vs IH]; intros ws H; [by left|].
  rewrite fold_rows_cons in H. destruct (IH _ H) as [Hin|(u & Hu & He)].
  - apply upsert_rows_elem in Hin as [?|?]; [by left|]. right. exists v.
    split; [by left|done].
  - right. exists u. split; [by right|done].
Qed.

Lemma upsert_rows_own_exact now v i ws w :
  NoDup (keys ws) -> w ∈ upsert_rows now v i ws ->
  conflicts (v_external_id v) w = true ->
  updated now v w = w.
Proof.
  intros Hnd Hin Hc. destruct (has_key (v_external_id v) ws) eqn:Hk.
  - rewrite upsert_rows_present in Hin by done.
    apply list_elem_of_fmap in Hin as (w0 & -> & Hin0).
    unfold touch in *. destruct (conflicts (v_external_id v) w0) eqn:Hc0; [done|].
    congruence.
  - rewrite upsert_rows_absent in Hin by done.
    apply elem_of_app in Hin as [Hin| ->%list_elem_of_singleton].
    + rewrite has_key_false in Hk. rewrite (Hk w Hin) in Hc. done.
    + apply conflicts_true in Hc as (e & He & Hv). cbn in He.
      unfold updated, inserted. cbn. done.
Qed.

Lemma fold_rows_last_exact now vs ws w u :
  NoDup (keys ws) -> w ∈ fold_rows now vs ws ->
  last_match vs (external_id w) = Some u ->
  updated now u w = w.
Proof.
  revert ws. induction vs as [|v vs IH]; intros ws Hnd Hin Hl; [done|].
  rewrite fold_rows_cons in Hin. cbn in Hl.
  destruct (last_match vs (external_id w)) as [u'|] eqn:E.
  - injection Hl as ->. eapply IH; [|exact Hin|reflexivity].
    by apply upsert_rows_unique.
  - destruct (opt_string_eqb (external_id w) (v_external_id v)) eqn:Hc; [|done].
    injection Hl as <-.
    apply (upsert_rows_own_exact now v (next_id ws) ws); [done| |exact Hc].
    eapply fold_rows_untouched; [exact Hin| |].
    + apply opt_string_eqb_true in Hc as (e & -> & _). eauto.
    + intros v' Hv'. unfold conflicts. by eapply last_match_None.
Qed.

Lemma last_match_app vs1 v vs2 k :
  opt_string_eqb k (v_external_id v) = true ->
  (forall u, u ∈ vs2 -> opt_string_eqb k (v_external_id u) = false) ->
  last_match (vs1 ++ v :: vs2) k = Some v.
Proof.
  intros Hv Hno. induction vs1 as [|v1 vs1 IH]; cbn.
  - assert (last_match vs2 k = None) as ->; [|by rewrite Hv].
    destruct (last_match vs2 k) as [u|] eqn:E; [|done].
    pose proof (last_match_elem _ _ _ E) as Hu.
    apply last_match_Some in E. by rewrite (Hno u Hu) in E.
  - by rewrite IH.
Qed.

Lemma keys_fold now vs ws e :
  e ∈ keys (fold_rows now vs ws)
  <-> e ∈ keys ws \/ exists v, v ∈ vs /\ v_external_id v = Some e.
Proof.
  split.
  - intros (w & Hw & He)%list_elem_of_omap.
    destruct (fold_rows_elem _ _ _ _ Hw) as [Hin|(v & Hv & Hk)].
    + left. apply list_elem_of_omap. eauto.
    + right. exists v. split; [done|congruence].
  - intros [Hin|(v & Hv & Hk)].
    + assert (has_key (Some e) (fold_rows now vs ws) = true) as H.
      { apply has_key_fold, has_key_true. eauto. }
      apply has_key_true in H as (e' & [= <-] & ?). done.
    + assert (has_key (v_external_id v) (fold_rows now vs ws) = true) as H.
      { apply has_key_fold_own; [done|]. rewrite Hk. eauto. }
      rewrite Hk in H. apply has_key_true in H as (e' & [= <-] & ?). done.
Qed.

(** X7. After an import that succeeded, the keys of the table are the keys
    it had and the keys of the items, each once; a row whose key is in no
    item is a row of the table before, unchanged; and a row whose key is in
    the items holds the values and the stamp of the last item with that
    key. *)
Theorem import_last_item_wins now items d :
  unique_keys d ->
  (post_admin_import now items d).1 = Status200_upserted (length items) ->
  unique_keys (post_admin_import now items d).2
  /\ (forall e, e ∈ keys (wines (post_admin_import now items d).2)
               <-> e ∈ keys (wines d) \/ exists i, i ∈ items /\ i_external_id i = e)
  /\ (forall w, w ∈ wines (post_admin_import now items d).2 ->
        (forall i, i ∈ items -> external_id w <> Some (i_external_id i)) ->
        w ∈ wines d)
  /\ (forall w earlier i later,
        w ∈ wines (post_admin_import now items d).2 ->
        items = earlier ++ i :: later ->
        external_id w = Some (i_external_id i) ->
        (forall j, j ∈ later -> i_external_id j <> i_external_id i) ->
        check_not_null (item_params i) = Some (row_values w)
        /\ updated_at w = now).
Proof.
  intros Hu Hok.
  destruct (all_values (map item_params items)) as [vs|] eqn:E;
    [|by rewrite post_admin_import_fail in Hok].
  rewrite (post_admin_import_ok now items d vs) by done. cbn [snd wines].
  destruct (item_values_keys _ _ E) as [Hkeys Hitems].
  split; [by apply fold_rows_unique|]. split; [|split].
  - intros e. rewrite keys_fold. split.
    + intros [?|(v & Hv & Hk)]; [by left|]. right.
      destruct (Hitems v Hv) as (i & Hi & Hki & _). exists i. split; [done|].
      congruence.
    + intros [?|(i & Hi & <-)]; [by left|]. right.
      destruct (item_values_elem _ _ _ E Hi) as (v & Hv & Hk). eauto.
  - intros w Hw Hno. destruct (fold_rows_elem _ _ _ _ Hw) as [?|(v & Hv & Hk)]; [done|].
    destruct (Hitems v Hv) as (i & Hi & Hki & _). destruct (Hno i Hi). congruence.
  - intros w earlier i later Hw -> Hk Hlater.
    apply all_values_Forall2 in E. rewrite map_app in E. cbn [map] in E.
    apply Forall2_app_inv_l in E as (vs1 & vs' & _ & E & ->).
    apply Forall2_cons_inv_l in E as (v & vs2 & Hv & E & ->).
    assert (Hl : last_match (vs1 ++ v :: vs2) (external_id w) = Some v).
    { apply last_match_app.
      - apply item_values_fields in Hv as [-> _]. rewrite Hk. cbn.
        apply String.eqb_refl.
      - intros u [n Hn]%list_elem_of_lookup.
        destruct (Forall2_lookup_r _ _ _ _ _ E Hn) as (pj & Hpj & Hcj).
        rewrite list_lookup_fmap in Hpj.
        destruct (later !! n) as [j|] eqn:Hj; [|done]. injection Hpj as <-.
        apply item_values_fields in Hcj as [-> _]. rewrite Hk. cbn.
        apply String.eqb_neq. intros Heq. apply (Hlater j); [|done].
        apply list_elem_of_lookup. eauto. }
    pose proof (fold_rows_last_exact now _ _ w v Hu Hw Hl) as Hex.
    split; [|by rewrite <- Hex].
    rewrite Hv. f_equal. rewrite <- Hex. symmetry. apply row_values_updated.
    unfold conflicts. by apply last_match_Some in Hl.
Qed.

End ImportOutcome.

(** ** The table of overrides *)

Section Overrides.

Variable StringToNumber : string -> jsnum.

Local Abbreviation override_route := (post_admin_override StringToNumber).
Local Abbreviation Number := (Js.Number StringToNumber).

Implicit Types (d : database) (v : jsval) (q : Q) (w : wine).

Lemma getWineById_Some i d w : getWineById i d = Some w -> w ∈ wines d /\ id w = i.
Proof.
  unfold getWineById. intros [Hin Hid]%find_some. apply Z.eqb_eq in Hid.
  split; [by apply list_elem_of_In|done].
Qed.

Lemma rows_kept_ids ws ws' w :
  rows_kept ws ws' -> w ∈ ws -> exists w', w' ∈ ws' /\ id w' = id w.
Proof.
  intros (kept & added & -> & HF) [j Hj]%list_elem_of_lookup.
  destruct (Forall2_lookup_l _ _ _ _ _ HF Hj) as (w' & Hj' & Hid & _).
  exists w'. split; [|done]. apply elem_of_app. left.
  apply list_elem_of_lookup. eauto.
Qed.

Lemma overrides_valid_kept d d' :
  overrides_valid d -> admin_overrides d' = admin_overrides d ->
  rows_kept (wines d) (wines d') -> overrides_valid d'.
Proof.
  intros Hv Ho Hk i o Hi. rewrite Ho in Hi. destruct (Hv i o Hi) as [Hr (w & Hw & Hid)].
  split; [done|]. destruct (rows_kept_ids _ _ _ Hk Hw) as (w' & Hw' & Hid').
  exists w'. split; [done|congruence].
Qed.

Lemma overrides_valid_upserts now rows d d' :
  overrides_valid d -> run_upserts now rows d = Some d' -> overrides_valid d'.
Proof.
  intros Hv (Ho & _ & Hk)%run_upserts_overrides. by eapply overrides_valid_kept.
Qed.

Lemma overrides_valid_setMeta t d :
  overrides_valid d -> overrides_valid (setMeta_last_refresh t d).
Proof. done. Qed.

Lemma overrides_valid_empty : overrides_valid empty_db.
Proof. intros i o H. cbn in H. by rewrite lookup_empty in H. Qed.

(** X8. What is in [admin_overrides] stays valid through every route and
    through the start-up seed: each stored adjustment is within [-25, 25]
    and belongs to a wine of the table. On such a database the clamp of the
    SQL changes nothing: the adjustment that a wine is joined with is
    within the range, and the CASE expression returns it as it is. *)
Theorem overrides_stay_valid now d :
  overrides_valid d ->
  (forall body, overrides_valid (override_route now body d).2)
  /\ (forall items, overrides_valid (post_admin_import now items d).2)
  /\ (forall file, overrides_valid (refresh_check StringToNumber now file d))
  /\ (forall file, overrides_valid (post_admin_refresh StringToNumber now file d).2)
  /\ (forall file, overrides_valid (ensureSeed now file d))
  /\ (forall w, (-25 <= joined_pct d w <= 25)%Q
               /\ clamp_case (joined_pct d w) == joined_pct d w).
Proof.
  intros Hv.
  assert (R : forall file,
             overrides_valid (refreshVivinoData StringToNumber now file d)).
  { intros [| |arr]; cbn; try done.
    destruct (run_upserts _ _ d) as [d'|] eqn:E; [|done].
    apply overrides_valid_setMeta. by eapply overrides_valid_upserts. }
  split; [|split; [|split; [|split; [|split]]]].
  - intros body. unfold post_admin_override.
    destruct (negb _ || _); [done|]. destruct (Number _) as [q| | |]; try done.
    destruct (Qltb q (-25)) eqn:Hlo; [done|].
    destruct (Qgtb q 25) eqn:Hhi; [done|]. cbn [orb].
    destruct (getWineById _ d) as [w|] eqn:Hw; [|done].
    rewrite (upsertOverride_found _ _ _ _ _ Hw). cbn [snd].
    apply Qltb_false in Hlo. apply Qgtb_false in Hhi.
    apply getWineById_Some in Hw as [Hw Hid].
    intros j o Hj. unfold override_written in Hj. cbn [admin_overrides wines] in *.
    destruct (decide (j = default 0 (b_wine_id body))) as [->|Hne].
    + rewrite lookup_insert_eq in Hj. injection Hj as <-. cbn. split; [done|]. eauto.
    + rewrite lookup_insert_ne in Hj by done. exact (Hv j o Hj).
  - intros items. unfold post_admin_import.
    destruct (run_upserts _ _ d) as [d'|] eqn:E; [|done].
    apply overrides_valid_setMeta. by eapply overrides_valid_upserts.
  - intros file. unfold refresh_check. destruct (75 <=? _); [apply R|done].
  - intros file. apply R.
  - intros file. unfold ensureSeed. destruct (0 <? _); [done|].
    destruct file as [| |arr]; try done.
    + destruct (run_upserts _ _ d) as [d'|] eqn:E; [|done].
      apply overrides_valid_setMeta. by eapply overrides_valid_upserts.
    + destruct (run_upserts _ _ d) as [d'|] eqn:E; [|done].
      apply overrides_valid_setMeta. by eapply overrides_valid_upserts.
  - intros w. assert (Hr : (-25 <= joined_pct d w <= 25)%Q).
    { unfold joined_pct. destruct (admin_overrides d !! id w) as [o|] eqn:E.
      - by destruct (Hv _ _ E).
      - split; discriminate. }
    split; [done|]. rewrite clamp_case_spec.
    destruct (spec_clamp_cases (joined_pct d w)) as [[? E]|[[? E]|[? E]]];
      rewrite E; [lra|lra|reflexivity].
Qed.

(** X9. After an override is accepted the table of wines and
    [last_refresh] are as they were, and the joined row of every wine is the
    one it had, except for the wine of the override, whose row now carries
    the new adjustment and the rating adjusted by it: the next ranking uses
    it. *)
Theorem override_then_ranked now i v q d w0 :
  i <> 0 -> is_undefined v = false -> Number v = Fin q ->
  (-25 <= q <= 25)%Q -> getWineById i d = Some w0 ->
  wines (override_route now (mk_override_body (Some i) v) d).2 = wines d
  /\ last_refresh (override_route now (mk_override_body (Some i) v) d).2
     = last_refresh d
  /\ forall w,
       joined (override_route now (mk_override_body (Some i) v) d).2 w
       = if id w =? i
         then mk_ranked w q (adjusted_rating_expr (vivino_rating w) q)
         else joined d w.
Proof.
  intros Hi Hv Hn Hq Hw.
  rewrite (override_route_in_range StringToNumber now i v q d) by done.
  rewrite Hw. cbn [snd]. split; [done|]. split; [done|].
  intros w. unfold joined, joined_pct, override_written. cbn [admin_overrides].
  destruct (id w =? i) eqn:E.
  - apply Z.eqb_eq in E. by rewrite E, lookup_insert_eq.
  - apply Z.eqb_neq in E. by rewrite lookup_insert_ne.
Qed.

(** X10. Overrides are upserted by [wine_id]: of two accepted overrides of
    the same wine the later one is all that remains, and accepted overrides
    of two different wines give the same table in either order. *)
Theorem override_last_write_wins now1 now2 i j v1 v2 q1 q2 d wi wj :
  i <> 0 -> j <> 0 ->
  is_undefined v1 = false -> is_undefined v2 = false ->
  Number v1 = Fin q1 -> Number v2 = Fin q2 ->
  (-25 <= q1 <= 25)%Q -> (-25 <= q2 <= 25)%Q ->
  getWineById i d = Some wi -> getWineById j d = Some wj ->
  (override_route now2 (mk_override_body (Some i) v2)
     (override_route now1 (mk_override_body (Some i) v1) d).2).2
  = (override_route now2 (mk_override_body (Some i) v2) d).2
  /\ (i <> j ->
      admin_overrides
        (override_route now2 (mk_override_body (Some j) v2)
           (override_route now1 (mk_override_body (Some i) v1) d).2).2
      = admin_overrides
          (override_route now1 (mk_override_body (Some i) v1)
             (override_route now2 (mk_override_body (Some j) v2) d).2).2).
Proof.
  intros Hi Hj Hv1 Hv2 Hn1 Hn2 Hq1 Hq2 Hwi Hwj.
  assert (S : forall t k x d0 (w : wine), getWineById k d0 = Some w ->
            getWineById k (override_written t i x d0) = Some w
            /\ getWineById k (override_written t j x d0) = Some w) by done.
  rewrite (override_route_in_range StringToNumber now1 i v1 q1 d) by done.
  rewrite (override_route_in_range StringToNumber now2 i v2 q2 d) by done.
  rewrite (override_route_in_range StringToNumber now2 j v2 q2 d) by done.
  rewrite Hwi, Hwj. cbn [snd].
  rewrite (override_route_in_range StringToNumber now2 i v2 q2) by done.
  rewrite (override_route_in_range StringToNumber now2 j v2 q2) by done.
  rewrite (override_route_in_range StringToNumber now1 i v1 q1) by done.
  rewrite (proj1 (S now1 i q1 d wi Hwi)), (proj1 (S now1 j q1 d wj Hwj)),
    (proj2 (S now2 i q2 d wi Hwi)). cbn [snd].
  split.
  - unfold override_written. cbn. by rewrite insert_insert_eq.
  - intros Hne. unfold override_written. cbn. by apply insert_insert_ne.
Qed.

Lemma existsb_find (f : wine -> bool) (ws : list wine) :
  existsb f ws = false <-> List.find f ws = None.
Proof.
  induction ws as [|w ws IH]; cbn; [done|].
  destruct (f w); cbn; [by split|exact IH].
Qed.

(** X24. [upsertOverride] is refused exactly for a [wine_id] that
    [getWineById] does not find, and otherwise writes the one row of that
    wine and nothing else. The route looks the wine up first, so the
    statement it runs is never refused: no request is answered by the
    error handler. *)
Theorem override_statement_accepted now body d :
  (override_route now body d).1 <> Status500_error
  /\ (forall i q, upsertOverride now i q d = None <-> getWineById i d = None)
  /\ (forall i q d',
        upsertOverride now i q d = Some d' ->
        wines d' = wines d /\ last_refresh d' = last_refresh d
        /\ admin_overrides d' !! i = Some (mk_override q now)
        /\ forall j, j <> i -> admin_overrides d' !! j = admin_overrides d !! j).
Proof.
  assert (N : forall i q, upsertOverride now i q d = None <-> getWineById i d = None).
  { intros i q. unfold upsertOverride, getWineById. rewrite <- existsb_find.
    destruct (existsb _ _); by split. }
  split; [|split; [exact N|]].
  - unfold post_admin_override.
    destruct (negb _ || _); [done|]. destruct (Number _) as [q| | |]; try done.
    destruct (Qltb _ _ || Qgtb _ _); [done|].
    destruct (getWineById _ d) as [w|] eqn:Hw; [|done].
    by rewrite (upsertOverride_found _ _ _ _ _ Hw).
  - intros i q d'. unfold upsertOverride.
    destruct (existsb _ _); [|done]. intros [= <-]. cbn.
    split; [done|]. split; [done|]. split; [apply lookup_insert_eq|].
    intros j Hj. by apply lookup_insert_ne.
Qed.

End Overrides.

(** ** Refreshing from the seed file *)

Section Refresh.

Variable StringToNumber : string -> jsnum.

Local Abbreviation refresh := (refreshVivinoData StringToNumber).
Local Abbreviation params_of := (seed_params StringToNumber).
Local Abbreviation Number := (Js.Number StringToNumber).

Implicit Types (d : database) (w : seed_row) (arr : list seed_row).

Lemma sanitized_zero_bound (v : jsval) :
  exists q, bind_real (Js.sanitizeNumber StringToNumber v (JNum (Fin 0))) = Some q
            /\ (isFinite (Number v) = false -> q = 0%Q)
            /\ (forall x, Number v = Fin x -> q = x).
Proof.
  unfold Js.sanitizeNumber. destruct (Number v) as [x| | |]; cbn.
  - exists x. split; [done|]. split; [done|]. by intros ? [= ->].
  - exists 0%Q. done.
  - exists 0%Q. done.
  - exists 0%Q. done.
Qed.

Lemma seed_values_Some now w :
  is_Some (check_not_null (params_of now w)) <-> is_Some (s_name w) /\ is_Some (s_aoc w).
Proof.
  unfold check_not_null, seed_params. cbn.
  destruct (sanitized_zero_bound (s_vivino_rating w)) as (q & -> & _).
  destruct (s_name w), (s_aoc w); split; try (intros [[? ?] [? ?]]; done);
    try (intros [? ?]; done); eauto.
Qed.

Lemma seed_all_values_Some now arr :
  Forall (fun w => is_Some (s_name w) /\ is_Some (s_aoc w)) arr ->
  is_Some (all_values (map (params_of now) arr)).
Proof.
  induction 1 as [|w arr Hw _ [vs IH]]; cbn; [eauto|].
  apply (proj2 (seed_values_Some now w)) in Hw as [v Hv]. rewrite Hv, IH. eauto.
Qed.

Lemma seed_all_values_None now arr :
  Exists (fun w => s_name w = None \/ s_aoc w = None) arr ->
  all_values (map (params_of now) arr) = None.
Proof.
  induction 1 as [w arr H|w arr _ IH]; cbn.
  - destruct (check_not_null (params_of now w)) as [v|] eqn:E; [|done].
    assert (is_Some (check_not_null (params_of now w))) as Hs by eauto.
    apply seed_values_Some in Hs as [[? Hn] [? Ha]].
    destruct H; congruence.
  - rewrite IH. by destruct (check_not_null _).
Qed.

(** X11. What a refresh binds and when it fails. The rating and the
    review count of a seed row are always bound as numbers: what does not
    convert to a finite number is bound as 0. A null price is bound as 0, a
    missing one as NULL. The refresh upserts every row and stamps
    [last_refresh] when every row has a name and an appellation; when one
    row lacks either, the database is as it was. *)
Theorem refresh_outcome now arr d :
  (forall w, exists rating reviews,
      p_vivino_rating (params_of now w) = Some rating
      /\ p_rating_count (params_of now w) = Some reviews
      /\ (isFinite (Number (s_vivino_rating w)) = false -> rating = 0%Q)
      /\ (isFinite (Number (s_rating_count w)) = false -> reviews = 0%Q)
      /\ (forall x, Number (s_vivino_rating w) = Fin x -> rating = x))
  /\ (forall w, (s_price w = JNull -> p_price (params_of now w) = Some 0%Q)
                /\ (s_price w = JUndefined -> p_price (params_of now w) = None))
  /\ (Forall (fun w => is_Some (s_name w) /\ is_Some (s_aoc w)) arr ->
      exists vs, all_values (map (params_of now) arr) = Some vs
        /\ refresh now (Seed_rows arr) d
           = mk_database (fold_rows now vs (wines d)) (admin_overrides d) (Some now))
  /\ (Exists (fun w => s_name w = None \/ s_aoc w = None) arr ->
      refresh now (Seed_rows arr) d = d).
Proof.
  split; [|split; [|split]].
  - intros w. unfold seed_params. cbn.
    destruct (sanitized_zero_bound (s_vivino_rating w)) as (q & -> & H0 & Hx).
    destruct (sanitized_zero_bound (s_rating_count w)) as (c & -> & C0 & _).
    exists q, c. auto.
  - intros w. unfold seed_params. cbn. split; by intros ->.
  - intros [vs Hvs]%(seed_all_values_Some now). exists vs. split; [done|].
    cbn. by rewrite (run_upserts_Some now _ vs).
  - intros H%(seed_all_values_None now). cbn. by rewrite run_upserts_None.
Qed.

Lemma fold_rows_null_keys now vs ws :
  Forall (fun v => v_external_id v = None) vs ->
  length (fold_rows now vs ws) = (length ws + length vs)%nat.
Proof.
  revert ws. induction vs as [|v vs IH]; intros ws H; [cbn; lia|].
  apply Forall_cons in H as [Hv H]. rewrite fold_rows_cons, IH by done.
  rewrite upsert_rows_length, Hv.
  assert (has_key None ws = false) as ->; [|cbn; lia].
  apply has_key_false. intros w _. unfold conflicts. by destruct (external_id w).
Qed.

(** X12. Seed rows whose [external_id] is null are never merged: every
    refresh adds one row for each of them, so refreshing the same file
    again adds them again. *)
Theorem refresh_null_keys_grow now now' arr d :
  Forall (fun w => s_external_id w = None
                   /\ is_Some (s_name w) /\ is_Some (s_aoc w)) arr ->
  length (wines (refreshVivinoData StringToNumber now (Seed_rows arr) d))
  = (length (wines d) + length arr)%nat
  /\ length (wines (refreshVivinoData StringToNumber now' (Seed_rows arr)
                      (refreshVivinoData StringToNumber now (Seed_rows arr) d)))
     = (length (wines d) + 2 * length arr)%nat.
Proof.
  intros H.
  assert (G : forall t d0, length (wines (refresh t (Seed_rows arr) d0))
                           = (length (wines d0) + length arr)%nat).
  { intros t d0.
    assert (Forall (fun w => is_Some (s_name w) /\ is_Some (s_aoc w)) arr) as Hs
      by (eapply Forall_impl; [exact H|]; intros ? (_ & ? & ?); done).
    apply (seed_all_values_Some t) in Hs as [vs Hvs].
    cbn. rewrite (run_upserts_Some t _ vs) by done. cbn.
    rewrite fold_rows_null_keys.
    - apply all_values_Forall2, Forall2_length in Hvs.
      rewrite length_map in Hvs. lia.
    - apply all_values_Forall2 in Hvs. apply Forall_forall. intros v Hv.
      apply list_elem_of_lookup in Hv as [n Hn].
      destruct (Forall2_lookup_r _ _ _ _ _ Hvs Hn) as (p & Hp & Hc).
      rewrite list_lookup_fmap in Hp. destruct (arr !! n) as [w|] eqn:Hw; [|done].
      injection Hp as <-. apply check_not_null_key in Hc. rewrite Hc. cbn.
      rewrite Forall_forall in H. apply (H w). apply list_elem_of_lookup. eauto. }
  split; [apply G|]. rewrite !G. lia.
Qed.

Lemma seed_values_strip now now' w :
  option_map strip_values (check_not_null (params_of now w))
  = option_map strip_values (check_not_null (params_of now' w)).
Proof.
  unfold check_not_null, seed_params. cbn.
  destruct (s_name w), (s_aoc w); try done.
  by destruct (bind_real _).
Qed.

Lemma seed_all_values_strip now now' arr :
  option_map (map strip_values) (all_values (map (params_of now) arr))
  = option_map (map strip_values) (all_values (map (params_of now') arr)).
Proof.
  induction arr as [|w arr IH]; [done|]. cbn.
  pose proof (seed_values_strip now now' w) as Hw.
  destruct (check_not_null (params_of now w)), (check_not_null (params_of now' w));
    cbn in Hw; try done.
  destruct (all_values (map (params_of now) arr)),
    (all_values (map (params_of now') arr)); cbn in *; try done.
  congruence.
Qed.

(** X13. When every seed row has an [external_id], refreshing from the
    same file again changes nothing but stamps: no row is added, the keys
    stay unique, and every column except [last_source_update] and
    [updated_at] is as the first refresh left it. *)
Theorem refresh_again now now' arr d :
  unique_keys d ->
  Forall (fun w => is_Some (s_external_id w)) arr ->
  map strip (wines (refresh now' (Seed_rows arr) (refresh now (Seed_rows arr) d)))
  = map strip (wines (refresh now (Seed_rows arr) d))
  /\ unique_keys (refresh now' (Seed_rows arr) (refresh now (Seed_rows arr) d))
  /\ admin_overrides (refresh now' (Seed_rows arr) (refresh now (Seed_rows arr) d))
     = admin_overrides d.
Proof.
  intros Hu Hk. pose proof (seed_all_values_strip now now' arr) as Hs.
  destruct (all_values (map (params_of now) arr)) as [vs|] eqn:E1;
    destruct (all_values (map (params_of now') arr)) as [vs'|] eqn:E2;
    cbn in Hs; try done.
  - assert (Hs' : map strip_values vs = map strip_values vs') by congruence.
    cbn. rewrite (run_upserts_Some now _ vs) by done. cbn.
    rewrite (run_upserts_Some now' _ vs') by done. cbn.
    assert (Hkeys : Forall (fun v => is_Some (v_external_id v)) vs').
    { apply all_values_Forall2 in E2. apply Forall_forall. intros v Hv.
      apply list_elem_of_lookup in Hv as [n Hn].
      destruct (Forall2_lookup_r _ _ _ _ _ E2 Hn) as (p & Hp & Hc).
      rewrite list_lookup_fmap in Hp. destruct (arr !! n) as [w|] eqn:Hw; [|done].
      injection Hp as <-. apply check_not_null_key in Hc. rewrite Hc. cbn.
      rewrite Forall_forall in Hk. apply (Hk w). apply list_elem_of_lookup. eauto. }
    destruct (fold_rows_again now now' vs vs' (wines d) Hu Hkeys Hs') as [Hmap Hstrip].
    cbn zeta in Hmap, Hstrip. split; [|split; [|done]].
    + rewrite Hmap, map_map. apply map_ext_in. intros w Hw.
      apply Hstrip. by apply list_elem_of_In.
    + unfold unique_keys. cbn. by do 2 apply fold_rows_unique.
  - cbn. rewrite (run_upserts_None now) by done.
    rewrite (run_upserts_None now') by done. done.
Qed.

End Refresh.

(** ** The schedule *)

Section Schedule.

Variable StringToNumber : string -> jsnum.

Local Abbreviation check := (refresh_check StringToNumber).

Implicit Types (d : database) (now : time).

Lemma check_not_due now file d last :
  last_refresh d = Some last -> now - last < 75 * MILLISECONDS_A_DAY ->
  check now file d = d.
Proof.
  intros Hl Hlt. unfold refresh_check.
  assert (daysSince now d < 75) as H; [|apply Z.leb_gt in H; by rewrite H].
  apply Z.nle_gt. rewrite daysSince_due. intros [?|(l & ? & ?)]; [congruence|].
  assert (l = last) as -> by congruence. lia.
Qed.

(** X14. Whatever stamps [last_refresh] postpones the next refresh by 75
    days: after an import that succeeded at [now], and after a check that
    left [last_refresh] at [now], every check less than 75 days later (or
    earlier, if the clock went back) changes nothing, with or without a seed
    file. *)
Theorem no_refresh_for_75_days now later items file file' d :
  later - now < 75 * MILLISECONDS_A_DAY ->
  ((post_admin_import now items d).1 = Status200_upserted (length items) ->
   check later file' (post_admin_import now items d).2
   = (post_admin_import now items d).2)
  /\ (last_refresh (check now file d) = Some now ->
      check later file' (check now file d) = check now file d).
Proof.
  intros Hlt. split.
  - intros Hok. apply (check_not_due later file' _ now); [|done].
    destruct (all_values (map item_params items)) as [vs|] eqn:E.
    + by rewrite (post_admin_import_ok now items d vs).
    + by rewrite post_admin_import_fail in Hok.
  - intros Hl. by apply (check_not_due later file' _ now).
Qed.

(** X15. GET /api/meta and the daily check agree: [next_refresh_due] is
    75 days of 86400000 ms after [last_refresh], and the check is due
    exactly when there is no [last_refresh] or the time has reached
    [next_refresh_due]. *)
Theorem meta_next_due_agrees now d :
  (get_api_meta d).1 = last_refresh d
  /\ (get_api_meta d).2
     = option_map (fun last => last + 75 * MILLISECONDS_A_DAY) (last_refresh d)
  /\ (75 <= daysSince now d
      <-> match (get_api_meta d).2 with
          | Some due => due <= now
          | None => True
          end)
  /\ (forall file, match (get_api_meta d).2 with
                   | Some due => now < due -> check now file d = d
                   | None => True
                   end).
Proof.
  unfold get_api_meta, getMeta_last_refresh. cbn [fst snd].
  split; [done|]. split; [done|]. rewrite daysSince_due.
  destruct (last_refresh d) as [last|] eqn:E; cbn.
  - split.
    + split.
      * intros [?|(l & [= <-] & H)]; [done|lia].
      * intros H. right. exists last. split; [done|lia].
    + intros file H. apply (check_not_due now file d last); [done|lia].
  - split; [|done]. split; [done|]. intros _. by left.
Qed.

End Schedule.

(** ** The start-up seed *)

Section Seed.

Implicit Types (d : database) (now : time).

(** X16. On a table that holds a wine [ensureSeed] does nothing, whatever
    the seed file is. On an empty table it either leaves the database as it
    was, or upserts the rows of the file (the five demo wines when there is
    no file) and stamps [last_refresh]; with no file the five demo wines
    get the rowids 1 to 5. In no case does it touch the overrides, and
    running it again after it has added a wine does nothing. *)
Theorem ensureSeed_only_when_empty now later file file' d :
  (wines d <> [] -> ensureSeed now file d = d)
  /\ (wines d = [] ->
      ensureSeed now file d = d
      \/ exists arr d',
           (file = Startup_rows arr \/ file = Startup_no_file /\ arr = demo now)
           /\ run_upserts now arr d = Some d'
           /\ ensureSeed now file d = setMeta_last_refresh now d')
  /\ (wines d = [] ->
      map (fun w => (id w, external_id w, aoc w))
        (wines (ensureSeed now Startup_no_file d))
      = [(1, Some "demo-1", "Saint-Estèphe"); (2, Some "demo-2", "Pauillac");
         (3, Some "demo-3", "Margaux"); (4, Some "demo-4", "Saint-Julien");
         (5, Some "demo-5", "Pessac-Léognan")]%string
      /\ last_refresh (ensureSeed now Startup_no_file d) = Some now)
  /\ admin_overrides (ensureSeed now file d) = admin_overrides d
  /\ (wines (ensureSeed now file d) <> [] ->
      ensureSeed later file' (ensureSeed now file d) = ensureSeed now file d).
Proof.
  assert (N : forall t f d0, wines d0 <> [] -> ensureSeed t f d0 = d0).
  { intros t f d0 H. unfold ensureSeed.
    destruct (wines d0) as [|w ws]; [done|]. cbn [length].
    by rewrite (proj2 (Z.ltb_lt 0 _)) by lia. }
  assert (E0 : forall f, wines d = [] ->
            ensureSeed now f d
            = match f with
              | Startup_rows arr =>
                  match run_upserts now arr d with
                  | Some d' => setMeta_last_refresh now d'
                  | None => d
                  end
              | Startup_throws => d
              | Startup_no_file =>
                  match run_upserts now (demo now) d with
                  | Some d' => setMeta_last_refresh now d'
                  | None => d
                  end
              end).
  { intros f He. unfold ensureSeed. by rewrite He. }
  split; [apply N|]. split; [|split; [|split]].
  - intros He. rewrite (E0 file He). destruct file as [| |arr].
    + destruct (run_upserts now (demo now) d) as [d'|] eqn:E; [|by left].
      right. exists (demo now), d'.
      split; [right; split; reflexivity|]. split; [exact E|reflexivity].
    + by left.
    + destruct (run_upserts now arr d) as [d'|] eqn:E; [|by left].
      right. exists arr, d'.
      split; [left; reflexivity|]. split; [exact E|reflexivity].
  - intros He. rewrite (E0 Startup_no_file He).
    destruct d as [ws ov lr]. cbn in He. subst ws. split; reflexivity.
  - clear E0. unfold ensureSeed. destruct (0 <? _); [done|].
    destruct file as [| |arr]; try done.
    destruct (run_upserts now arr d) as [d'|] eqn:E; [|done].
    apply run_upserts_overrides in E as (Ho & _). exact Ho.
  - apply N.
Qed.

End Seed.

(** ** Windows of the ranking *)

Section Windows.

Variable StringToNumber : string -> jsnum.
Variable sql_like : string -> string -> bool.

Local Abbreviation ordered := (select_ordered StringToNumber sql_like).
Local Abbreviation answer := (get_api_wines StringToNumber sql_like).
Local Abbreviation matches := (where_clause StringToNumber sql_like).
Local Abbreviation Number := (Js.Number StringToNumber).

Implicit Types (rq : wines_query) (d : database) (r : ranked)
  (rows : list ranked).

Lemma answer_cases rq d rows :
  answer rq d = Some rows ->
  (truthy (lim_of StringToNumber rq) = false /\ rows = ordered rq d)
  \/ exists n k,
       truthy (lim_of StringToNumber rq) = true
       /\ sql_integer (Number (lim_of StringToNumber rq)) = Some n
       /\ sql_integer (off_of StringToNumber rq) = Some k
       /\ rows = limit_offset n k (ordered rq d).
Proof.
  unfold get_api_wines. intros H.
  destruct (truthy (lim_of StringToNumber rq)) eqn:Hl.
  - destruct (sql_integer (Number (lim_of StringToNumber rq))) as [n|] eqn:En; [|done].
    destruct (sql_integer (off_of StringToNumber rq)) as [k|] eqn:Ek; [|done].
    injection H as E. subst rows. right. exists n, k. done.
  - injection H as E. subst rows. by left.
Qed.

Lemma ordered_sorted rq d : StronglySorted ranks_no_later (ordered rq d).
Proof.
  generalize (select_ordered_sorted StringToNumber sql_like rq d).
  induction 1 as [|x l _ IH Hx]; constructor; [done|].
  eapply List.Forall_impl; [|exact Hx]. intros b. apply not_after_iff.
Qed.

(** X17. The window that is answered is a run of consecutive rows of the
    whole ranking: the rows skipped before it rank no later than its rows,
    and its rows rank no later than the matching rows left out after it.
    Without [offset] nothing is skipped, and without [limit] rows are left
    out only when the window is full, with its 20 or 100 rows. *)
Theorem window_is_the_top rq d rows :
  answer rq d = Some rows ->
  exists before after,
    ordered rq d = before ++ rows ++ after
    /\ (forall a b, a ∈ before -> b ∈ rows -> ranks_no_later a b)
    /\ (forall a b, a ∈ rows -> b ∈ after -> ranks_no_later a b)
    /\ (truthy (param (q_offset rq)) = false -> before = [])
    /\ (truthy (param (q_limit rq)) = false ->
        truthy (param (q_all rq)) = false -> after <> [] ->
        length rows = if truthy (param (q_aoc rq)) then 20%nat else 100%nat).
Proof.
  intros H. pose proof (ordered_sorted rq d) as S.
  assert (G : forall before after,
            ordered rq d = before ++ rows ++ after ->
            (forall a b, a ∈ before -> b ∈ rows -> ranks_no_later a b)
            /\ (forall a b, a ∈ rows -> b ∈ after -> ranks_no_later a b)).
  { intros before after E. rewrite E in S. split.
    - intros a b Ha Hb.
      apply (StronglySorted_app_1_elem_of _ _ _ _ _ S Ha).
      apply elem_of_app. by left.
    - intros a b Ha Hb. apply StronglySorted_app_1_r in S.
      by apply (StronglySorted_app_1_elem_of _ _ _ _ _ S). }
  destruct (answer_cases rq d rows H) as [[Hl ->]|(n & k & Hl & Hn & Hk & ->)].
  - exists [], []. split; [by rewrite app_nil_r|].
    destruct (G [] []) as [G1 G2]; [by rewrite app_nil_r|].
    split; [done|]. split; [done|]. split; [done|]. done.
  - set (l := ordered rq d) in *.
    exists (take (Z.to_nat k) l),
      (if n <? 0 then [] else drop (Z.to_nat n) (drop (Z.to_nat k) l)).
    assert (E : l = take (Z.to_nat k) l ++ limit_offset n k l
                    ++ (if n <? 0 then []
                        else drop (Z.to_nat n) (drop (Z.to_nat k) l))).
    { unfold limit_offset. destruct (n <? 0).
      - by rewrite app_nil_r, take_drop.
      - by rewrite !take_drop. }
    split; [exact E|]. destruct (G _ _ E) as [G1 G2].
    split; [done|]. split; [done|]. split.
    + intros Ho. rewrite off_of_default in Hk by done.
      injection Hk as <-. done.
    + intros Hlim Hall Hafter.
      rewrite lim_of_default in Hn by done.
      assert (n = if truthy (param (q_aoc rq)) then 20 else 100) as ->.
      { destruct (truthy (param (q_aoc rq))); vm_compute in Hn; congruence. }
      unfold limit_offset.
      destruct (truthy (param (q_aoc rq))); cbn [Z.ltb Z.compare] in *;
        rewrite length_take;
        (assert (length (drop _ (drop (Z.to_nat k) l)) <> 0%nat) as Hd
           by (intros ?%length_zero_iff_nil; done));
        rewrite length_drop in Hd; lia.
Qed.

(** X18. Pages compose. With a limit that is a number other than 0 and an
    integer offset the answer is that window of the ranking, and the page
    of [n] rows at offset [k] followed by the page of [m] rows at offset
    [k + n] is the page of [n + m] rows at offset [k]: paging shows every
    row of the ranking once. *)
Theorem pages_compose rq d n m k :
  0 <= n -> 0 <= m -> 0 <= k ->
  limit_offset n k (ordered rq d) ++ limit_offset m (k + n) (ordered rq d)
  = limit_offset (n + m) k (ordered rq d)
  /\ forall l o n' k',
       truthy (param (q_all rq)) = false ->
       truthy (lim_of StringToNumber (with_window l o rq)) = true ->
       sql_integer (Number (lim_of StringToNumber (with_window l o rq))) = Some n' ->
       sql_integer (off_of StringToNumber (with_window l o rq)) = Some k' ->
       answer (with_window l o rq) d = Some (limit_offset n' k' (ordered rq d)).
Proof.
  intros Hn Hm Hk. split.
  - unfold limit_offset.
    rewrite (proj2 (Z.ltb_ge n 0)), (proj2 (Z.ltb_ge m 0)),
      (proj2 (Z.ltb_ge (n + m) 0)) by lia.
    rewrite Z2Nat.inj_add, <- drop_drop by lia.
    rewrite take_take_drop. by rewrite Z2Nat.inj_add by lia.
  - intros l o n' k' Hall Hl Hn' Hk'. unfold get_api_wines.
    by rewrite Hl, Hn', Hk'.
Qed.

Lemma length_filter_aoc d a ws :
  a <> EmptyString ->
  length (filter (fun r => matches
                             (mk_wines_query (Some a) None None None None None
                                (Some "1"%string)) r = true)
            (map (joined d) ws))
  = length (filter (fun w => aoc w = a) ws).
Proof.
  intros Ha. induction ws as [|w ws IH]; [done|].
  cbn [map]. rewrite !filter_cons.
  assert (Hm : matches (mk_wines_query (Some a) None None None None None
                          (Some "1"%string)) (joined d w)
               = String.eqb (aoc w) a).
  { unfold where_clause. cbn. apply String.eqb_neq in Ha. rewrite Ha. cbn.
    by rewrite !andb_true_r. }
  rewrite Hm. destruct (decide (aoc w = a)) as [->|Hne].
  - rewrite String.eqb_refl. rewrite decide_True by done. cbn. by rewrite IH.
  - apply String.eqb_neq in Hne. rewrite Hne. rewrite decide_False by done. exact IH.
Qed.

(** X19. The appellation filter is exact, and agrees with GET /api/aocs:
    every row answered for a non-empty [aoc] is of that appellation, and for
    an appellation that the statement of /api/aocs groups with count [n],
    the request for it with [all] is answered with exactly [n] rows, so
    with at least one. *)
Theorem aoc_filter_exact rq d a :
  q_aoc rq = Some a -> a <> EmptyString ->
  (forall rows r, answer rq d = Some rows -> r ∈ rows -> aoc (r_wine r) = a)
  /\ (forall n, (a, n) ∈ select_aoc_groups d ->
      exists rows,
        answer (mk_wines_query (Some a) None None None None None (Some "1"%string)) d
        = Some rows
        /\ Z.of_nat (length rows) = n /\ rows <> []).
Proof.
  intros Hq Ha. split.
  - intros rows r H Hr.
    apply (get_api_wines_elem _ _ _ _ _ _ H) in Hr.
    apply select_ordered_elem in Hr as [Hm _].
    unfold where_clause in Hm. rewrite Hq in Hm. cbn [param truthy default] in Hm.
    apply String.eqb_neq in Ha. rewrite Ha in Hm. cbn [negb] in Hm.
    rewrite !andb_true_iff in Hm. destruct Hm as [[[Hm _] _] _].
    by apply String.eqb_eq in Hm.
  - intros n Hn.
    assert (H0 : groups_ok []) by (split; constructor).
    destruct (groups_fold (wines d) [] H0) as (Hok & Hc & _). cbn zeta in Hok, Hc.
    fold (select_aoc_groups d) in Hok, Hc.
    destruct (groups_count_elem a n _ Hok Hn) as [E Hp].
    rewrite Hc in E. cbn [group_count] in E.
    eexists. split; [reflexivity|].
    assert (L : Z.of_nat (length (ordered (mk_wines_query (Some a) None None None
                                             None None (Some "1"%string)) d)) = n).
    { rewrite (Permutation_length (select_ordered_perm _ _ _ _)).
      rewrite length_filter_aoc by done. unfold wines_of in E. lia. }
    split; [exact L|]. intros Hnil. rewrite Hnil in L. cbn in L. lia.
Qed.

Lemma Qred_inject_Z (k : Z) : Qred (inject_Z k) = inject_Z k.
Proof.
  unfold Qred, inject_Z.
  pose proof (Z.ggcd_gcd k 1) as G. pose proof (Z.ggcd_correct_divisors k 1) as D.
  destruct (Z.ggcd k 1) as [g [a b]]. cbn [fst snd] in *.
  rewrite Z.gcd_1_r in G. subst g. destruct D as [-> D].
  rewrite Z.mul_1_l in D. subst b. f_equal. lia.
Qed.

(** The numbers that LIMIT and OFFSET accept are the integers strictly
    between [- 2 ^ 63] and [2 ^ 63]. *)
Lemma sql_integer_Some (x : jsnum) (k : Z) :
  sql_integer x = Some k
  <-> exists q, x = Fin q /\ q == inject_Z k /\ - 2 ^ 63 < k < 2 ^ 63.
Proof.
  split.
  - destruct x as [q| | |]; cbn [sql_integer]; try done.
    destruct (Zpos (Qden (Qred q)) =? 1) eqn:Hd; [|done].
    destruct (- 2 ^ 63 <? Qnum (Qred q)) eqn:Hlo; [|done].
    destruct (Qnum (Qred q) <? 2 ^ 63) eqn:Hhi; [|done].
    cbn [andb]. intros [= <-]. exists q. split; [done|]. split; [|lia].
    rewrite <- (Qred_correct q) at 1.
    destruct (Qred q) as [n m]. cbn [Qnum Qden] in *.
    apply Z.eqb_eq in Hd. injection Hd as ->. reflexivity.
  - intros (q & -> & Hq & Hk). cbn [sql_integer].
    rewrite (Qred_complete q (inject_Z k) Hq), Qred_inject_Z. cbn [inject_Z Qnum Qden].
    rewrite Z.eqb_refl.
    rewrite (proj2 (Z.ltb_lt (- 2 ^ 63) k)), (proj2 (Z.ltb_lt k (2 ^ 63))) by lia.
    reflexivity.
Qed.

(** X20. With [all] the route never throws. Without [limit] and [all] it
    throws exactly when [offset] does not convert to an integer strictly
    between [- 2 ^ 63] and [2 ^ 63]: so for an [offset] that is not a
    number, for one with a fraction and for one of magnitude [2 ^ 63] or
    more. *)
Theorem bad_offset_throws rq d :
  (truthy (param (q_all rq)) = true -> answer rq d = Some (ordered rq d))
  /\ (truthy (param (q_all rq)) = false -> truthy (param (q_limit rq)) = false ->
      (answer rq d = None
       <-> ~ exists q k, off_of StringToNumber rq = Fin q
                         /\ q == inject_Z k /\ - 2 ^ 63 < k < 2 ^ 63)
      /\ (isFinite (off_of StringToNumber rq) = false -> answer rq d = None)
      /\ (forall q, off_of StringToNumber rq = Fin q ->
           (q <= inject_Z (- 2 ^ 63) \/ inject_Z (2 ^ 63) <= q)%Q ->
           answer rq d = None)
      /\ (forall q, off_of StringToNumber rq = Fin q ->
           (forall k, ~ q == inject_Z k) -> answer rq d = None))
  /\ (forall s, q_offset rq = Some s -> s <> EmptyString ->
      off_of StringToNumber rq = StringToNumber s)
  /\ sql_integer (Fin (inject_Z (- 2 ^ 63))) = None
  /\ sql_integer (Fin (inject_Z (2 ^ 63))) = None
  /\ sql_integer (Fin (1 # 2)) = None
  /\ sql_integer (Fin (inject_Z (- 2 ^ 63 + 1024))) = Some (- 2 ^ 63 + 1024).
Proof.
  split; [|split; [|split]].
  - intros H. unfold get_api_wines, lim_of. by rewrite H.
  - intros Ha Hl.
    assert (E : answer rq d = None
                <-> ~ exists q k, off_of StringToNumber rq = Fin q
                                  /\ q == inject_Z k /\ - 2 ^ 63 < k < 2 ^ 63).
    { rewrite (answer_default StringToNumber sql_like rq d Hl Ha).
      destruct (sql_integer (off_of StringToNumber rq)) as [k|] eqn:Ek.
      - split; [done|]. intros H. destruct H.
        apply sql_integer_Some in Ek as (q & ? & ? & ?). by exists q, k.
      - split; [|done]. intros _ (q & k & Hq & Hk).
        assert (sql_integer (off_of StringToNumber rq) = Some k) as Hs
          by (apply sql_integer_Some; by exists q).
        congruence. }
    split; [exact E|]. split; [|split].
    + intros Hf. apply E. intros (q & k & Hq & _). by rewrite Hq in Hf.
    + intros q Hq Hr. apply E. intros (q' & k & Hq' & Hk & Hb).
      rewrite Hq in Hq'. injection Hq' as <-.
      rewrite Hk in Hr. unfold Qle, inject_Z in Hr. cbn in Hr. lia.
    + intros q Hq Hn. apply E. intros (q' & k & Hq' & Hk & _).
      rewrite Hq in Hq'. injection Hq' as <-. by apply (Hn k).
  - intros s Ho Hs. unfold off_of, js_or. rewrite Ho. cbn [param truthy].
    apply String.eqb_neq in Hs. by rewrite Hs.
  - repeat split; by vm_compute.
Qed.

End Windows.

(** ** Splitting strings *)

Section Split.

Implicit Types (sep c : Ascii.ascii) (s x : string) (parts : list string).

Lemma js_split_nonempty sep s : js_split sep s <> [].
Proof.
  destruct s as [|c s]; cbn; [done|].
  destruct (Ascii.eqb c sep); [done|]. by destruct (js_split sep s).
Qed.

Lemma js_split_free sep s : Forall (fun x => free_of sep x = true) (js_split sep s).
Proof.
  induction s as [|c s IH]; cbn; [by repeat constructor|].
  destruct (Ascii.eqb c sep) eqn:E; [by constructor|].
  destruct (js_split sep s) as [|x xs]; [by repeat constructor; cbn; rewrite E|].
  apply Forall_cons in IH as [Hx Hxs]. constructor; [|done]. cbn. by rewrite E.
Qed.

Lemma js_join_cons_char sep c x parts :
  js_join sep (String c x :: parts) = String c (js_join sep (x :: parts)).
Proof. by destruct parts. Qed.

Lemma js_join_cons sep x y parts :
  js_join sep (x :: y :: parts) = (x ++ String sep (js_join sep (y :: parts)))%string.
Proof. reflexivity. Qed.

(** Joining the parts with the separator gives the string back. *)
Lemma js_join_split sep s : js_join sep (js_split sep s) = s.
Proof.
  induction s as [|c s IH]; cbn; [done|].
  destruct (Ascii.eqb c sep) eqn:E.
  - apply Ascii.eqb_eq in E as ->.
    destruct (js_split sep s) as [|y ys] eqn:Es; [by apply js_split_nonempty in Es|].
    rewrite js_join_cons, IH. done.
  - destruct (js_split sep s) as [|y ys] eqn:Es; [by apply js_split_nonempty in Es|].
    by rewrite js_join_cons_char, IH.
Qed.

Lemma js_split_free_one sep x : free_of sep x = true -> js_split sep x = [x].
Proof.
  induction x as [|c x IH]; cbn; [done|].
  intros [Hc Hx]%andb_true_iff. apply negb_true_iff in Hc. rewrite Hc.
  by rewrite (IH Hx).
Qed.

Lemma js_split_String sep c s :
  js_split sep (String c s)
  = if Ascii.eqb c sep then EmptyString :: js_split sep s
    else match js_split sep s with
         | x :: xs => String c x :: xs
         | [] => [String c EmptyString]
         end.
Proof. reflexivity. Qed.

Lemma js_split_app sep x s :
  free_of sep x = true ->
  js_split sep (x ++ String sep s)%string = x :: js_split sep s.
Proof.
  induction x as [|c x IH].
  - intros _. change (js_split sep (String sep s) = EmptyString :: js_split sep s).
    by rewrite js_split_String, Ascii.eqb_refl.
  - cbn [free_of]. intros [Hc Hx]%andb_true_iff. apply negb_true_iff in Hc.
    change (js_split sep (String c (x ++ String sep s)%string)
            = String c x :: js_split sep s).
    by rewrite js_split_String, Hc, (IH Hx).
Qed.

(** Splitting a join of parts that are free of the separator gives the
    parts back. *)
Lemma js_split_join sep parts :
  parts <> [] -> Forall (fun x => free_of sep x = true) parts ->
  js_split sep (js_join sep parts) = parts.
Proof.
  induction parts as [|x parts IH]; [done|]. intros _ [Hx Hp]%Forall_cons.
  destruct parts as [|y parts]; [by apply js_split_free_one|].
  rewrite js_join_cons, js_split_app by done. f_equal. by apply IH.
Qed.

End Split.

(** ** Basic authentication *)

Section Authentication.

Variable base64_decode : string -> string.
Variables ADMIN_USER ADMIN_PASSWORD : string.

Local Abbreviation auth := (basicAuth base64_decode ADMIN_USER ADMIN_PASSWORD).

Local Open Scope string_scope.

(** What [basicAuth] reads in the header. *)
Lemma basicAuth_next header :
  auth header = Auth_next
  <-> exists h token more extra,
        header = Some h
        /\ js_split " " h = "Basic" :: token :: more
        /\ token <> ""
        /\ js_split ":" (base64_decode token) = ADMIN_USER :: ADMIN_PASSWORD :: extra.
Proof.
  unfold basicAuth. split.
  - destruct header as [h|]; [|done].
    assert (Hh : (if String.eqb h "" then "" else h) = h).
    { destruct (String.eqb h "") eqn:E; [|done]. by apply String.eqb_eq in E. }
    rewrite Hh.
    destruct (js_split " " h) as [|ty [|token more]] eqn:Es; cbn; try done.
    + by rewrite orb_true_r.
    + destruct (bool_decide (Some ty = Some "Basic")) eqn:Et; [|done]. cbn.
      apply bool_decide_eq_true in Et. injection Et as ->.
      destruct (String.eqb token "") eqn:Etok; [done|]. cbn.
      apply String.eqb_neq in Etok.
      destruct (js_split ":" (base64_decode token)) as [|u [|p extra]] eqn:Ec;
        cbn; try done.
      * by rewrite andb_false_r.
      * destruct (bool_decide (Some u = Some ADMIN_USER)) eqn:Eu; [|done].
        destruct (bool_decide (Some p = Some ADMIN_PASSWORD)) eqn:Ep; [|done].
        apply bool_decide_eq_true in Eu, Ep. injection Eu as ->. injection Ep as ->.
        intros _. exists h, token, more, extra. done.
  - intros (h & token & more & extra & -> & Hs & Htok & Hc).
    assert (Hh : (if String.eqb h "" then "" else h) = h).
    { destruct (String.eqb h "") eqn:E; [|done]. by apply String.eqb_eq in E. }
    rewrite Hh, Hs. cbn. rewrite bool_decide_eq_true_2 by done. cbn.
    apply String.eqb_neq in Htok. rewrite Htok. cbn. rewrite Hc. cbn.
    by rewrite !bool_decide_eq_true_2.
Qed.

(** X21. [basicAuth] lets a request pass exactly when the header is
    [Basic], one space, a non-empty token and then perhaps a space and
    anything, and the decoded token is the user, a colon, the password and
    then perhaps a colon and anything; the user and the password it compares
    are the first two colon-free parts of the decoded token. *)
Theorem basicAuth_passes_iff header :
  auth header = Auth_next
  <-> exists token more extra,
        token <> ""
        /\ Forall (fun x => free_of " " x = true) (token :: more)
        /\ header = Some (js_join " " ("Basic" :: token :: more))
        /\ Forall (fun x => free_of ":" x = true) (ADMIN_USER :: ADMIN_PASSWORD :: extra)
        /\ base64_decode token = js_join ":" (ADMIN_USER :: ADMIN_PASSWORD :: extra).
Proof.
  rewrite basicAuth_next. split.
  - intros (h & token & more & extra & -> & Hs & Htok & Hc).
    exists token, more, extra. split; [done|].
    pose proof (js_split_free " " h) as Hf. rewrite Hs in Hf.
    apply Forall_cons in Hf as [_ Hf]. split; [done|].
    split; [by rewrite <- Hs, js_join_split|].
    pose proof (js_split_free ":" (base64_decode token)) as Hg. rewrite Hc in Hg.
    split; [done|]. by rewrite <- Hc, js_join_split.
  - intros (token & more & extra & Htok & Hf & -> & Hg & Hc).
    exists (js_join " " ("Basic" :: token :: more)), token, more, extra.
    split; [done|]. split.
    + apply js_split_join; [done|]. by constructor.
    + split; [done|]. rewrite Hc. by apply js_split_join.
Qed.

(** X22. A password or a user name that contains a colon can never be
    presented: with such credentials configured no request passes
    [basicAuth]. Without a header, or with one that does not start with
    [Basic] and a space, the answer is 401. *)
Theorem basicAuth_colon_locks_out header :
  (free_of ":" ADMIN_USER = false \/ free_of ":" ADMIN_PASSWORD = false ->
   auth header <> Auth_next)
  /\ (header = None \/ header = Some "" ->
      auth header = Auth_401_authentication_required)
  /\ (forall h, header = Some h -> js_split " " h !! 0%nat <> Some "Basic" ->
      auth header = Auth_401_authentication_required)
  /\ (forall h, header = Some h -> js_split " " h !! 1%nat = None ->
      auth header = Auth_401_authentication_required).
Proof.
  split; [|split; [|split]].
  - intros Hbad (h & token & more & extra & _ & _ & _ & Hc)%basicAuth_next.
    pose proof (js_split_free ":" (base64_decode token)) as Hg. rewrite Hc in Hg.
    apply Forall_cons in Hg as [Hu Hg]. apply Forall_cons in Hg as [Hp _].
    destruct Hbad; congruence.
  - intros [-> | ->]; reflexivity.
  - intros h -> Hne. unfold basicAuth.
    assert (Hh : (if String.eqb h "" then "" else h) = h).
    { destruct (String.eqb h "") eqn:E; [|done]. by apply String.eqb_eq in E. }
    rewrite Hh. by rewrite bool_decide_eq_false_2.
  - intros h -> Hn. unfold basicAuth.
    assert (Hh : (if String.eqb h "" then "" else h) = h).
    { destruct (String.eqb h "") eqn:E; [|done]. by apply String.eqb_eq in E. }
    rewrite Hh, Hn. cbn. by rewrite orb_true_r.
Qed.

End Authentication.

(** ** The key of a CSV record *)

Section CsvKey.

Local Open Scope string_scope.

Implicit Types (r : csv_key_columns).

Lemma csv_fallback_join r :
  truthy (param (c_external_id r)) = false ->
  truthy (param (c_id r)) = false ->
  csv_external_id r
  = js_join "|" [template_value (c_name r); template_value (c_vintage r);
                 template_value (c_aoc r)].
Proof. intros H1 H2. unfold csv_external_id. by rewrite H1, H2. Qed.

(** X23. The key that the CSV import gives a record is never empty: it is
    [external_id] when that is not empty, else [id] when that is not empty,
    else name, vintage and appellation joined by bars, a missing column
    printing as [undefined]. Two records without [external_id] and [id] get
    the same key exactly when they print the same name, vintage and
    appellation, provided these contain no bar. *)
Theorem csv_key_merges_same_wine r r' :
  csv_external_id r <> ""
  /\ (forall e, c_external_id r = Some e -> e <> "" -> csv_external_id r = e)
  /\ (forall i, truthy (param (c_external_id r)) = false ->
      c_id r = Some i -> i <> "" -> csv_external_id r = i)
  /\ (truthy (param (c_external_id r)) = false -> truthy (param (c_id r)) = false ->
      truthy (param (c_external_id r')) = false -> truthy (param (c_id r')) = false ->
      Forall (fun x => free_of "|" x = true)
        [template_value (c_name r); template_value (c_vintage r);
         template_value (c_aoc r)] ->
      Forall (fun x => free_of "|" x = true)
        [template_value (c_name r'); template_value (c_vintage r');
         template_value (c_aoc r')] ->
      (csv_external_id r = csv_external_id r'
       <-> template_value (c_name r) = template_value (c_name r')
           /\ template_value (c_vintage r) = template_value (c_vintage r')
           /\ template_value (c_aoc r) = template_value (c_aoc r'))).
Proof.
  split; [|split; [|split]].
  - unfold csv_external_id.
    destruct (c_external_id r) as [e|]; cbn.
    + destruct (String.eqb e "") eqn:E; cbn; [|by apply String.eqb_neq].
      destruct (c_id r) as [i|]; cbn.
      * destruct (String.eqb i "") eqn:Ei; cbn; [|by apply String.eqb_neq].
        by destruct (template_value (c_name r)).
      * by destruct (template_value (c_name r)).
    + destruct (c_id r) as [i|]; cbn.
      * destruct (String.eqb i "") eqn:Ei; cbn; [|by apply String.eqb_neq].
        by destruct (template_value (c_name r)).
      * by destruct (template_value (c_name r)).
  - intros e He Hne. unfold csv_external_id. rewrite He. cbn.
    apply String.eqb_neq in Hne. by rewrite Hne.
  - intros i Hx Hi Hne. unfold csv_external_id. rewrite Hx, Hi. cbn.
    apply String.eqb_neq in Hne. by rewrite Hne.
  - intros H1 H2 H1' H2' Hf Hf'.
    rewrite (csv_fallback_join r H1 H2), (csv_fallback_join r' H1' H2').
    split.
    + intros E. apply (f_equal (js_split "|")) in E.
      rewrite !js_split_join in E by done. by injection E.
    + by intros (-> & -> & ->).
Qed.

End CsvKey.

(** ** The further properties on the sample data *)

Section FurtherScenarios.

Import Sample MoreSamples.

Local Open Scope string_scope.

Local Abbreviation answer := (get_api_wines Sample.StringToNumber Sample.sql_like).

Lemma upsert_then_lookup_witness :
  upsertWine 3000 (item_params w1_renamed) after_override = Some renamed_by_upsert
  /\ p_external_id (item_params w1_renamed) = Some "x1"
  /\ exists w, getWineByExternalId "x1" renamed_by_upsert = Some w
               /\ updated_at w = 3000.
Proof.
  assert (H1 : upsertWine 3000 (item_params w1_renamed) after_override
               = Some renamed_by_upsert) by reflexivity.
  assert (H2 : p_external_id (item_params w1_renamed) = Some "x1") by reflexivity.
  split; [exact H1|]. split; [exact H2|].
  destruct (proj1 (upsert_then_lookup 3000 _ "x1" _ _ H1 H2)) as (w & Hw & _ & Hu & _).
  exists w. split; [exact Hw|exact Hu].
Defined.

Lemma upsert_row_count_witness :
  upsertWine 3000 (item_params w1_renamed) after_override = Some renamed_by_upsert
  /\ length (wines renamed_by_upsert) = 1%nat.
Proof.
  assert (H1 : upsertWine 3000 (item_params w1_renamed) after_override
               = Some renamed_by_upsert) by reflexivity.
  split; [exact H1|].
  exact (proj1 (upsert_row_count 3000 _ _ _ H1)).
Defined.

Lemma rowids_stay_unique_witness :
  unique_ids after_w1
  /\ run_upserts 1000 (map item_params [tie_a; tie_b]) after_w1 = Some with_ties
  /\ unique_ids with_ties.
Proof.
  assert (H1 : unique_ids after_w1) by (vm_compute; apply NoDup_singleton).
  assert (H2 : run_upserts 1000 (map item_params [tie_a; tie_b]) after_w1
               = Some with_ties) by reflexivity.
  split; [exact H1|]. split; [exact H2|].
  exact (proj1 (rowids_stay_unique 1000 _ _ _ H1 H2)).
Defined.

Lemma import_last_item_wins_witness :
  unique_keys after_override
  /\ (post_admin_import 3000 [w1; w1_renamed] after_override).1 = Status200_upserted 2
  /\ unique_keys (post_admin_import 3000 [w1; w1_renamed] after_override).2.
Proof.
  assert (H1 : unique_keys after_override) by (vm_compute; apply NoDup_singleton).
  assert (H2 : (post_admin_import 3000 [w1; w1_renamed] after_override).1
               = Status200_upserted (length [w1; w1_renamed])) by reflexivity.
  split; [exact H1|]. split; [exact H2|].
  exact (proj1 (import_last_item_wins 3000 _ _ H1 H2)).
Defined.

Lemma overrides_stay_valid_witness :
  overrides_valid after_w1 /\ overrides_valid after_override.
Proof.
  assert (H1 : overrides_valid after_w1).
  { intros i o H. change (admin_overrides after_w1) with (∅ : gmap Z override) in H.
    by rewrite lookup_empty in H. }
  split; [exact H1|].
  exact (proj1 (overrides_stay_valid Sample.StringToNumber 2000 after_w1 H1)
           (mk_override_body (Some 1) (JNum (Fin 10)))).
Defined.

Lemma override_then_ranked_witness :
  wines after_override = wines after_w1
  /\ last_refresh after_override = last_refresh after_w1.
Proof.
  assert (H : exists w0, getWineById 1 after_w1 = Some w0)
    by (eexists; vm_compute; reflexivity).
  destruct H as [w0 H].
  destruct (override_then_ranked Sample.StringToNumber 2000 1 (JNum (Fin 10)) 10
              after_w1 w0 ltac:(discriminate) eq_refl eq_refl
              ltac:(split; discriminate) H) as (H1 & H2 & _).
  split; [exact H1|exact H2].
Defined.

Lemma override_last_write_wins_witness :
  (post_admin_override Sample.StringToNumber 4000
     (mk_override_body (Some 1) (JNum (Fin (-5)))) after_override).2
  = (post_admin_override Sample.StringToNumber 4000
       (mk_override_body (Some 1) (JNum (Fin (-5)))) after_w1).2.
Proof.
  assert (H : exists w0, getWineById 1 after_w1 = Some w0)
    by (eexists; vm_compute; reflexivity).
  destruct H as [w0 H].
  exact (proj1 (override_last_write_wins Sample.StringToNumber 2000 4000 1 1
                  (JNum (Fin 10)) (JNum (Fin (-5))) 10 (-5) after_w1 w0 w0
                  ltac:(discriminate) ltac:(discriminate) eq_refl eq_refl eq_refl
                  eq_refl ltac:(split; discriminate) ltac:(split; discriminate) H H)).
Defined.

Lemma refresh_null_keys_grow_witness :
  length (wines (refreshVivinoData Sample.StringToNumber 5000 (Seed_rows [seed_unkeyed])
                   after_w1)) = 2%nat
  /\ length (wines (refreshVivinoData Sample.StringToNumber 6000 (Seed_rows [seed_unkeyed])
                      (refreshVivinoData Sample.StringToNumber 5000
                         (Seed_rows [seed_unkeyed]) after_w1))) = 3%nat.
Proof.
  exact (refresh_null_keys_grow Sample.StringToNumber 5000 6000 [seed_unkeyed] after_w1
           ltac:(repeat constructor; eauto)).
Defined.

Lemma refresh_again_witness :
  unique_keys after_override
  /\ map strip
       (wines (refreshVivinoData Sample.StringToNumber 6000 (Seed_rows [seed_w1])
                 (refreshVivinoData Sample.StringToNumber 5000 (Seed_rows [seed_w1])
                    after_override)))
     = map strip
         (wines (refreshVivinoData Sample.StringToNumber 5000 (Seed_rows [seed_w1])
                   after_override)).
Proof.
  assert (H1 : unique_keys after_override) by (vm_compute; apply NoDup_singleton).
  split; [exact H1|].
  exact (proj1 (refresh_again Sample.StringToNumber 5000 6000 [seed_w1] after_override
                  H1 ltac:(repeat constructor; eauto))).
Defined.

Lemma no_refresh_for_75_days_witness :
  (1000 + 74 * MILLISECONDS_A_DAY) - 1000 < 75 * MILLISECONDS_A_DAY
  /\ refresh_check Sample.StringToNumber (1000 + 74 * MILLISECONDS_A_DAY)
       (Seed_rows [seed_w1]) (post_admin_import 1000 [w1] empty_db).2
     = (post_admin_import 1000 [w1] empty_db).2.
Proof.
  assert (H : (1000 + 74 * MILLISECONDS_A_DAY) - 1000 < 75 * MILLISECONDS_A_DAY)
    by reflexivity.
  split; [exact H|].
  exact (proj1 (no_refresh_for_75_days Sample.StringToNumber 1000 _ [w1] No_file
                  (Seed_rows [seed_w1]) empty_db H) eq_refl).
Defined.

Lemma window_is_the_top_witness :
  answer margaux cellar = Some margaux_window
  /\ length margaux_window = 20%nat
  /\ exists before after,
       select_ordered Sample.StringToNumber Sample.sql_like margaux cellar
       = (before ++ margaux_window ++ after)%list
       /\ forall a b, a ∈ margaux_window -> b ∈ after -> ranks_no_later a b.
Proof.
  assert (H : answer margaux cellar = Some margaux_window) by (vm_compute; reflexivity).
  split; [exact H|]. split; [by vm_compute|].
  destruct (window_is_the_top Sample.StringToNumber Sample.sql_like margaux cellar
              margaux_window H) as (before & after & E & _ & G & _).
  exists before, after. split; [exact E|exact G].
Defined.

Lemma pages_compose_witness :
  (limit_offset 2 1 (select_ordered Sample.StringToNumber Sample.sql_like margaux cellar)
   ++ limit_offset 3 (1 + 2)
        (select_ordered Sample.StringToNumber Sample.sql_like margaux cellar))%list
  = limit_offset (2 + 3) 1
      (select_ordered Sample.StringToNumber Sample.sql_like margaux cellar).
Proof.
  exact (proj1 (pages_compose Sample.StringToNumber Sample.sql_like margaux cellar 2 3 1
                  ltac:(discriminate) ltac:(discriminate) ltac:(discriminate))).
Defined.

Lemma aoc_filter_exact_witness :
  q_aoc margaux = Some "Margaux"
  /\ forall r, r ∈ margaux_window -> aoc (r_wine r) = "Margaux".
Proof.
  split; [reflexivity|]. intros r Hr.
  assert (H : answer margaux cellar = Some margaux_window) by (vm_compute; reflexivity).
  exact (proj1 (aoc_filter_exact Sample.StringToNumber Sample.sql_like margaux cellar
                  "Margaux" eq_refl ltac:(discriminate)) margaux_window r H Hr).
Defined.

(** An override for a rowid that the table does not hold: the statement is
    refused, and the route answers 404 before it would run it. *)
Example scenario_override_unknown_wine :
  upsertOverride 2000 7 10 Sample.after_w1 = None
  /\ post_admin_override Sample.StringToNumber 2000
       (mk_override_body (Some 7) (JNum (Fin 10))) Sample.after_w1
     = (Status404_not_found, Sample.after_w1).
Proof. by vm_compute. Qed.

End FurtherScenarios.
